(** * Kanban buckets of Vikunja: a shallow embedding and its properties

    The development follows [pkg/models/kanban.go] (the bucket store and the
    board read pipeline), the list view of the frontend (its drag-and-drop
    handler [saveTaskPosition], its task list and its subtask filter) and
    the Trello migration, which turns boards, lists and cards into projects,
    buckets and tasks.

    Modelling conventions.
    - [int64] and [int] values are integers of [Z]; the code performs no
      arithmetic on identifiers, so no wrap-around arises.
    - A [float64] position is the rational number it denotes (every finite
      double is one); comparisons are exact, rounding is not represented.
    - The xorm session is an in-memory record of tables ([Store]); each
      session call the code makes is a total function on it.  I/O failures of
      the database are outside the model.
    - Functions the package calls but does not define (authorization, user
      lookup, the filter parser, the task query) are fields of [Collaborators];
      every statement is made for an arbitrary such record.
    - Pointers: the slice [buckets] of [ReadAll] is the heap of the request;
      a [*Bucket] is an index into it, [nil] is [None]. *)

From Stdlib Require Import QArith Lqa Ascii.
From stdpp Require Import gmap strings list sorting pretty.

Local Open Scope Z_scope.

(** ** Data model *)

(** [user.User]: only the identifier is read by this package. *)
Record User := mkUser {
  user_ID : Z;
  user_Username : string
}.

(** [web.Auth]: the acting identity of a request. *)
Record Auth := mkAuth {
  auth_ID : Z
}.

(** [models.Task], restricted to the fields this package reads or writes. *)
Record Task := mkTask {
  task_ID : Z;
  task_Title : string;
  task_ProjectID : Z;
  task_BucketID : Z
}.

(** [models.Project], restricted likewise. *)
Record Project := mkProject {
  project_ID : Z;
  project_Title : string;
  project_DefaultBucketID : Z;
  project_DoneBucketID : Z
}.

(** [TaskCollection]: the filter parameters a read request carries. *)
Record TaskCollection := mkTaskCollection {
  tc_Filter : string;
  tc_FilterTimezone : string;
  tc_FilterIncludeNulls : bool
}.

Definition emptyTaskCollection : TaskCollection := mkTaskCollection "" "" false.

(** [type Bucket struct]. *)
Record Bucket := mkBucket {
  bucket_ID : Z;
  bucket_Title : string;
  bucket_ProjectID : Z;
  bucket_Tasks : list Task;
  bucket_Limit : Z;
  bucket_Count : Z;
  bucket_Position : Q;
  bucket_Created : Z;
  bucket_Updated : Z;
  bucket_CreatedBy : option User;
  bucket_CreatedByID : Z;
  bucket_TaskCollection : TaskCollection
}.

Definition set_bucket_ID (v : Z) (b : Bucket) : Bucket :=
  mkBucket v (bucket_Title b) (bucket_ProjectID b) (bucket_Tasks b) (bucket_Limit b)
    (bucket_Count b) (bucket_Position b) (bucket_Created b) (bucket_Updated b)
    (bucket_CreatedBy b) (bucket_CreatedByID b) (bucket_TaskCollection b).

Definition set_bucket_Tasks (v : list Task) (b : Bucket) : Bucket :=
  mkBucket (bucket_ID b) (bucket_Title b) (bucket_ProjectID b) v (bucket_Limit b)
    (bucket_Count b) (bucket_Position b) (bucket_Created b) (bucket_Updated b)
    (bucket_CreatedBy b) (bucket_CreatedByID b) (bucket_TaskCollection b).

Definition set_bucket_Count (v : Z) (b : Bucket) : Bucket :=
  mkBucket (bucket_ID b) (bucket_Title b) (bucket_ProjectID b) (bucket_Tasks b) (bucket_Limit b)
    v (bucket_Position b) (bucket_Created b) (bucket_Updated b)
    (bucket_CreatedBy b) (bucket_CreatedByID b) (bucket_TaskCollection b).

Definition set_bucket_Position (v : Q) (b : Bucket) : Bucket :=
  mkBucket (bucket_ID b) (bucket_Title b) (bucket_ProjectID b) (bucket_Tasks b) (bucket_Limit b)
    (bucket_Count b) v (bucket_Created b) (bucket_Updated b)
    (bucket_CreatedBy b) (bucket_CreatedByID b) (bucket_TaskCollection b).

Definition set_bucket_times (created updated : Z) (b : Bucket) : Bucket :=
  mkBucket (bucket_ID b) (bucket_Title b) (bucket_ProjectID b) (bucket_Tasks b) (bucket_Limit b)
    (bucket_Count b) (bucket_Position b) created updated
    (bucket_CreatedBy b) (bucket_CreatedByID b) (bucket_TaskCollection b).

Definition set_bucket_CreatedBy (u : option User) (uid : Z) (b : Bucket) : Bucket :=
  mkBucket (bucket_ID b) (bucket_Title b) (bucket_ProjectID b) (bucket_Tasks b) (bucket_Limit b)
    (bucket_Count b) (bucket_Position b) (bucket_Created b) (bucket_Updated b)
    u uid (bucket_TaskCollection b).

(** The columns of a bucket row: the fields tagged [xorm:"-"] are not stored
    and come back as zero values. *)
Definition bucketRow (b : Bucket) : Bucket :=
  mkBucket (bucket_ID b) (bucket_Title b) (bucket_ProjectID b) [] (bucket_Limit b)
    0 (bucket_Position b) (bucket_Created b) (bucket_Updated b)
    None (bucket_CreatedByID b) emptyTaskCollection.

(** Errors of the package.  [ErrCollaborator] carries an error raised by a
    function defined outside the package. *)
Inductive error :=
| ErrProjectDoesNotExist (id : Z)
| ErrBucketDoesNotExist (bucketID : Z)
| ErrCannotRemoveLastBucket (bucketID projectID : Z)
| ErrGenericForbidden
| ValidationHTTPError (invalidFields : list string)
| ErrCollaborator (msg : string).

#[global] Instance error_eq_dec : EqDecision error.
Proof. solve_decision. Defined.

(** ** The storage session *)

Record Store := mkStore {
  store_buckets : list Bucket;
  store_tasks : list Task;
  store_projects : list Project;
  store_bucketSeq : Z;
  store_now : Z
}.

Definition set_store_buckets (v : list Bucket) (s : Store) : Store :=
  mkStore v (store_tasks s) (store_projects s) (store_bucketSeq s) (store_now s).

Definition set_store_tasks (v : list Task) (s : Store) : Store :=
  mkStore (store_buckets s) v (store_projects s) (store_bucketSeq s) (store_now s).

Definition set_store_projects (v : list Project) (s : Store) : Store :=
  mkStore (store_buckets s) (store_tasks s) v (store_bucketSeq s) (store_now s).

(** [ORDER BY position]: ascending on the exact value of the position. *)
Definition positionLe (b1 b2 : Bucket) : Prop :=
  (bucket_Position b1 <= bucket_Position b2)%Q.

#[global] Instance positionLe_dec : RelDecision positionLe.
Proof. intros b1 b2. unfold positionLe, Qle. apply _. Defined.

(** [s.Where("project_id = ?", id)] on the bucket table. *)
Definition whereProjectID (s : Store) (projectID : Z) : list Bucket :=
  filter (λ r, bucket_ProjectID r = projectID) (store_buckets s).

(** [s.Where("project_id = ?", id).OrderBy("position")]: the rows in the
    order the statement visits them. *)
Definition orderedRows (s : Store) (projectID : Z) : list Bucket :=
  merge_sort positionLe (whereProjectID s projectID).

(** [....Find(&buckets)]: each row fills a fresh bean, column by column. *)
Definition findBucketsOrdered (s : Store) (projectID : Z) : list Bucket :=
  bucketRow <$> orderedRows s projectID.

(** [s.Where("project_id = ?", id).Count(&Bucket{})]. *)
Definition countBuckets (s : Store) (projectID : Z) : Z :=
  Z.of_nat (length (whereProjectID s projectID)).

(** [s.Where("bucket_id = ?", from).Cols("bucket_id").Update(&Task{BucketID: to})]. *)
Definition moveTask (from to : Z) (t : Task) : Task :=
  if decide (task_BucketID t = from)
  then mkTask (task_ID t) (task_Title t) (task_ProjectID t) to
  else t.

Definition updateTasksBucket (s : Store) (from to : Z) : Store :=
  set_store_tasks (moveTask from to <$> store_tasks s) s.

(** [s.Where("id = ?", id).Delete(&Bucket{})]. *)
Definition deleteBucketRows (s : Store) (id : Z) : Store :=
  set_store_buckets (filter (λ r, bucket_ID r ≠ id) (store_buckets s)) s.

(** ** Collaborators defined outside the package sources *)

(** Modelled from the spec: [GetProjectSimpleByID] is not part of the sources;
    it yields the collection's row, or the not-found error when no collection
    has that identifier. *)
Definition GetProjectSimpleByID (s : Store) (projectID : Z) : error + Project :=
  match list_find (λ p, project_ID p = projectID) (store_projects s) with
  | Some (_, p) => inr p
  | None => inl (ErrProjectDoesNotExist projectID)
  end.

(** Modelled from the spec: [Project.Update] is not part of the sources; it
    persists the collection's changed references. *)
Definition Project_Update (s : Store) (p : Project) (a : Auth) : Store * option error :=
  (set_store_projects
     ((λ r, if decide (project_ID r = project_ID p) then p else r) <$> store_projects s) s,
   None).

Definition set_project_DefaultBucketID (v : Z) (p : Project) : Project :=
  mkProject (project_ID p) (project_Title p) v (project_DoneBucketID p).

Definition set_project_DoneBucketID (v : Z) (p : Project) : Project :=
  mkProject (project_ID p) (project_Title p) (project_DefaultBucketID p) v.

(** ** The bucket store *)

(** [getBucketByID]. *)
Definition getBucketByID (s : Store) (id : Z) : error + Bucket :=
  match list_find (λ r, bucket_ID r = id) (store_buckets s) with
  | Some (_, r) => inr r
  | None => inl (ErrBucketDoesNotExist id)
  end.

(** [getDefaultBucketID]: the [exists] flag of [Get] is dropped by the code,
    so an empty collection yields the zero value of [bucket.ID]. *)
Definition getDefaultBucketID (s : Store) (project : Project) : error + Z :=
  if decide (project_DefaultBucketID project ≠ 0)
  then inr (project_DefaultBucketID project)
  else
    match findBucketsOrdered s (project_ID project) with
    | bucket :: _ => inr (bucket_ID bucket)
    | [] => inr 0
    end.

(** Lines 332 to 340 of [Bucket.Delete]: the references of the project that
    point at the bucket are cleared; the flag tells whether any was. *)
Definition clearBucketReferences (bucketID : Z) (p : Project) : Project * bool :=
  let '(p, updateProject) :=
    if decide (bucketID = project_DefaultBucketID p)
    then (set_project_DefaultBucketID 0 p, true) else (p, false) in
  if decide (bucketID = project_DoneBucketID p)
  then (set_project_DoneBucketID 0 p, true) else (p, updateProject).

(** [Bucket.Delete]. *)
Definition Bucket_Delete (s : Store) (b : Bucket) (a : Auth) : Store * option error :=
  let total := countBuckets s (bucket_ProjectID b) in
  if decide (total <= 1)
  then (s, Some (ErrCannotRemoveLastBucket (bucket_ID b) (bucket_ProjectID b)))
  else
    match GetProjectSimpleByID s (bucket_ProjectID b) with
    | inl err => (s, Some err)
    | inr p =>
        let '(p, updateProject) := clearBucketReferences (bucket_ID b) p in
        let '(s, err) :=
          if updateProject : bool then Project_Update s p a else (s, None) in
        match err with
        | Some err => (s, Some err)
        | None =>
            match getDefaultBucketID s p with
            | inl err => (s, Some err)
            | inr defaultBucketID =>
                let s := updateTasksBucket s (bucket_ID b) defaultBucketID in
                (deleteBucketRows s (bucket_ID b), None)
            end
        end
    end.

(** [Bucket.Update]: [Cols("title", "limit", "position")] restricts the
    statement to these columns (zero values included); the column tagged
    [xorm:"updated"] is stamped by the session on every update. *)
Definition updateBucketCols (now : Z) (b r : Bucket) : Bucket :=
  if decide (bucket_ID r = bucket_ID b)
  then mkBucket (bucket_ID r) (bucket_Title b) (bucket_ProjectID r) (bucket_Tasks r)
         (bucket_Limit b) (bucket_Count r) (bucket_Position b) (bucket_Created r) now
         (bucket_CreatedBy r) (bucket_CreatedByID r) (bucket_TaskCollection r)
  else r.

Definition Bucket_Update (s : Store) (b : Bucket) (a : Auth) : Store * option error :=
  (set_store_buckets (updateBucketCols (store_now s) b <$> store_buckets s) s, None).

(** ** Strings *)

(** [strings.Contains]. *)
Fixpoint strings_Contains (s substr : string) : bool :=
  String.prefix substr s ||
  match s with
  | EmptyString => false
  | String _ s' => strings_Contains s' substr
  end.

(** [strconv.FormatInt(i, 10)]. *)
Definition strconv_FormatInt (i : Z) : string := pretty i.

(** ** Filters and search options *)

(** The dynamically typed [value] of a parsed filter: the code inspects it
    with the type assertion [filter.value.(int64)]. *)
Inductive filterValue :=
| VInt64 (n : Z)
| VOther (repr : string).

Record taskFilter := mkTaskFilter {
  tf_field : string;
  tf_comparator : string;
  tf_value : filterValue
}.

Record sortParam := mkSortParam {
  sp_sortBy : string;
  sp_orderBy : string
}.

Record taskSearchOptions := mkOpts {
  opts_search : string;
  opts_page : Z;
  opts_perPage : Z;
  opts_sortby : list sortParam;
  opts_parsedFilters : list taskFilter;
  opts_filterIncludeNulls : bool;
  opts_filter : string;
  opts_filterTimezone : string
}.

Definition set_opts_paging (sortby : list sortParam) (page perPage : Z) (search : string)
    (o : taskSearchOptions) : taskSearchOptions :=
  mkOpts search page perPage sortby (opts_parsedFilters o) (opts_filterIncludeNulls o)
    (opts_filter o) (opts_filterTimezone o).

Definition set_opts_parsedFilters (v : list taskFilter) (o : taskSearchOptions)
    : taskSearchOptions :=
  mkOpts (opts_search o) (opts_page o) (opts_perPage o) (opts_sortby o) v
    (opts_filterIncludeNulls o) (opts_filter o) (opts_filterTimezone o).

(** Modelled from the spec: the declarations of the field and ordering
    constants are not part of the sources; the bucket-id field is the one
    written [bucket_id] in filter text. *)
Definition taskPropertyBucketID : string := "bucket_id".
Definition taskPropertyKanbanPosition : string := "kanban_position".
Definition orderAscending : string := "asc".

(** Functions the package calls and does not define.  Their errors are
    opaque to the package and are passed on as [ErrCollaborator]. *)
Record Collaborators := mkCollaborators {
  CanRead : Store → Project → Auth → string + bool;
  GetUserOrLinkShareUser : Store → Auth → string + User;
  getUsersOrLinkSharesFromIDs : Store → list Z → string + gmap Z User;
  getTaskFilterOptsFromCollection : TaskCollection → string + taskSearchOptions;
  getTaskFiltersFromFilterString : string → string → string + list taskFilter;
  getRawTasksForProjects :
    Store → list Project → Auth → taskSearchOptions → string + (list Task * Z * Z);
  addMoreInfoToTasks : Store → gmap Z Task → Auth → string + gmap Z Task;
  calculateDefaultPosition : Z → Q → Q
}.

(** ** Creating a bucket *)

(** [s.Insert(b)]: the auto-increment key is issued when the bean carries
    none; the [created] and [updated] columns are stamped. *)
Definition insertBucket (s : Store) (b : Bucket) : Store * Bucket :=
  let id := if decide (bucket_ID b = 0) then store_bucketSeq s + 1 else bucket_ID b in
  let b := set_bucket_times (store_now s) (store_now s) (set_bucket_ID id b) in
  (mkStore (store_buckets s ++ [bucketRow b]) (store_tasks s) (store_projects s)
     (Z.max (store_bucketSeq s) id) (store_now s), b).

(** [s.Where("id = ?", b.ID).Update(b)] without [Cols]: the non-zero columns
    of the bean are written, [updated] is stamped, the key and [created] are
    left alone. *)
Definition updateBucketNonZero (now : Z) (b r : Bucket) : Bucket :=
  if decide (bucket_ID r = bucket_ID b)
  then mkBucket (bucket_ID r)
         (if decide (bucket_Title b = "") then bucket_Title r else bucket_Title b)
         (if decide (bucket_ProjectID b = 0) then bucket_ProjectID r else bucket_ProjectID b)
         (bucket_Tasks r)
         (if decide (bucket_Limit b = 0) then bucket_Limit r else bucket_Limit b)
         (bucket_Count r)
         (if Qeq_bool (bucket_Position b) 0 then bucket_Position r else bucket_Position b)
         (bucket_Created r) now (bucket_CreatedBy r)
         (if decide (bucket_CreatedByID b = 0) then bucket_CreatedByID r
          else bucket_CreatedByID b)
         (bucket_TaskCollection r)
  else r.

(** [Bucket.Create]. *)
Definition Bucket_Create (env : Collaborators) (s : Store) (b : Bucket) (a : Auth)
    : Store * Bucket * option error :=
  match GetUserOrLinkShareUser env s a with
  | inl err => (s, set_bucket_CreatedBy None (bucket_CreatedByID b) b,
                Some (ErrCollaborator err))
  | inr u =>
      let b := set_bucket_CreatedBy (Some u) (user_ID u) b in
      let '(s, b) := insertBucket s b in
      let b := set_bucket_Position
                 (calculateDefaultPosition env (bucket_ID b) (bucket_Position b)) b in
      (set_store_buckets (updateBucketNonZero (store_now s) b <$> store_buckets s) s,
       b, None)
  end.



(** ** Reading a board *)

(** A call either returns, returns an error, or panics (a failed type
    assertion, a nil dereference). *)
Inductive outcome (A : Type) :=
| Return (a : A)
| Fail (err : error)
| Panic (msg : string).
Arguments Return {A} a.
Arguments Fail {A} err.
Arguments Panic {A} msg.

(** What a read does besides computing its result: calls of the filter
    parser, calls of the task query, and debug log lines. *)
Inductive event :=
| EvParse (filterString filterTimezone : string)
| EvQuery (projectID : Z) (opts : taskSearchOptions)
| EvDebug (taskID bucketID projectID : Z).

Definition M (A : Type) : Type := list event * outcome A.

Definition ret {A} (a : A) : M A := ([], Return a).

Definition bind {A B} (m : M A) (k : A → M B) : M B :=
  match m with
  | (tr, Return a) => let '(tr', r) := k a in (tr ++ tr', r)
  | (tr, Fail err) => (tr, Fail err)
  | (tr, Panic msg) => (tr, Panic msg)
  end.

Notation "'let*' p ':=' m 'in' k" := (bind m (λ p, k))
  (at level 10, p pattern, m at level 100, k at level 200, only parsing).

Definition emit (ev : event) : M unit := ([ev], Return tt).

Definition liftCollaborator {A} (r : string + A) : M A :=
  match r with
  | inl err => ([], Fail (ErrCollaborator err))
  | inr a => ret a
  end.

(** Go leaves the order of [range] over a map unspecified: [seed] selects,
    one element at a time, which of the remaining entries comes next. *)
Fixpoint rangeOrder {A} (n : nat) (seed : list nat) (l : list A) : list A :=
  match n with
  | O => []
  | S n' =>
      let k := (hd O seed `mod` length l)%nat in
      match l !! k with
      | Some x => x :: rangeOrder n' (tl seed) (delete k l)
      | None => []
      end
  end.

Definition mapRange {V} (seed : list nat) (m : gmap Z V) : list (Z * V) :=
  rangeOrder (length (map_to_list m)) seed (map_to_list m).

(** [bucketMap[bb.ID] = bb] for the buckets from index [i] on. *)
Fixpoint bucketMapFrom (i : nat) (buckets : list Bucket) (m : gmap Z (option nat))
    : gmap Z (option nat) :=
  match buckets with
  | [] => m
  | bb :: rest => bucketMapFrom (S i) rest (<[bucket_ID bb := Some i]> m)
  end.

(** [taskMap[t.ID] = t] for the tasks from index [i] on. *)
Fixpoint taskMapFrom (i : nat) (tasks : list Task) (m : gmap Z nat) : gmap Z nat :=
  match tasks with
  | [] => m
  | t :: rest => taskMapFrom (S i) rest (<[task_ID t := i]> m)
  end.

(** The text of the per-bucket filter, lines 196 to 200. *)
Definition bucketFilterString (originalFilter : string) (id : Z) : string :=
  if decide (originalFilter = "")
  then "bucket_id = " +:+ strconv_FormatInt id
  else "(" +:+ originalFilter +:+ ") && bucket_id = " +:+ strconv_FormatInt id.

(** The loop of lines 177 to 189: the first filter on the bucket field
    replaces the map by a one-entry map. *)
Fixpoint narrowBucketMap (parsedFilters : list taskFilter) (bucketMap : gmap Z (option nat))
    : M (gmap Z (option nat)) :=
  match parsedFilters with
  | [] => ret bucketMap
  | filter :: rest =>
      if decide (tf_field filter = taskPropertyBucketID)
      then
        match tf_value filter with
        | VInt64 bucketID =>
            let bucket := default None (bucketMap !! bucketID) in
            ret (<[bucketID := bucket]> ∅)
        | VOther _ => ([], Panic "interface conversion: interface {} is not int64")
        end
      else narrowBucketMap rest bucketMap
  end.

(** Lines 156 to 158: [bb.CreatedBy = users[bb.CreatedByID]]. *)
Definition withCreators (users : gmap Z User) (buckets : list Bucket) : list Bucket :=
  (λ bb, set_bucket_CreatedBy (users !! bucket_CreatedByID bb) (bucket_CreatedByID bb) bb)
  <$> buckets.

Section ReadAll.
Context (env : Collaborators) (s : Store) (auth : Auth).

(** Lines 119 to 175: authorization, the buckets of the project in
    position order with their creators, the id-keyed map, the options. *)
Definition prepareRead (b : Bucket) (search : string) (page perPage : Z)
    : M (list Bucket * gmap Z (option nat) * taskSearchOptions) :=
  match GetProjectSimpleByID s (bucket_ProjectID b) with
  | inl err => ([], Fail err)
  | inr project =>
      let* can := liftCollaborator (CanRead env s project auth) in
      if negb can then ([], Fail ErrGenericForbidden)
      else
        let buckets := findBucketsOrdered s (bucket_ProjectID b) in
        let bucketMap := bucketMapFrom 0 buckets ∅ in
        let userIDs := bucket_CreatedByID <$> buckets in
        let* users := liftCollaborator (getUsersOrLinkSharesFromIDs env s userIDs) in
        let buckets := withCreators users buckets in
        let* opts := liftCollaborator
                       (getTaskFilterOptsFromCollection env (bucket_TaskCollection b)) in
        let opts :=
          set_opts_paging [mkSortParam taskPropertyKanbanPosition orderAscending]
            page perPage search opts in
        ret (buckets, bucketMap, opts)
  end.

(** The body of the loop of lines 192 to 215, up to the query. *)
Definition scopeOpts (originalFilter : string) (id : Z) (opts : taskSearchOptions)
    : M taskSearchOptions :=
  if negb (strings_Contains originalFilter "bucket_id")
  then
    let filterString := bucketFilterString originalFilter id in
    let* _ := emit (EvParse filterString (opts_filterTimezone opts)) in
    let* parsed := liftCollaborator
                     (getTaskFiltersFromFilterString env filterString
                        (opts_filterTimezone opts)) in
    ret (set_opts_parsedFilters parsed opts)
  else ret opts.

Definition queryBucket (bucket : option nat) (opts : taskSearchOptions)
    (buckets : list Bucket) : M (list Bucket * list Task) :=
  match bucket ≫= (λ ptr, (λ bb, (ptr, bb)) <$> buckets !! ptr) with
  | None => ([], Panic "invalid memory address or nil pointer dereference")
  | Some (ptr, bb) =>
      let* _ := emit (EvQuery (bucket_ProjectID bb) opts) in
      let* (ts, _, total) :=
        liftCollaborator
          (getRawTasksForProjects env s [mkProject (bucket_ProjectID bb) "" 0 0] auth opts) in
      ret (<[ptr := set_bucket_Count total bb]> buckets, ts)
  end.

Fixpoint queryBuckets (originalFilter : string) (entries : list (Z * option nat))
    (opts : taskSearchOptions) (buckets : list Bucket) (tasks : list Task)
    : M (taskSearchOptions * list Bucket * list Task) :=
  match entries with
  | [] => ret (opts, buckets, tasks)
  | (id, bucket) :: rest =>
      let* opts := scopeOpts originalFilter id opts in
      let* (buckets, ts) := queryBucket bucket opts buckets in
      queryBuckets originalFilter rest opts buckets (tasks ++ ts)
  end.

(** Lines 217 to 225: the tasks reachable through [taskMap] are the ones
    the enrichment may rewrite; a task fetched twice is reachable once. *)
Definition enrichTasks (tasks : list Task) : M (list Task) :=
  let taskMap := taskMapFrom 0 tasks ∅ in
  let objects : gmap Z Task := omap (λ ptr, tasks !! ptr) taskMap in
  let* objects := liftCollaborator (addMoreInfoToTasks env s objects auth) in
  ret (imap (λ ptr t,
               if decide (taskMap !! task_ID t = Some ptr)
               then default t (objects !! task_ID t) else t) tasks).

(** Lines 230 to 237. *)
Fixpoint distributeTasks (projectID : Z) (bucketMap : gmap Z (option nat))
    (tasks : list Task) (buckets : list Bucket) : M (list Bucket) :=
  match tasks with
  | [] => ret buckets
  | task :: rest =>
      match bucketMap !! task_BucketID task with
      | None =>
          let* _ := emit (EvDebug (task_ID task) (task_BucketID task) projectID) in
          distributeTasks projectID bucketMap rest buckets
      | Some bucket =>
          match bucket ≫= (λ ptr, (λ bb, (ptr, bb)) <$> buckets !! ptr) with
          | None => ([], Panic "invalid memory address or nil pointer dereference")
          | Some (ptr, bb) =>
              distributeTasks projectID bucketMap rest
                (<[ptr := set_bucket_Tasks (bucket_Tasks bb ++ [task]) bb]> buckets)
          end
      end
  end.

(** [Bucket.ReadAll]. *)
Definition Bucket_ReadAll (seed : list nat) (b : Bucket) (search : string)
    (page perPage : Z) : M (list Bucket * Z * Z) :=
  let* (buckets, bucketMap, opts) := prepareRead b search page perPage in
  let* bucketMap := narrowBucketMap (opts_parsedFilters opts) bucketMap in
  let originalFilter := opts_filter opts in
  let* (_, buckets, tasks) :=
    queryBuckets originalFilter (mapRange seed bucketMap) opts buckets [] in
  let* tasks := enrichTasks tasks in
  let* buckets := distributeTasks (bucket_ProjectID b) bucketMap tasks buckets in
  ret (buckets, Z.of_nat (length buckets), Z.of_nat (length buckets)).

End ReadAll.

(** ** The list view: the position of a dropped task *)

Module ListView.

Record ITask := mkITask {
  id : Z;
  position : Q
}.

(** Modelled from the spec: [calculateItemPosition] is imported from a helper
    module that is not part of the sources.  It is the position allocator of
    the spec: a fixed baseline without neighbours, half of [after] (or a
    fixed decrement below it) at the head, a fixed increment above [before]
    at the tail, the arithmetic midpoint between two neighbours. *)
Definition calculateItemPosition (baseline increment decrement : Q)
    (positionBefore positionAfter : option Q) : Q :=
  match positionBefore, positionAfter with
  | None, None => baseline
  | None, Some after => if Qlt_le_dec 0 after then after / 2 else after - decrement
  | Some before, None => before + increment
  | Some before, Some after => (before + after) / 2
  end.

(** The check the spec leaves to the caller of the allocator. *)
Definition strictlyBetween (before p after : Q) : bool :=
  negb (Qle_bool p before) && negb (Qle_bool after p).

(** [tasks.value[i] ?? null]: an index outside the array reads [undefined]. *)
Definition at_index (tasks : list ITask) (i : Z) : option ITask :=
  if decide (i < 0) then None else tasks !! Z.to_nat i.

Section Allocator.
Context (baseline increment decrement : Q).

(** The position [saveTaskPosition] computes for the task dropped at
    [newIndex], lines 230 to 237. *)
Definition droppedPosition (tasks : list ITask) (newIndex : Z) : Q :=
  let taskBefore := at_index tasks (newIndex - 1) in
  let taskAfter := at_index tasks (newIndex + 1) in
  calculateItemPosition baseline increment decrement
    (position <$> taskBefore) (position <$> taskAfter).

(** [saveTaskPosition]: [update] is the round trip through the task store,
    whose answer replaces the dropped task.  The drag event designates an
    element of the list; without one there is nothing to save. *)
Definition saveTaskPosition (update : ITask → ITask) (tasks : list ITask)
    (newIndex : Z) : option (list ITask) :=
  match at_index tasks newIndex with
  | None => None
  | Some task =>
      let newTask := mkITask (id task) (droppedPosition tasks newIndex) in
      let updatedTask := update newTask in
      Some (<[Z.to_nat newIndex := updatedTask]> tasks)
  end.

(** [firstNewPosition], lines 177 to 183. *)
Definition firstNewPosition (tasks : list ITask) : Q :=
  match tasks with
  | [] => 0
  | first :: _ =>
      calculateItemPosition baseline increment decrement None (Some (position first))
  end.

End Allocator.

End ListView.

(** ** A small installation used by the examples

    The external filter parser and task query are replaced by stand-ins: a
    parser for conjunctions and disjunctions of [field comparator value], and
    a query that returns the tasks of the project matching every bucket
    predicate. *)

Module Fixture.

Fixpoint words (cur s : string) : list string :=
  match s with
  | EmptyString => [cur]
  | String c rest =>
      if decide (c = " "%char) then cur :: words "" rest
      else words (cur +:+ String c "") rest
  end.

Fixpoint stripParens (w : string) : string :=
  match w with
  | EmptyString => ""
  | String c rest =>
      if decide (c = "("%char ∨ c = ")"%char) then stripParens rest
      else String c (stripParens rest)
  end.

Fixpoint digits (acc : Z) (w : string) : option Z :=
  match w with
  | EmptyString => Some acc
  | String c rest =>
      let d := Z.of_N (Ascii.N_of_ascii c) - 48 in
      if decide (0 <= d <= 9) then digits (10 * acc + d) rest else None
  end.

Definition parseValue (w : string) : filterValue :=
  match w with
  | EmptyString => VOther ""
  | _ => match digits 0 w with Some n => VInt64 n | None => VOther w end
  end.

Fixpoint parseWords (ws : list string) : list taskFilter :=
  match ws with
  | f :: c :: v :: rest =>
      mkTaskFilter (stripParens f) c (parseValue (stripParens v)) ::
      match rest with
      | _ :: rest' => parseWords rest'
      | [] => []
      end
  | _ => []
  end.

Definition parse (filterString filterTimezone : string) : string + list taskFilter :=
  if decide (filterString = "") then inr [] else inr (parseWords (words "" filterString)).

Definition matchesBucket (t : Task) (f : taskFilter) : bool :=
  if decide (tf_field f = taskPropertyBucketID)
  then match tf_value f with
       | VInt64 n =>
           if decide (tf_comparator f = "!=")
           then bool_decide (task_BucketID t ≠ n)
           else bool_decide (task_BucketID t = n)
       | VOther _ => false
       end
  else true.

Definition query (s : Store) (projects : list Project) (a : Auth)
    (opts : taskSearchOptions) : string + (list Task * Z * Z) :=
  let ts := filter (λ t, task_ProjectID t ∈ project_ID <$> projects
                         ∧ forallb (matchesBucket t) (opts_parsedFilters opts) = true)
              (store_tasks s) in
  inr (ts, Z.of_nat (length ts), Z.of_nat (length ts)).

Definition env : Collaborators := {|
  CanRead := λ _ _ _, inr true;
  GetUserOrLinkShareUser := λ _ a, inr (mkUser (auth_ID a) "");
  getUsersOrLinkSharesFromIDs := λ _ _, inr ∅;
  getTaskFilterOptsFromCollection := λ tc,
    match parse (tc_Filter tc) (tc_FilterTimezone tc) with
    | inl err => inl err
    | inr parsed =>
        inr (mkOpts "" 0 0 [] parsed (tc_FilterIncludeNulls tc) (tc_Filter tc)
               (tc_FilterTimezone tc))
    end;
  getTaskFiltersFromFilterString := parse;
  getRawTasksForProjects := query;
  addMoreInfoToTasks := λ _ objects _, inr objects;
  calculateDefaultPosition := λ id p, if Qeq_bool p 0 then (inject_Z id * 65536)%Q else p
|}.

Definition row (id projectID : Z) (title : string) (p : Q) : Bucket :=
  mkBucket id title projectID [] 0 0 p 0 0 None 7 emptyTaskCollection.

(** One project, two buckets, no default and no done bucket configured;
    two tasks in the first bucket and one in the second. *)
Definition board : Store := {|
  store_buckets := [row 1 1 "Backlog" 1; row 2 1 "Doing" 2];
  store_tasks := [mkTask 10 "a" 1 1; mkTask 11 "b" 1 1; mkTask 12 "c" 1 2];
  store_projects := [mkProject 1 "P" 0 0];
  store_bucketSeq := 2;
  store_now := 100
|}.

Definition actor : Auth := mkAuth 7.

(** The bean of a request on project 1, bucket [id], with filter text [f]. *)
Definition request (id : Z) (f : string) : Bucket :=
  mkBucket id "" 1 [] 0 0 0 0 0 None 0 (mkTaskCollection f "" false).

End Fixture.

(** ** Traces and invariants of the read pipeline *)

(** The calls and log lines of a trace. *)
Definition parseCalls (tr : list event) : list string :=
  omap (λ ev, match ev with EvParse filterString _ => Some filterString | _ => None end) tr.

Definition queryCalls (tr : list event) : list taskSearchOptions :=
  omap (λ ev, match ev with EvQuery _ opts => Some opts | _ => None end) tr.

Definition debugLine (projectID : Z) (t : Task) : event :=
  EvDebug (task_ID t) (task_BucketID t) projectID.

(** The first parsed filter on the bucket field, if any. *)
Definition firstBucketFilter (parsedFilters : list taskFilter) : option taskFilter :=
  snd <$> list_find (λ f, tf_field f = taskPropertyBucketID) parsedFilters.

(** Two option records that differ at most in their parsed filters. *)
Definition sameButFilters (o1 o2 : taskSearchOptions) : Prop :=
  set_opts_parsedFilters [] o1 = set_opts_parsedFilters [] o2.

(** Two bucket values that differ at most in their count. *)
Definition sameButCount (b1 b2 : Bucket) : Prop :=
  set_bucket_Count 0 b1 = set_bucket_Count 0 b2.

(** What the query loop may emit when it runs over the bucket ids [ids] with
    the original filter text [F] and the options [opts]. *)
Definition queryEventOK (env : Collaborators) (F : string) (ids : list Z)
    (opts : taskSearchOptions) (ev : event) : Prop :=
  match ev with
  | EvParse filterString filterTimezone =>
      strings_Contains F "bucket_id" = false ∧
      filterTimezone = opts_filterTimezone opts ∧
      ∃ id, id ∈ ids ∧ filterString = bucketFilterString F id
  | EvQuery _ o =>
      sameButFilters o opts ∧
      if strings_Contains F "bucket_id" then o = opts
      else ∃ id, id ∈ ids ∧
                 getTaskFiltersFromFilterString env (bucketFilterString F id)
                   (opts_filterTimezone opts) = inr (opts_parsedFilters o)
  | EvDebug _ _ _ => False
  end.

(** The tasks the distribution loop appends to the bucket at heap index
    [ptr] and the tasks it skips, given the working bucket map. *)
Definition placedAt (bucketMap : gmap Z (option nat)) (ptr : nat) (tasks : list Task)
    : list Task :=
  filter (λ t, bucketMap !! task_BucketID t = Some (Some ptr)) tasks.

Definition skipped (bucketMap : gmap Z (option nat)) (tasks : list Task) : list Task :=
  filter (λ t, bucketMap !! task_BucketID t = None) tasks.

(** ** Readings of the specification that are examined below *)






(** The counts as the specification words them: the number of buckets left
    after narrowing. *)
Definition countsAfterNarrowing (env : Collaborators) (s : Store) (auth : Auth)
    (seed : list nat) (b : Bucket) (search : string) (page perPage : Z) : Prop :=
  ∀ buckets bucketMap opts wm tr result resultCount total,
    prepareRead env s auth b search page perPage = ([], Return (buckets, bucketMap, opts)) →
    narrowBucketMap (opts_parsedFilters opts) bucketMap = ([], Return wm) →
    Bucket_ReadAll env s auth seed b search page perPage
      = (tr, Return (result, resultCount, total)) →
    resultCount = Z.of_nat (size wm) ∧ total = Z.of_nat (size wm).

(** ** Invariants of the bucket table *)

(** The auto-increment counter has issued every key in the table. *)
Definition keysIssued (s : Store) : Prop :=
  ∀ r, r ∈ store_buckets s → bucket_ID r <= store_bucketSeq s.

(** How the options [o] of a task query relate to the bucket [id] it was
    issued for, given the filter text [F] and the options [opts] of the
    request. *)
Definition scopedFor (env : Collaborators) (F : string) (id : Z)
    (opts o : taskSearchOptions) : Prop :=
  if strings_Contains F "bucket_id" then o = opts
  else sameButFilters o opts ∧
       getTaskFiltersFromFilterString env (bucketFilterString F id)
         (opts_filterTimezone opts) = inr (opts_parsedFilters o).

(** ** The list view: the task list and its subtask filter

    [src/unnamed/part_000], lines 145 to 171 and 218 to 225. *)

Module TaskList.

(** The fields of [ITask] that the watcher reads: the id and
    [relatedTasks?.parenttask], the ids of the parent tasks; [None] when the
    task has no such relation ([undefined]). *)
Record ITask := mkITask {
  id : Z;
  parenttask : option (list Z)
}.

(** The callback of [tasks.value.filter], lines 156 to 169. *)
Definition keepTask (tasksById : gset Z) (t : ITask) : bool :=
  match parenttask t with
  | None => true
  | Some parents => existsb (λ pt, bool_decide (pt ∉ tasksById)) parents
  end.

(** The watcher on [allTasks], lines 146 to 171: the value it leaves in
    [tasks]. *)
Definition watchAllTasks (projectId : Z) (allTasks : list ITask) : list ITask :=
  let tasks := allTasks in
  if decide (projectId < 0) then tasks
  else
    let tasksById : gset Z := list_to_set (id <$> tasks) in
    filter (λ t, keepTask tasksById t) tasks.

(** [updateTasks], lines 218 to 225: the first task with the id of
    [updatedTask] is replaced, then the loop ends. *)
Fixpoint updateTasks (tasks : list ListView.ITask) (updatedTask : ListView.ITask)
    : list ListView.ITask :=
  match tasks with
  | [] => []
  | t :: rest =>
      if decide (ListView.id t = ListView.id updatedTask) then updatedTask :: rest
      else t :: updateTasks rest updatedTask
  end.

End TaskList.

(** ** The Trello migration

    [src/unnamed/part_001].  The conversion of the boards fetched from
    Trello into projects, buckets and tasks.  Downloads, the Markdown
    converter and the configured API key are parameters; an error is the
    [inl] of a sum, as the functions return [nil, err] at the first failing
    call.  Debug log lines are not represented.  The counters are plain
    integers: they are bounded by the number of boards and lists held in
    memory, far below the range of int64. *)

Module Trello.

(** *** The structures of the Trello client, with the fields that are read *)

Record CheckItem := mkCheckItem {
  checkItem_Name : string;
  checkItem_State : string
}.

Record Checklist := mkChecklist {
  checklist_Name : string;
  checklist_CheckItems : list CheckItem
}.

Record Label := mkLabel {
  label_ID : string;
  label_Name : string;
  label_Color : string
}.

Record Attachment := mkAttachment {
  attachment_ID : string;
  attachment_Name : string;
  attachment_URL : string;
  attachment_MimeType : string;
  attachment_IsUpload : bool
}.

Record ScaledCover := mkScaledCover {
  scaled_ID : string;
  scaled_URL : string
}.

(** [card_Due] is a pointer to a time; a time is counted from the zero
    value of [time.Time]. *)
Record Card := mkCard {
  card_ID : string;
  card_Name : string;
  card_Desc : string;
  card_Due : option Z;
  card_IDList : string;
  card_IDCheckLists : list string;
  card_Checklists : list Checklist;
  card_Labels : list Label;
  card_Attachments : list Attachment;
  card_IDAttachmentCover : string;
  card_ManualCoverAttachment : bool;
  card_Cover_Scaled : list ScaledCover
}.

Record List := mkList {
  list_ID : string;
  list_Name : string;
  list_Cards : list Card
}.

Record Board := mkBoard {
  board_ID : string;
  board_Name : string;
  board_Desc : string;
  board_Closed : bool;
  board_Prefs_BackgroundImage : string;
  board_Lists : list List
}.

(** *** The structures of Vikunja that the conversion fills

    Fields the conversion never writes keep their zero value and are left
    out.  A byte buffer is a string of bytes. *)

Record File := mkFile {
  file_Name : string;
  file_Mime : string;
  file_Size : Z;
  file_FileContent : string
}.

Record TaskAttachment := mkTaskAttachment {
  taskAttachment_ID : Z;
  taskAttachment_File : File
}.

Record ModelsLabel := mkModelsLabel {
  modelsLabel_Title : string;
  modelsLabel_HexColor : string
}.

Record Task := mkTask {
  task_Title : string;
  task_BucketID : Z;
  task_Description : string;
  task_DueDate : Z;
  task_Labels : list ModelsLabel;
  task_Attachments : list TaskAttachment;
  task_CoverImageAttachmentID : Z
}.

Record Project := mkProject {
  project_ID : Z;
  project_ParentProjectID : Z;
  project_Title : string;
  project_Description : string;
  project_IsArchived : bool
}.

Record ProjectWithTasksAndBuckets := mkProjectWithTasksAndBuckets {
  pwtb_Project : Project;
  pwtb_BackgroundInformation : option string;
  pwtb_Tasks : list Task;
  pwtb_Buckets : list Bucket
}.

(** *** What the conversion calls outside this file *)

Record Services := mkServices {
  (** [config.MigrationTrelloKey.GetString()] *)
  MigrationTrelloKey : string;
  (** [migration.DownloadFile(url)] *)
  DownloadFile : string → string + string;
  (** [migration.DownloadFileWithHeaders(url, headers)] *)
  DownloadFileWithHeaders : string → list (string * list string) → string + string;
  (** [goldmark.Convert] *)
  goldmark_Convert : string → string + string
}.

(** *** The colour table, lines 38 to 75 *)

Definition trelloColorMap : gmap string string :=
  list_to_map [
    ("green", "4bce97");
    ("yellow", "f5cd47");
    ("orange", "fea362");
    ("red", "f87168");
    ("purple", "9f8fef");
    ("blue", "579dff");
    ("sky", "6cc3e0");
    ("lime", "94c748");
    ("pink", "e774bb");
    ("black", "8590a2");
    ("green_dark", "1f845a");
    ("yellow_dark", "946f00");
    ("orange_dark", "c25100");
    ("red_dark", "c9372c");
    ("purple_dark", "6e5dc6");
    ("blue_dark", "0c66e4");
    ("sky_dark", "227d9b");
    ("lime_dark", "5b7f24");
    ("pink_dark", "ae4787");
    ("black_dark", "626f86");
    ("green_light", "baf3db");
    ("yellow_light", "f8e6a0");
    ("orange_light", "fedec8");
    ("red_light", "ffd5d2");
    ("purple_light", "dfd8fd");
    ("blue_light", "cce0ff");
    ("sky_light", "c6edfb");
    ("lime_light", "d3f1a7");
    ("ping_light", "fdd0ec");
    ("black_light", "dcdfe4");
    ("transparent", "")
  ].

(** [convertMarkdownToHTML], lines 187 to 195. *)
Definition convertMarkdownToHTML (srv : Services) (input : string) : string + string :=
  match goldmark_Convert srv input with
  | inl err => inl err
  | inr buf => inr buf
  end.

(** The double quote and the line feed of the string literals. *)
Definition dq : string := String "034"%char EmptyString.
Definition lf : string := String "010"%char EmptyString.

(** The literals of lines 271, 276 and 278. *)
Definition taskListOpen : string :=
  "<ul data-type=" +:+ dq +:+ "taskList" +:+ dq +:+ ">".

Definition checkedItemOpen : string :=
  "<li data-checked=" +:+ dq +:+ "true" +:+ dq +:+ " data-type=" +:+ dq +:+ "taskItem" +:+ dq
  +:+ "><label><input type=" +:+ dq +:+ "checkbox" +:+ dq +:+ " checked=" +:+ dq +:+ "checked"
  +:+ dq +:+ "><span></span></label><div><p>".

Definition uncheckedItemOpen : string :=
  "<li data-checked=" +:+ dq +:+ "false" +:+ dq +:+ " data-type=" +:+ dq +:+ "taskItem" +:+ dq
  +:+ "><label><input type=" +:+ dq +:+ "checkbox" +:+ dq
  +:+ "><span></span></label><div><p>".

Definition itemClose : string := "</p></div></li>".

(** Lines 273 to 280: one check item appended to the description. *)
Definition appendCheckItem (description : string) (item : CheckItem) : string :=
  let description := description +:+ lf in
  if decide (checkItem_State item = "complete")
  then description +:+ checkedItemOpen +:+ checkItem_Name item +:+ itemClose
  else description +:+ uncheckedItemOpen +:+ checkItem_Name item +:+ itemClose.

(** Lines 270 to 282: one checklist appended to the description. *)
Definition appendChecklist (description : string) (checklist : Checklist) : string :=
  let description :=
    description +:+ lf +:+ lf +:+ "<h2> " +:+ checklist_Name checklist +:+ "</h2>"
    +:+ lf +:+ lf +:+ taskListOpen in
  let description := fold_left appendCheckItem (checklist_CheckItems checklist) description in
  description +:+ "</ul>".

(** Lines 288 to 301: the label of a card as a label of Vikunja. *)
Definition convertLabel (label : Label) : ModelsLabel :=
  let color :=
    match trelloColorMap !! label_Color label with
    | Some color => color
    | None => default "" (trelloColorMap !! "transparent")
    end in
  mkModelsLabel (label_Name label) color.

(** The header value of line 316. *)
Definition oauthHeader (srv : Services) (token : string) : string :=
  "OAuth oauth_consumer_key=" +:+ dq +:+ MigrationTrelloKey srv +:+ dq
  +:+ ", oauth_token=" +:+ dq +:+ token +:+ dq.

Section Conversion.
Context (srv : Services) (token : string).

(** Lines 307 to 339: the attachment loop over what is left of
    [card.Attachments], with the attachments and the cover id of the task
    so far. *)
Fixpoint convertAttachments (card : Card) (attachments : list Attachment)
    (taskAttachments : list TaskAttachment) (coverImageAttachmentID : Z)
    : string + (list TaskAttachment * Z) :=
  match attachments with
  | [] => inr (taskAttachments, coverImageAttachmentID)
  | attachment :: rest =>
      if negb (attachment_IsUpload attachment)
      then convertAttachments card rest taskAttachments coverImageAttachmentID
      else
        match DownloadFileWithHeaders srv (attachment_URL attachment)
                [("Authorization", [oauthHeader srv token])] with
        | inl err => inl err
        | inr buf =>
            let file := mkFile (attachment_Name attachment) (attachment_MimeType attachment)
                          (Z.of_nat (String.length buf)) buf in
            if decide (card_IDAttachmentCover card ≠ "" ∧
                       card_IDAttachmentCover card = attachment_ID attachment)
            then convertAttachments card rest
                   (taskAttachments ++ [mkTaskAttachment 42 file]) 42
            else convertAttachments card rest
                   (taskAttachments ++ [mkTaskAttachment 0 file]) coverImageAttachmentID
        end
  end.

(** Lines 342 to 363: the manually set cover. *)
Definition convertManualCover (card : Card)
    (taskAttachments : list TaskAttachment) (coverImageAttachmentID : Z)
    : string + (list TaskAttachment * Z) :=
  match card_ManualCoverAttachment card, last (card_Cover_Scaled card) with
  | true, Some cover =>
      match DownloadFile srv (scaled_URL cover) with
      | inl err => inl err
      | inr buf =>
          let coverAttachment :=
            mkTaskAttachment 43
              (mkFile (scaled_ID cover +:+ ".jpg") "image/jpg"
                 (Z.of_nat (String.length buf)) buf) in
          inr (taskAttachments ++ [coverAttachment], taskAttachment_ID coverAttachment)
      end
  | _, _ => inr (taskAttachments, coverImageAttachmentID)
  end.

(** Lines 252 to 365: one card as a task of the bucket [bucketID]. *)
Definition convertCard (bucketID : Z) (card : Card) : string + Task :=
  match convertMarkdownToHTML srv (card_Desc card) with
  | inl err => inl err
  | inr description =>
      let dueDate := default 0 (card_Due card) in
      let description := fold_left appendChecklist (card_Checklists card) description in
      let labels := convertLabel <$> card_Labels card in
      match convertAttachments card (card_Attachments card) [] 0 with
      | inl err => inl err
      | inr (taskAttachments, cover) =>
          match convertManualCover card taskAttachments cover with
          | inl err => inl err
          | inr (taskAttachments, cover) =>
              inr (mkTask (card_Name card) bucketID description dueDate labels
                     taskAttachments cover)
          end
      end
  end.

(** Lines 250 to 366: the cards of one list, appended to the tasks of the
    project. *)
Fixpoint convertCards (bucketID : Z) (cards : list Card) (tasks : list Task)
    : string + list Task :=
  match cards with
  | [] => inr tasks
  | card :: rest =>
      match convertCard bucketID card with
      | inl err => inl err
      | inr task => convertCards bucketID rest (tasks ++ [task])
      end
  end.

(** Lines 242 to 370: the lists of one board; the bucket counter runs on
    across the boards. *)
Fixpoint convertLists (lists : list List) (project : ProjectWithTasksAndBuckets)
    (bucketID : Z) : string + (ProjectWithTasksAndBuckets * Z) :=
  match lists with
  | [] => inr (project, bucketID)
  | l :: rest =>
      let bucket :=
        mkBucket bucketID (list_Name l) 0 [] 0 0 0 0 0 None 0 emptyTaskCollection in
      match convertCards bucketID (list_Cards l) (pwtb_Tasks project) with
      | inl err => inl err
      | inr tasks =>
          convertLists rest
            (mkProjectWithTasksAndBuckets (pwtb_Project project)
               (pwtb_BackgroundInformation project) tasks
               (pwtb_Buckets project ++ [bucket]))
            (bucketID + 1)
      end
  end.

Definition pseudoParentID : Z := 1.

(** Lines 218 to 374: one board. *)
Definition convertBoard (index : nat) (board : Board) (bucketID : Z)
    : string + (ProjectWithTasksAndBuckets * Z) :=
  let project :=
    mkProject (Z.of_nat (index + 1) + pseudoParentID) pseudoParentID
      (board_Name board) (board_Desc board) (board_Closed board) in
  let background :=
    if decide (board_Prefs_BackgroundImage board ≠ "")
    then match DownloadFile srv (board_Prefs_BackgroundImage board) with
         | inl err => inl err
         | inr buf => inr (Some buf)
         end
    else inr None in
  match background with
  | inl err => inl err
  | inr backgroundInformation =>
      convertLists (board_Lists board)
        (mkProjectWithTasksAndBuckets project backgroundInformation [] []) bucketID
  end.

(** Lines 217 to 375: the loop over the boards from [index] on. *)
Fixpoint convertBoards (index : nat) (boards : list Board)
    (fullVikunjaHierachie : list ProjectWithTasksAndBuckets) (bucketID : Z)
    : string + list ProjectWithTasksAndBuckets :=
  match boards with
  | [] => inr fullVikunjaHierachie
  | board :: rest =>
      match convertBoard index board bucketID with
      | inl err => inl err
      | inr (project, bucketID) =>
          convertBoards (S index) rest (fullVikunjaHierachie ++ [project]) bucketID
      end
  end.

(** [convertTrelloDataToVikunja], lines 199 to 378. *)
Definition convertTrelloDataToVikunja (trelloData : list Board)
    : string + list ProjectWithTasksAndBuckets :=
  let fullVikunjaHierachie :=
    [mkProjectWithTasksAndBuckets
       (mkProject pseudoParentID 0 "Imported from Trello" "" false) None [] []] in
  convertBoards 0 trelloData fullVikunjaHierachie 1.

(** A call outside this file that returned without an error. *)
Definition succeeds {A} (r : string + A) : Prop := ∃ a, r = inr a.

(** The calls the conversion of a card makes: the Markdown conversion of
    its description, the download of every uploaded attachment, and the
    download of the last scaled cover when the cover was set by hand. *)
Definition cardCallsSucceed (card : Card) : Prop :=
  succeeds (goldmark_Convert srv (card_Desc card)) ∧
  (∀ attachment, attachment ∈ card_Attachments card →
     attachment_IsUpload attachment = true →
     succeeds (DownloadFileWithHeaders srv (attachment_URL attachment)
                 [("Authorization", [oauthHeader srv token])])) ∧
  (card_ManualCoverAttachment card = true →
   ∀ cover, last (card_Cover_Scaled card) = Some cover →
            succeeds (DownloadFile srv (scaled_URL cover))).

(** The calls the conversion of a board makes. *)
Definition boardCallsSucceed (board : Board) : Prop :=
  (board_Prefs_BackgroundImage board ≠ "" →
   succeeds (DownloadFile srv (board_Prefs_BackgroundImage board))) ∧
  ∀ l card, l ∈ board_Lists board → card ∈ list_Cards l → cardCallsSucceed card.

End Conversion.

(** *** Fetching the boards, lines 110 to 185

    The client is built from the configured key and the token; its calls
    are parameters.  [board.Lists] holds pointers: [listMap] maps the id of
    a list to its index in [board.Lists], and appending a card to the list
    found in the map updates the list at that index.  On an error the
    caller reads the error only, so a failing call gives [inl]. *)

Record Client := mkClient {
  GetMyBoards : string + list Board;
  GetLists : Board → string + list List;
  GetCards : Board → string + list Card;
  GetAttachments : Card → string + list Attachment;
  GetChecklist : string → string + Checklist;
  (** [client.Get("checklists/" + id + "/checkItems", ...)] *)
  GetCheckItems : string → string + list CheckItem
}.

Definition set_card_Attachments (v : list Attachment) (card : Card) : Card :=
  mkCard (card_ID card) (card_Name card) (card_Desc card) (card_Due card)
    (card_IDList card) (card_IDCheckLists card) (card_Checklists card) (card_Labels card)
    v (card_IDAttachmentCover card) (card_ManualCoverAttachment card)
    (card_Cover_Scaled card).

Definition set_card_Checklists (v : list Checklist) (card : Card) : Card :=
  mkCard (card_ID card) (card_Name card) (card_Desc card) (card_Due card)
    (card_IDList card) (card_IDCheckLists card) v (card_Labels card)
    (card_Attachments card) (card_IDAttachmentCover card) (card_ManualCoverAttachment card)
    (card_Cover_Scaled card).

Definition set_list_Cards (v : list Card) (l : List) : List :=
  mkList (list_ID l) (list_Name l) v.

Definition set_board_Lists (v : list List) (board : Board) : Board :=
  mkBoard (board_ID board) (board_Name board) (board_Desc board) (board_Closed board)
    (board_Prefs_BackgroundImage board) v.

(** Lines 136 to 138: [listMap[list.ID] = list] for the lists from index
    [i] on. *)
Fixpoint listMapFrom (i : nat) (lists : list List) (m : gmap string nat)
    : gmap string nat :=
  match lists with
  | [] => m
  | l :: rest => listMapFrom (S i) rest (<[list_ID l := i]> m)
  end.

Section Fetching.
Context (client : Client).

(** Lines 161 to 175: the checklists of a card, appended to those it
    has. *)
Fixpoint getChecklists (ids : list string) (checklists : list Checklist)
    : string + list Checklist :=
  match ids with
  | [] => inr checklists
  | checkListID :: rest =>
      match GetChecklist client checkListID with
      | inl err => inl err
      | inr checklist =>
          match GetCheckItems client checkListID with
          | inl err => inl err
          | inr checkItems =>
              getChecklists rest
                (checklists ++ [mkChecklist (checklist_Name checklist) checkItems])
          end
      end
  end.

(** Lines 155 to 176: the attachments and checklists of one card. *)
Definition completeCard (card : Card) : string + Card :=
  match GetAttachments client card with
  | inl err => inl err
  | inr attachments =>
      let card := set_card_Attachments attachments card in
      match getChecklists (card_IDCheckLists card) (card_Checklists card) with
      | inl err => inl err
      | inr checklists => inr (set_card_Checklists checklists card)
      end
  end.

(** Lines 149 to 179: the loop over the cards of a board. *)
Fixpoint distributeCards (cards : list Card) (listMap : gmap string nat)
    (lists : list List) : string + list List :=
  match cards with
  | [] => inr lists
  | card :: rest =>
      match listMap !! card_IDList card with
      | None => distributeCards rest listMap lists
      | Some ptr =>
          match completeCard card with
          | inl err => inl err
          | inr card =>
              distributeCards rest listMap
                (alter (λ l, set_list_Cards (list_Cards l ++ [card]) l) ptr lists)
          end
      end
  end.

(** Lines 126 to 181: one board. *)
Definition getBoard (board : Board) : string + Board :=
  match GetLists client board with
  | inl err => inl err
  | inr lists =>
      let board := set_board_Lists lists board in
      let listMap := listMapFrom 0 (board_Lists board) ∅ in
      match GetCards client board with
      | inl err => inl err
      | inr cards =>
          match distributeCards cards listMap (board_Lists board) with
          | inl err => inl err
          | inr lists => inr (set_board_Lists lists board)
          end
      end
  end.

(** Lines 125 to 182: the loop over the boards. *)
Fixpoint getBoards (boards : list Board) : string + list Board :=
  match boards with
  | [] => inr []
  | board :: rest =>
      match getBoard board with
      | inl err => inl err
      | inr board =>
          match getBoards rest with
          | inl err => inl err
          | inr rest => inr (board :: rest)
          end
      end
  end.

(** [getTrelloData], lines 110 to 185. *)
Definition getTrelloData : string + list Board :=
  match GetMyBoards client with
  | inl err => inl err
  | inr trelloData => getBoards trelloData
  end.

End Fetching.

(** A colour of Vikunja: six hexadecimal digits. *)
Definition isHexDigit (c : ascii) : bool :=
  let n := Ascii.nat_of_ascii c in
  ((48 <=? n) && (n <=? 57) || (97 <=? n) && (n <=? 102))%nat.

Fixpoint allHexDigits (s : string) : bool :=
  match s with
  | EmptyString => true
  | String c rest => isHexDigit c && allHexDigits rest
  end.

Definition isHexColor (s : string) : bool :=
  (String.length s =? 6)%nat && allHexDigits s.

End Trello.

(** A small Trello account for the examples: stand-ins for the downloads
    and the Markdown converter, and two boards. *)

Module TrelloFixture.

Definition services : Trello.Services := {|
  Trello.MigrationTrelloKey := "key";
  Trello.DownloadFile := λ url,
    if decide (url = "") then inl "no url" else inr ("image of " +:+ url);
  Trello.DownloadFileWithHeaders := λ url headers,
    match headers with
    | [] => inl "401"
    | _ => inr ("file at " +:+ url)
    end;
  Trello.goldmark_Convert := λ input, inr ("<p>" +:+ input +:+ "</p>")
|}.

(** A card with a checklist, a label of a colour the table knows and one it
    does not, an uploaded attachment that is the cover, and a link. *)
Definition cardPlan : Trello.Card := {|
  Trello.card_ID := "c1";
  Trello.card_Name := "Plan";
  Trello.card_Desc := "first";
  Trello.card_Due := Some 1700000000;
  Trello.card_IDList := "l1";
  Trello.card_IDCheckLists := ["k1"];
  Trello.card_Checklists :=
    [Trello.mkChecklist "Steps"
       [Trello.mkCheckItem "one" "complete"; Trello.mkCheckItem "two" "incomplete"]];
  Trello.card_Labels :=
    [Trello.mkLabel "b1" "urgent" "red"; Trello.mkLabel "b2" "soft" "pink_light"];
  Trello.card_Attachments :=
    [Trello.mkAttachment "a1" "sketch.png" "https://trello.example/a1" "image/png" true;
     Trello.mkAttachment "a2" "link" "https://elsewhere.example" "" false];
  Trello.card_IDAttachmentCover := "a1";
  Trello.card_ManualCoverAttachment := false;
  Trello.card_Cover_Scaled := []
|}.

(** A card whose cover was set by hand. *)
Definition cardShip : Trello.Card := {|
  Trello.card_ID := "c2";
  Trello.card_Name := "Ship";
  Trello.card_Desc := "";
  Trello.card_Due := None;
  Trello.card_IDList := "l2";
  Trello.card_IDCheckLists := [];
  Trello.card_Checklists := [];
  Trello.card_Labels := [];
  Trello.card_Attachments := [];
  Trello.card_IDAttachmentCover := "";
  Trello.card_ManualCoverAttachment := true;
  Trello.card_Cover_Scaled :=
    [Trello.mkScaledCover "s1" "https://trello.example/s1";
     Trello.mkScaledCover "s2" "https://trello.example/s2"]
|}.

Definition cardIdea : Trello.Card := {|
  Trello.card_ID := "c3";
  Trello.card_Name := "Idea";
  Trello.card_Desc := "later";
  Trello.card_Due := None;
  Trello.card_IDList := "l3";
  Trello.card_IDCheckLists := [];
  Trello.card_Checklists := [];
  Trello.card_Labels := [];
  Trello.card_Attachments := [];
  Trello.card_IDAttachmentCover := "";
  Trello.card_ManualCoverAttachment := false;
  Trello.card_Cover_Scaled := []
|}.

Definition boards : list Trello.Board :=
  [Trello.mkBoard "b1" "Work" "the work board" false "https://trello.example/bg"
     [Trello.mkList "l1" "To do" [cardPlan]; Trello.mkList "l2" "Done" [cardShip]];
   Trello.mkBoard "b2" "Home" "" true ""
     [Trello.mkList "l3" "Ideas" [cardIdea]]].

(** The client of the account: the cards come without attachments and
    checklists, and the first board has a card of a list that is not among
    its lists. *)
Definition bare (card : Trello.Card) : Trello.Card :=
  Trello.set_card_Checklists [] (Trello.set_card_Attachments [] card).

Definition cardArchived : Trello.Card := {|
  Trello.card_ID := "c4";
  Trello.card_Name := "Old";
  Trello.card_Desc := "";
  Trello.card_Due := None;
  Trello.card_IDList := "l0";
  Trello.card_IDCheckLists := [];
  Trello.card_Checklists := [];
  Trello.card_Labels := [];
  Trello.card_Attachments := [];
  Trello.card_IDAttachmentCover := "";
  Trello.card_ManualCoverAttachment := false;
  Trello.card_Cover_Scaled := []
|}.

Definition client : Trello.Client := {|
  Trello.GetMyBoards :=
    inr [Trello.mkBoard "b1" "Work" "the work board" false "https://trello.example/bg" [];
         Trello.mkBoard "b2" "Home" "" true "" []];
  Trello.GetLists := λ board,
    if decide (Trello.board_ID board = "b1")
    then inr [Trello.mkList "l1" "To do" []; Trello.mkList "l2" "Done" []]
    else inr [Trello.mkList "l3" "Ideas" []];
  Trello.GetCards := λ board,
    if decide (Trello.board_ID board = "b1")
    then inr [bare cardShip; cardArchived; bare cardPlan]
    else inr [bare cardIdea];
  Trello.GetAttachments := λ card,
    if decide (Trello.card_ID card = "c1")
    then inr (Trello.card_Attachments cardPlan)
    else inr [];
  Trello.GetChecklist := λ checkListID,
    if decide (checkListID = "k1") then inr (Trello.mkChecklist "Steps" [])
    else inl "not found";
  Trello.GetCheckItems := λ checkListID,
    inr [Trello.mkCheckItem "one" "complete"; Trello.mkCheckItem "two" "incomplete"]
|}.

End TrelloFixture.


(** ** Tactics *)

(** Evaluates the left-hand side of an equation whose right-hand side is
    still to be determined. *)
Ltac evaluated := vm_compute; reflexivity.

(** From the evaluated preparation [P], the evaluated narrowing [N]. *)
Tactic Notation "narrowed" constr(P) "as" ident(Hn) :=
  match type of P with
  | _ = (_, Return (_, ?bucketMap, ?opts)) =>
      eassert (Hn : narrowBucketMap (opts_parsedFilters opts) bucketMap = ([], Return _))
        by evaluated
  end.

(** * Properties *)

(** ** The bucket store *)

#[local] Instance positionLe_trans : Transitive positionLe.
Proof. intros x y z. unfold positionLe. apply Qle_trans. Qed.

#[local] Instance positionLe_total : Total positionLe.
Proof. intros x y. unfold positionLe, Qle. lia. Qed.

Lemma orderedRows_elem s projectID r :
  r ∈ orderedRows s projectID ↔ r ∈ store_buckets s ∧ bucket_ProjectID r = projectID.
Proof.
  unfold orderedRows, whereProjectID.
  rewrite merge_sort_Permutation, list_elem_of_filter. tauto.
Qed.

Lemma orderedRows_nil s projectID :
  orderedRows s projectID = [] → whereProjectID s projectID = [].
Proof.
  unfold orderedRows. intros Hnil. apply Permutation_nil_r.
  rewrite <- (merge_sort_Permutation positionLe). by rewrite Hnil.
Qed.

Lemma findBucketsOrdered_length s projectID :
  Z.of_nat (length (findBucketsOrdered s projectID)) = countBuckets s projectID.
Proof.
  unfold findBucketsOrdered, orderedRows, countBuckets.
  by rewrite length_fmap, merge_sort_Permutation.
Qed.

Lemma orderedRows_head s projectID r rest :
  orderedRows s projectID = r :: rest →
  ∀ other, other ∈ store_buckets s → bucket_ProjectID other = projectID →
           positionLe r other.
Proof.
  intros Hsorted other Hin Hpid.
  assert (Hmem : other ∈ orderedRows s projectID) by (by apply orderedRows_elem).
  pose proof (StronglySorted_merge_sort positionLe (whereProjectID s projectID)) as Hss.
  fold (orderedRows s projectID) in Hss.
  rewrite Hsorted in Hss, Hmem.
  apply StronglySorted_cons in Hss as [Hall _].
  apply elem_of_cons in Hmem as [-> | Hmem].
  - unfold positionLe. apply Qle_refl.
  - rewrite Forall_forall in Hall. by apply Hall.
Qed.

(** C5. [getDefaultBucketID] returns the configured default bucket of the
    project when that reference is not zero; otherwise, if the project has a
    bucket, it returns the id of a bucket of the project whose position is
    the lowest among the project's buckets. *)
Theorem getDefaultBucketID_resolves (s : Store) (project : Project) :
  project_DefaultBucketID project ≠ 0 ∨ whereProjectID s (project_ID project) ≠ [] →
  ∃ bucketID,
    getDefaultBucketID s project = inr bucketID ∧
    (project_DefaultBucketID project ≠ 0 → bucketID = project_DefaultBucketID project) ∧
    (project_DefaultBucketID project = 0 →
     ∃ bucket, bucket ∈ store_buckets s ∧
               bucket_ProjectID bucket = project_ID project ∧
               bucket_ID bucket = bucketID ∧
               ∀ other, other ∈ store_buckets s →
                        bucket_ProjectID other = project_ID project →
                        (bucket_Position bucket <= bucket_Position other)%Q).
Proof.
  intros Hdom. unfold getDefaultBucketID, findBucketsOrdered.
  destruct (decide (project_DefaultBucketID project ≠ 0)) as [Hset | Hunset].
  - eexists. split; [done |]. split; [done | intros Hz; congruence].
  - destruct Hdom as [Hset | Hne]; [done |].
    destruct (orderedRows s (project_ID project)) as [| r rest] eqn:Hsorted.
    + by apply orderedRows_nil in Hsorted.
    + cbn [fmap list_fmap]. exists (bucket_ID r).
      split; [done |]. split; [done |].
      intros _. exists r.
      assert (Hmem : r ∈ orderedRows s (project_ID project))
        by (rewrite Hsorted; apply elem_of_cons; by left).
      apply orderedRows_elem in Hmem as [Hin Hpid].
      repeat split; try done.
      intros other Hother Hopid.
      exact (orderedRows_head _ _ _ _ Hsorted other Hother Hopid).
Qed.

(** Without a configured default and without any bucket the code drops the
    [exists] flag and answers the zero id, with no error. *)
Lemma getDefaultBucketID_empty (s : Store) (project : Project) :
  project_DefaultBucketID project = 0 →
  whereProjectID s (project_ID project) = [] →
  getDefaultBucketID s project = inr 0.
Proof.
  intros Hz Hnil. unfold getDefaultBucketID, findBucketsOrdered, orderedRows.
  rewrite Hnil. by destruct (decide _).
Qed.

Lemma getDefaultBucketID_resolves_witness :
  ∃ bucketID,
    getDefaultBucketID Fixture.board (mkProject 1 "P" 0 0) = inr bucketID ∧
    (0 ≠ 0 → bucketID = 0) ∧
    (0 = 0 →
     ∃ bucket, bucket ∈ store_buckets Fixture.board ∧
               bucket_ProjectID bucket = 1 ∧
               bucket_ID bucket = bucketID ∧
               ∀ other, other ∈ store_buckets Fixture.board →
                        bucket_ProjectID other = 1 →
                        (bucket_Position bucket <= bucket_Position other)%Q).
Proof.
  apply (getDefaultBucketID_resolves Fixture.board (mkProject 1 "P" 0 0)).
  right. vm_compute. discriminate.
Defined.

Lemma GetProjectSimpleByID_error s projectID err :
  GetProjectSimpleByID s projectID = inl err → err = ErrProjectDoesNotExist projectID.
Proof.
  unfold GetProjectSimpleByID.
  destruct (list_find _ _) as [[? ?] |]; congruence.
Qed.

Lemma getDefaultBucketID_total s p : ∃ bucketID, getDefaultBucketID s p = inr bucketID.
Proof.
  unfold getDefaultBucketID.
  destruct (decide _); [eauto |].
  destruct (findBucketsOrdered _ _); eauto.
Qed.

(** What a delete that passes the last-bucket guard does, step by step. *)
Lemma Delete_steps (s : Store) (b : Bucket) (a : Auth) (p : Project) :
  1 < countBuckets s (bucket_ProjectID b) →
  GetProjectSimpleByID s (bucket_ProjectID b) = inr p →
  let p' := (clearBucketReferences (bucket_ID b) p).1 in
  let s1 := if (clearBucketReferences (bucket_ID b) p).2
            then (Project_Update s p' a).1 else s in
  ∃ fallback,
    getDefaultBucketID s1 p' = inr fallback ∧
    Bucket_Delete s b a =
      (deleteBucketRows (updateTasksBucket s1 (bucket_ID b) fallback) (bucket_ID b), None).
Proof.
  intros Hcount Hproject p' s1.
  destruct (getDefaultBucketID_total s1 p') as [fallback Hfallback].
  exists fallback. split; [done |].
  unfold Bucket_Delete. rewrite Hproject.
  destruct (decide (countBuckets _ _ <= 1)); [lia |].
  subst p' s1. revert Hfallback.
  destruct (clearBucketReferences (bucket_ID b) p) as [p' [|]]; cbn [fst snd Project_Update];
    intros ->; reflexivity.
Qed.

(** Unless the resolved fallback is the deleted bucket itself, no task
    refers to the deleted bucket afterwards. *)
Lemma Delete_reassigns (s s' : Store) (b : Bucket) (a : Auth) :
  Bucket_Delete s b a = (s', None) →
  ∃ fallback,
    store_tasks s' = moveTask (bucket_ID b) fallback <$> store_tasks s ∧
    store_buckets s' = filter (λ r, bucket_ID r ≠ bucket_ID b) (store_buckets s) ∧
    (fallback ≠ bucket_ID b → ∀ t, t ∈ store_tasks s' → task_BucketID t ≠ bucket_ID b).
Proof.
  intros Hdel.
  destruct (decide (countBuckets s (bucket_ProjectID b) <= 1)) as [Hle | Hgt].
  { unfold Bucket_Delete in Hdel. destruct (decide _); [congruence | lia]. }
  destruct (GetProjectSimpleByID s (bucket_ProjectID b)) as [err | p] eqn:Hproject.
  { unfold Bucket_Delete in Hdel. rewrite Hproject in Hdel.
    destruct (decide _); congruence. }
  destruct (Delete_steps s b a p ltac:(lia) Hproject) as (fallback & _ & Heq).
  rewrite Heq in Hdel. injection Hdel as <-.
  exists fallback.
  destruct (clearBucketReferences (bucket_ID b) p) as [p' [|]]; cbn;
    (split; [done |]; split; [done |]);
    intros Hne t Ht; apply list_elem_of_fmap in Ht as (t0 & -> & _);
    unfold moveTask; destruct (decide _); cbn; congruence.
Qed.

Lemma GetProjectSimpleByID_id s projectID p :
  GetProjectSimpleByID s projectID = inr p → project_ID p = projectID.
Proof.
  unfold GetProjectSimpleByID.
  destruct (list_find _ _) as [[i q] |] eqn:Hfind; [| discriminate].
  intros [= <-]. by apply list_find_Some in Hfind as (_ & ? & _).
Qed.

Lemma clearBucketReferences_fields bucketID p :
  project_ID (clearBucketReferences bucketID p).1 = project_ID p ∧
  project_DefaultBucketID (clearBucketReferences bucketID p).1
  = (if decide (bucketID = project_DefaultBucketID p) then 0
     else project_DefaultBucketID p) ∧
  project_DoneBucketID (clearBucketReferences bucketID p).1
  = (if decide (bucketID = project_DoneBucketID p) then 0 else project_DoneBucketID p).
Proof.
  unfold clearBucketReferences.
  destruct (decide (bucketID = project_DefaultBucketID p));
    cbn [project_DoneBucketID set_project_DefaultBucketID];
    destruct (decide (bucketID = project_DoneBucketID p)); done.
Qed.

Lemma moveTask_same from t : moveTask from from t = t.
Proof. unfold moveTask. destruct (decide _) as [<- |]; [by destruct t | done]. Qed.

(** When no other default is configured and the bucket to delete comes first
    in position order, the fallback is the bucket itself: the delete
    succeeds and leaves every task where it was. *)
Lemma Delete_lowest_bucket (s : Store) (b : Bucket) (a : Auth) (p : Project)
    (r : Bucket) (rest : list Bucket) :
  1 < countBuckets s (bucket_ProjectID b) →
  GetProjectSimpleByID s (bucket_ProjectID b) = inr p →
  project_DefaultBucketID p = 0 ∨ project_DefaultBucketID p = bucket_ID b →
  orderedRows s (bucket_ProjectID b) = r :: rest →
  bucket_ID r = bucket_ID b →
  ∃ s', Bucket_Delete s b a = (s', None) ∧ store_tasks s' = store_tasks s.
Proof.
  intros Hcount Hproject Hdefault Hrows Hfirst.
  destruct (Delete_steps s b a p Hcount Hproject) as (fallback & Hfallback & ->).
  eexists. split; [done |].
  destruct (clearBucketReferences_fields (bucket_ID b) p) as (Hid & Hdef & _).
  assert (Hcleared : project_DefaultBucketID (clearBucketReferences (bucket_ID b) p).1 = 0).
  { rewrite Hdef. destruct (decide _); [done |]. destruct Hdefault; congruence. }
  assert (Hsame : fallback = bucket_ID b).
  { unfold getDefaultBucketID, findBucketsOrdered in Hfallback.
    rewrite Hcleared, Hid, (GetProjectSimpleByID_id _ _ _ Hproject) in Hfallback.
    destruct (decide (0 ≠ 0)); [done |].
    assert (Hrows' : orderedRows
                       (if (clearBucketReferences (bucket_ID b) p).2
                        then (Project_Update s (clearBucketReferences (bucket_ID b) p).1 a).1
                        else s) (bucket_ProjectID b) = r :: rest).
    { rewrite <- Hrows. by destruct (clearBucketReferences (bucket_ID b) p).2. }
    rewrite Hrows' in Hfallback. cbn in Hfallback. congruence. }
  subst fallback.
  cbn [deleteBucketRows updateTasksBucket set_store_buckets set_store_tasks store_tasks].
  replace (store_tasks (if (clearBucketReferences (bucket_ID b) p).2
                        then (Project_Update s (clearBucketReferences (bucket_ID b) p).1 a).1
                        else s)) with (store_tasks s)
    by (by destruct (clearBucketReferences (bucket_ID b) p).2).
  transitivity (id <$> store_tasks s); [| apply list_fmap_id].
  apply list_fmap_ext. intros i t _. apply moveTask_same.
Qed.

(** C2. [Delete] fails with the last-bucket error exactly when the project
    named by the request holds at most one bucket; in that case the store is
    returned as it was. *)
Theorem Delete_last_bucket (s : Store) (b : Bucket) (a : Auth) :
  ((∃ bucketID projectID,
      (Bucket_Delete s b a).2 = Some (ErrCannotRemoveLastBucket bucketID projectID))
   ↔ countBuckets s (bucket_ProjectID b) <= 1) ∧
  (countBuckets s (bucket_ProjectID b) <= 1 →
   Bucket_Delete s b a =
     (s, Some (ErrCannotRemoveLastBucket (bucket_ID b) (bucket_ProjectID b)))).
Proof.
  assert (Hguard : countBuckets s (bucket_ProjectID b) <= 1 →
                   Bucket_Delete s b a =
                     (s, Some (ErrCannotRemoveLastBucket (bucket_ID b) (bucket_ProjectID b)))).
  { intros Hle. unfold Bucket_Delete. by destruct (decide _). }
  split; [| exact Hguard]. split.
  - intros (bucketID & projectID & Herr).
    destruct (decide (countBuckets s (bucket_ProjectID b) <= 1)) as [| Hgt]; [done |].
    exfalso.
    destruct (GetProjectSimpleByID s (bucket_ProjectID b)) as [err | p] eqn:Hproject.
    + unfold Bucket_Delete in Herr. rewrite Hproject in Herr.
      destruct (decide _); [done |]. cbn in Herr.
      apply GetProjectSimpleByID_error in Hproject. congruence.
    + destruct (Delete_steps s b a p ltac:(lia) Hproject) as (fallback & _ & Heq).
      rewrite Heq in Herr. discriminate.
  - intros Hle. rewrite (Hguard Hle). eauto.
Qed.

Lemma Delete_last_bucket_witness :
  Bucket_Delete (deleteBucketRows Fixture.board 2) (Fixture.request 1 "") Fixture.actor =
    (deleteBucketRows Fixture.board 2, Some (ErrCannotRemoveLastBucket 1 1)).
Proof.
  apply (proj2 (Delete_last_bucket (deleteBucketRows Fixture.board 2)
                  (Fixture.request 1 "") Fixture.actor)).
  vm_compute. discriminate.
Defined.

(** C3. On the example board no default bucket is configured and bucket 1
    has the lowest position.  Deleting bucket 1 succeeds, the fallback lookup
    answers bucket 1 itself, and both of its tasks still refer to the
    deleted bucket. *)
Theorem Delete_lowest_bucket_keeps_references :
  getDefaultBucketID Fixture.board (mkProject 1 "P" 0 0) = inr 1 ∧
  ∃ s', Bucket_Delete Fixture.board (Fixture.request 1 "") Fixture.actor = (s', None) ∧
        bucket_ID <$> store_buckets s' = [2] ∧
        store_tasks s' = [mkTask 10 "a" 1 1; mkTask 11 "b" 1 1; mkTask 12 "c" 1 2].
Proof. split; [reflexivity |]. eexists. split; [vm_compute; reflexivity |]. done. Qed.

(** C8. [Update] leaves the task and project tables alone and keeps every
    bucket row in place; in each row the id, the project id, the creator and
    the creation timestamp are what they were, and a row with another id is
    not touched at all.  (Of the row addressed, the title, the limit and the
    position are written, and the session stamps its [updated] column.) *)
Theorem Update_frame (s : Store) (b : Bucket) (a : Auth) (i : nat) (r : Bucket) :
  store_buckets s !! i = Some r →
  (Bucket_Update s b a).2 = None ∧
  store_tasks (Bucket_Update s b a).1 = store_tasks s ∧
  store_projects (Bucket_Update s b a).1 = store_projects s ∧
  length (store_buckets (Bucket_Update s b a).1) = length (store_buckets s) ∧
  ∃ r', store_buckets (Bucket_Update s b a).1 !! i = Some r' ∧
        bucket_ID r' = bucket_ID r ∧
        bucket_ProjectID r' = bucket_ProjectID r ∧
        bucket_CreatedByID r' = bucket_CreatedByID r ∧
        bucket_CreatedBy r' = bucket_CreatedBy r ∧
        bucket_Created r' = bucket_Created r ∧
        (bucket_ID r ≠ bucket_ID b → r' = r) ∧
        (bucket_ID r = bucket_ID b →
         r' = mkBucket (bucket_ID r) (bucket_Title b) (bucket_ProjectID r) (bucket_Tasks r)
                (bucket_Limit b) (bucket_Count r) (bucket_Position b) (bucket_Created r)
                (store_now s) (bucket_CreatedBy r) (bucket_CreatedByID r)
                (bucket_TaskCollection r)).
Proof.
  intros Hrow. cbn [Bucket_Update fst snd set_store_buckets store_tasks store_projects
                    store_buckets].
  rewrite length_fmap, list_lookup_fmap, Hrow. cbn [fmap option_fmap option_map].
  repeat split; try done.
  exists (updateBucketCols (store_now s) b r).
  unfold updateBucketCols. destruct (decide _); cbn; repeat split; done.
Qed.

Lemma Update_frame_witness :
  ∃ r', store_buckets
          (Bucket_Update Fixture.board (Fixture.row 2 9 "Review" 5) Fixture.actor).1 !! 1%nat
        = Some r' ∧ bucket_ProjectID r' = 1 ∧ bucket_Title r' = "Review".
Proof.
  destruct (Update_frame Fixture.board (Fixture.row 2 9 "Review" 5) Fixture.actor 1
              (Fixture.row 2 1 "Doing" 2) eq_refl)
    as (_ & _ & _ & _ & r' & Hr' & _ & Hpid & _ & _ & _ & _ & Heq).
  exists r'. split; [exact Hr' |]. split; [exact Hpid |].
  rewrite (Heq eq_refl). reflexivity.
Defined.


Lemma Create_persists (env : Collaborators) (s : Store) (b : Bucket) (a : Auth) :
  (Bucket_Create env s b a).2 = None →
  length (store_buckets (Bucket_Create env s b a).1.1) = S (length (store_buckets s)).
Proof.
  unfold Bucket_Create.
  destruct (GetUserOrLinkShareUser env s a); [cbn; congruence |].
  intros _. cbn. rewrite length_fmap, length_app. cbn. lia.
Qed.




(** ** The position allocator *)

Lemma midpoint_between (before after : Q) :
  (before < after)%Q →
  (before < (before + after) / 2)%Q ∧ ((before + after) / 2 < after)%Q.
Proof.
  intros H. change ((before + after) / 2)%Q with ((before + after) * (1 # 2))%Q.
  split; lra.
Qed.

Lemma strictlyBetween_spec (before p after : Q) :
  ListView.strictlyBetween before p after = true ↔ (before < p)%Q ∧ (p < after)%Q.
Proof.
  unfold ListView.strictlyBetween.
  rewrite andb_true_iff, !negb_true_iff.
  rewrite <- !not_true_iff_false, !Qle_bool_iff.
  split; intros [H1 H2]; split; lra.
Qed.



(** Neighbours that are not in ascending order are reported: the midpoint
    fails the strictly-between check. *)
Lemma degenerate_neighbours_detected (baseline increment decrement before after : Q) :
  ¬ (before < after)%Q →
  ListView.strictlyBetween before
    (ListView.calculateItemPosition baseline increment decrement (Some before) (Some after))
    after = false.
Proof.
  intros Hge. apply not_true_iff_false. rewrite strictlyBetween_spec.
  cbn [ListView.calculateItemPosition].
  change ((before + after) / 2)%Q with ((before + after) * (1 # 2))%Q.
  intros [H1 H2]. lra.
Qed.

(** The handler of the list view hands the allocator the positions of the
    tasks next to the drop index: between two neighbours in ascending order
    the dropped task gets their midpoint. *)
Lemma droppedPosition_between (baseline increment decrement : Q)
    (tasks : list ListView.ITask) (newIndex : Z) (taskBefore taskAfter : ListView.ITask) :
  ListView.at_index tasks (newIndex - 1) = Some taskBefore →
  ListView.at_index tasks (newIndex + 1) = Some taskAfter →
  (ListView.position taskBefore < ListView.position taskAfter)%Q →
  let p := ListView.droppedPosition baseline increment decrement tasks newIndex in
  p = ((ListView.position taskBefore + ListView.position taskAfter) / 2)%Q ∧
  (ListView.position taskBefore < p)%Q ∧ (p < ListView.position taskAfter)%Q.
Proof.
  intros Hb Ha Hlt. unfold ListView.droppedPosition. rewrite Hb, Ha.
  cbn [fmap option_fmap option_map ListView.calculateItemPosition].
  destruct (midpoint_between _ _ Hlt). done.
Qed.

(** Moving a task between the positions 1 and 2 gives it the position 3/2. *)
Example droppedPosition_scenario :
  (ListView.droppedPosition 0 65536 65536
     [ListView.mkITask 1 1; ListView.mkITask 3 7; ListView.mkITask 2 2] 1 == 3 # 2)%Q.
Proof. reflexivity. Qed.

(** ** The read pipeline: auxiliary facts *)

Lemma bind_Return {A B} (m : M A) (k : A → M B) tr b :
  bind m k = (tr, Return b) →
  ∃ tr1 a tr2, m = (tr1, Return a) ∧ k a = (tr2, Return b) ∧ tr = tr1 ++ tr2.
Proof.
  destruct m as [tr1 [a | err | msg]]; cbn; try discriminate.
  destruct (k a) as [tr2 r] eqn:Hk. intros [= <- ->]. eauto 6.
Qed.

Lemma liftCollaborator_Return {A} (r : string + A) tr a :
  liftCollaborator r = (tr, Return a) → r = inr a ∧ tr = [].
Proof. destruct r; cbn; [discriminate |]. by intros [= <- <-]. Qed.

Lemma liftCollaborator_events {A} (r : string + A) : (liftCollaborator r).1 = [].
Proof. by destruct r. Qed.

Lemma rangeOrder_Permutation {A} (n : nat) (seed : list nat) (l : list A) :
  length l = n → rangeOrder n seed l ≡ₚ l.
Proof.
  revert seed l. induction n as [| n IH]; intros seed l Hlen.
  - by destruct l.
  - cbn [rangeOrder].
    assert (Hk : (hd 0 seed `mod` length l < length l)%nat)
      by (apply Nat.mod_upper_bound; lia).
    destruct (lookup_lt_is_Some_2 l _ Hk) as [x Hx]. rewrite Hx.
    etrans; [| symmetry; exact (delete_Permutation l _ x Hx)].
    constructor. apply IH. rewrite length_delete by eauto. lia.
Qed.

Lemma mapRange_Permutation {V} (seed : list nat) (m : gmap Z V) :
  mapRange seed m ≡ₚ map_to_list m.
Proof. by apply rangeOrder_Permutation. Qed.

Lemma mapRange_elem {V} (seed : list nat) (m : gmap Z V) id v :
  (id, v) ∈ mapRange seed m ↔ m !! id = Some v.
Proof. by rewrite mapRange_Permutation, elem_of_map_to_list. Qed.

Lemma mapRange_singleton {V} (seed : list nat) id (v : V) :
  mapRange seed ({[id := v]} : gmap Z V) = [(id, v)].
Proof.
  unfold mapRange. rewrite map_to_list_singleton.
  cbn [length rangeOrder]. by rewrite Nat.mod_1_r.
Qed.

Lemma bucketMapFrom_lookup_Some i buckets m id ptr :
  bucketMapFrom i buckets m !! id = Some ptr →
  m !! id = Some ptr ∨
  ∃ j bb, ptr = Some (i + j)%nat ∧ buckets !! j = Some bb ∧ bucket_ID bb = id.
Proof.
  revert i m. induction buckets as [| bb rest IH]; intros i m; cbn [bucketMapFrom].
  - by left.
  - intros Hlook. destruct (IH _ _ Hlook) as [Hm | (j & bb' & -> & Hj & Hid)].
    + destruct (decide (bucket_ID bb = id)) as [<- | Hne].
      * rewrite lookup_insert_eq in Hm. injection Hm as <-.
        right. exists 0%nat, bb. by rewrite Nat.add_0_r.
      * rewrite lookup_insert_ne in Hm by done. by left.
    + right. exists (S j), bb'. split; [f_equal; lia | done].
Qed.

Lemma bucketMapFrom_lookup_None i buckets m id :
  bucketMapFrom i buckets m !! id = None ↔ m !! id = None ∧ id ∉ bucket_ID <$> buckets.
Proof.
  revert i m. induction buckets as [| bb rest IH]; intros i m; cbn [bucketMapFrom].
  - cbn. split; [intros ?; split; [done | apply not_elem_of_nil] | tauto].
  - rewrite IH, fmap_cons, not_elem_of_cons.
    destruct (decide (bucket_ID bb = id)) as [<- | Hne].
    + rewrite lookup_insert_eq. split; [intros [? _]; done | intros (_ & ? & _); done].
    + rewrite lookup_insert_ne by done. split; intros; destruct_and?; repeat split; congruence.
Qed.

(** What [prepareRead] hands on when it returns. *)
Lemma prepareRead_Return env s auth b search page perPage tr buckets bucketMap opts :
  prepareRead env s auth b search page perPage = (tr, Return (buckets, bucketMap, opts)) →
  tr = [] ∧
  bucketMap = bucketMapFrom 0 (findBucketsOrdered s (bucket_ProjectID b)) ∅ ∧
  (∃ users, buckets = withCreators users (findBucketsOrdered s (bucket_ProjectID b))) ∧
  (∃ opts0,
     getTaskFilterOptsFromCollection env (bucket_TaskCollection b) = inr opts0 ∧
     opts = set_opts_paging [mkSortParam taskPropertyKanbanPosition orderAscending]
              page perPage search opts0).
Proof.
  unfold prepareRead.
  destruct (GetProjectSimpleByID s (bucket_ProjectID b)) as [err | project]; [discriminate |].
  intros Hprep.
  apply bind_Return in Hprep as (tr1 & can & tr2 & Hcan & Hprep & ->).
  apply liftCollaborator_Return in Hcan as [_ ->].
  destruct can; cbn [negb] in Hprep; [| discriminate].
  apply bind_Return in Hprep as (tr3 & users & tr4 & Husers & Hprep & ->).
  apply liftCollaborator_Return in Husers as [_ ->].
  apply bind_Return in Hprep as (tr5 & opts0 & tr6 & Hopts & Hprep & ->).
  apply liftCollaborator_Return in Hopts as [Hopts ->].
  injection Hprep as <- <- <- <-.
  repeat split; eauto.
Qed.

Lemma prepareRead_events env s auth b search page perPage :
  (prepareRead env s auth b search page perPage).1 = [].
Proof.
  unfold prepareRead.
  destruct (GetProjectSimpleByID s (bucket_ProjectID b)); [done |].
  destruct (CanRead env s p auth) as [| [|]]; cbn; try done.
  destruct (getUsersOrLinkSharesFromIDs env s _); cbn; try done.
  destruct (getTaskFilterOptsFromCollection env _); cbn; done.
Qed.

Lemma prepareRead_pointers env s auth b search page perPage tr buckets bucketMap opts :
  prepareRead env s auth b search page perPage = (tr, Return (buckets, bucketMap, opts)) →
  bucket_ID <$> buckets = bucket_ID <$> findBucketsOrdered s (bucket_ProjectID b) ∧
  Forall (λ bb, bucket_Tasks bb = []) buckets ∧
  (∀ id, bucketMap !! id = None ↔ id ∉ bucket_ID <$> buckets) ∧
  (∀ id ptr, bucketMap !! id = Some ptr →
             ∃ i bb, ptr = Some i ∧ buckets !! i = Some bb ∧ bucket_ID bb = id).
Proof.
  intros Hprep.
  apply prepareRead_Return in Hprep as (_ & -> & [users ->] & _).
  assert (Hids : bucket_ID <$> withCreators users (findBucketsOrdered s (bucket_ProjectID b))
                 = bucket_ID <$> findBucketsOrdered s (bucket_ProjectID b)).
  { unfold withCreators. rewrite <- list_fmap_compose. by apply list_fmap_ext. }
  split; [exact Hids |]. split; [| split].
  - unfold withCreators, findBucketsOrdered. rewrite <- list_fmap_compose.
    apply Forall_fmap, Forall_true. done.
  - intros id. rewrite Hids, bucketMapFrom_lookup_None, lookup_empty. tauto.
  - intros id ptr Hlook.
    apply bucketMapFrom_lookup_Some in Hlook as [Hempty | (j & bb & -> & Hj & Hid)].
    { by rewrite lookup_empty in Hempty. }
    eexists j, _. split; [done |].
    unfold withCreators. rewrite list_lookup_fmap, Hj. done.
Qed.

Lemma narrowBucketMap_events parsedFilters bucketMap :
  (narrowBucketMap parsedFilters bucketMap).1 = [].
Proof.
  induction parsedFilters as [| f rest IH]; cbn; [done |].
  destruct (decide _); [| done]. by destruct (tf_value f).
Qed.

(** The narrowing loop stops at the first filter on the bucket field. *)
Lemma narrowBucketMap_first parsedFilters bucketMap :
  narrowBucketMap parsedFilters bucketMap =
    match firstBucketFilter parsedFilters with
    | None => ret bucketMap
    | Some f =>
        match tf_value f with
        | VInt64 bucketID => ret {[bucketID := default None (bucketMap !! bucketID)]}
        | VOther _ => ([], Panic "interface conversion: interface {} is not int64")
        end
    end.
Proof.
  unfold firstBucketFilter.
  induction parsedFilters as [| f rest IH]; cbn [narrowBucketMap list_find]; [done |].
  destruct (decide (tf_field f = taskPropertyBucketID)); [done |].
  rewrite IH. by destruct (list_find _ rest) as [[? ?] |].
Qed.

Lemma narrowBucketMap_pointers parsedFilters bucketMap tr wm (buckets : list Bucket) :
  narrowBucketMap parsedFilters bucketMap = (tr, Return wm) →
  (∀ id ptr, bucketMap !! id = Some ptr →
             ∃ i bb, ptr = Some i ∧ buckets !! i = Some bb ∧ bucket_ID bb = id) →
  ∀ id i, wm !! id = Some (Some i) →
          ∃ bb, buckets !! i = Some bb ∧ bucket_ID bb = id.
Proof.
  rewrite narrowBucketMap_first. intros Hnarrow Hptr id i Hlook.
  destruct (firstBucketFilter parsedFilters) as [f |].
  - destruct (tf_value f) as [v |]; [| discriminate].
    injection Hnarrow as <- <-.
    apply lookup_singleton_Some in Hlook as [<- Hdef].
    destruct (bucketMap !! v) as [ptr |] eqn:Hv; [| discriminate].
    cbn in Hdef. subst ptr.
    destruct (Hptr _ _ Hv) as (j & bb & [= <-] & ? & ?). eauto.
  - injection Hnarrow as <- <-.
    destruct (Hptr _ _ Hlook) as (j & bb & [= <-] & ? & ?). eauto.
Qed.

Lemma bind_ret_l {A B} (a : A) (k : A → M B) : bind (ret a) k = k a.
Proof. unfold bind, ret. by destruct (k a). Qed.

Lemma bind_emit {B} (ev : event) (k : unit → M B) :
  bind (emit ev) k = (ev :: (k tt).1, (k tt).2).
Proof. unfold bind, emit. by destruct (k tt). Qed.

Lemma bind_lift_inl {A B} (err : string) (k : A → M B) :
  bind (liftCollaborator (inl err)) k = ([], Fail (ErrCollaborator err)).
Proof. done. Qed.

Lemma bind_lift_inr {A B} (a : A) (k : A → M B) : bind (liftCollaborator (inr a)) k = k a.
Proof. apply bind_ret_l. Qed.


Lemma queryCalls_app tr1 tr2 : queryCalls (tr1 ++ tr2) = queryCalls tr1 ++ queryCalls tr2.
Proof. apply omap_app. Qed.

Lemma queryCalls_query p o tr : queryCalls (EvQuery p o :: tr) = o :: queryCalls tr.
Proof. done. Qed.

Lemma queryCalls_parse fs tz tr : queryCalls (EvParse fs tz :: tr) = queryCalls tr.
Proof. done. Qed.

Lemma parseCalls_query p o tr : parseCalls (EvQuery p o :: tr) = parseCalls tr.
Proof. done. Qed.

Lemma parseCalls_parse fs tz tr : parseCalls (EvParse fs tz :: tr) = fs :: parseCalls tr.
Proof. done. Qed.

#[local] Instance sameButFilters_equiv : Equivalence sameButFilters.
Proof.
  unfold sameButFilters. split.
  - by intros ?.
  - by intros ? ?.
  - intros ? ? ?. congruence.
Qed.

Lemma sameButFilters_set parsed opts : sameButFilters (set_opts_parsedFilters parsed opts) opts.
Proof. done. Qed.

Lemma sameButFilters_fields o1 o2 :
  sameButFilters o1 o2 →
  opts_search o1 = opts_search o2 ∧ opts_page o1 = opts_page o2 ∧
  opts_perPage o1 = opts_perPage o2 ∧ opts_sortby o1 = opts_sortby o2 ∧
  opts_filter o1 = opts_filter o2 ∧ opts_filterTimezone o1 = opts_filterTimezone o2.
Proof. unfold sameButFilters, set_opts_parsedFilters. intros [=]. done. Qed.

#[local] Instance sameButCount_equiv : Equivalence sameButCount.
Proof.
  unfold sameButCount. split.
  - by intros ?.
  - by intros ? ?.
  - intros ? ? ?. congruence.
Qed.

Lemma sameButCount_fields b1 b2 :
  sameButCount b1 b2 →
  bucket_ID b1 = bucket_ID b2 ∧ bucket_Tasks b1 = bucket_Tasks b2 ∧
  bucket_ProjectID b1 = bucket_ProjectID b2.
Proof. unfold sameButCount, set_bucket_Count. intros [=]. done. Qed.

Lemma sameButCount_insert (heap : list Bucket) ptr bb total :
  heap !! ptr = Some bb →
  Forall2 sameButCount heap (<[ptr := set_bucket_Count total bb]> heap).
Proof.
  intros Hptr. apply Forall2_same_length_lookup_2.
  - by rewrite length_insert.
  - intros i x y Hx Hy.
    destruct (decide (i = ptr)) as [-> | Hne].
    + rewrite list_lookup_insert_eq in Hy by (by eapply lookup_lt_Some).
      injection Hy as <-. rewrite Hptr in Hx. injection Hx as <-. done.
    + rewrite list_lookup_insert_ne in Hy by done. by simplify_eq.
Qed.

Lemma queryEventOK_mono env F id ids opts1 opts ev :
  sameButFilters opts1 opts →
  (strings_Contains F "bucket_id" = true → opts1 = opts) →
  queryEventOK env F ids opts1 ev → queryEventOK env F (id :: ids) opts ev.
Proof.
  intros Hsame Hkeep. pose proof (sameButFilters_fields _ _ Hsame) as (_ & _ & _ & _ & _ & Htz).
  destruct ev as [fs tz | pid o |]; cbn; [| | done].
  - intros (HC & -> & id' & Hin & ->). repeat split; [done.. |].
    exists id'. split; [by apply elem_of_cons; right | done].
  - intros [Ho Hcase]. split; [by etrans |].
    destruct (strings_Contains F "bucket_id").
    + rewrite Hcase. by apply Hkeep.
    + destruct Hcase as (id' & Hin & Hparse). exists id'.
      split; [by apply elem_of_cons; right | by rewrite <- Htz].
Qed.

Section QueryLoop.
Context (env : Collaborators) (s : Store) (auth : Auth).

(** The query loop, summarised: its events, and what a normal return
    implies for the heap, the pointers and the calls made. *)
Lemma queryBuckets_spec F entries opts heap tasks tr out :
  queryBuckets env s auth F entries opts heap tasks = (tr, out) →
  Forall (queryEventOK env F entries.*1 opts) tr ∧
  (length (queryCalls tr) ≤ length entries)%nat ∧
  (strings_Contains F "bucket_id" = true → parseCalls tr = []) ∧
  ∀ opts' heap' tasks', out = Return (opts', heap', tasks') →
    Forall2 sameButCount heap heap' ∧
    Forall (λ e, ∃ i, e.2 = Some i ∧ (i < length heap)%nat) entries ∧
    length (queryCalls tr) = length entries ∧
    (strings_Contains F "bucket_id" = false →
     parseCalls tr = bucketFilterString F <$> entries.*1).
Proof.
  revert opts heap tasks tr out.
  induction entries as [| [id bucket] rest IH]; intros opts heap tasks tr out.
  { cbn. intros [= <- <-].
    split; [done |]. split; [cbn; lia |]. split; [done |].
    intros ? ? ? [= <- <- <-]. repeat split; done. }
  cbn [queryBuckets]. unfold scopeOpts.
  assert (Hstep : ∀ opts1 tr1 out1,
             sameButFilters opts1 opts →
             (strings_Contains F "bucket_id" = true → opts1 = opts) →
             (strings_Contains F "bucket_id" = false →
              getTaskFiltersFromFilterString env (bucketFilterString F id)
                (opts_filterTimezone opts) = inr (opts_parsedFilters opts1)) →
             bind (queryBucket env s auth bucket opts1 heap)
               (λ '(buckets, ts), queryBuckets env s auth F rest opts1 buckets (tasks ++ ts))
             = (tr1, out1) →
             Forall (queryEventOK env F (id :: rest.*1) opts) tr1 ∧
             (length (queryCalls tr1) ≤ S (length rest))%nat ∧
             parseCalls tr1 = match out1 with
                              | Return _ =>
                                  if strings_Contains F "bucket_id" then parseCalls tr1
                                  else bucketFilterString F <$> rest.*1
                              | _ => parseCalls tr1
                              end ∧
             (strings_Contains F "bucket_id" = true → parseCalls tr1 = []) ∧
             ∀ opts' heap' tasks', out1 = Return (opts', heap', tasks') →
               Forall2 sameButCount heap heap' ∧
               Forall (λ e, ∃ i, e.2 = Some i ∧ (i < length heap)%nat)
                 ((id, bucket) :: rest) ∧
               length (queryCalls tr1) = S (length rest)).
  { intros opts1 tr1 out1 Hsame Hkeep Hparsed. unfold queryBucket.
    destruct (bucket ≫= _) as [[ptr bb] |] eqn:Hptr; cbn [bind].
    2:{ intros [= <- <-]. repeat split; try done; cbn; lia. }
    destruct bucket as [ptr' |]; [| done]. cbn in Hptr.
    destruct (heap !! ptr') as [bb' |] eqn:Hheap; [| done].
    cbn in Hptr. injection Hptr as -> ->.
    assert (Hquery : queryEventOK env F (id :: rest.*1) opts
                       (EvQuery (bucket_ProjectID bb) opts1)).
    { cbn. split; [done |]. destruct (strings_Contains F "bucket_id") eqn:HC.
      - by apply Hkeep.
      - exists id. split; [by apply elem_of_cons; left | by apply Hparsed]. }
    destruct (getRawTasksForProjects env s _ auth opts1) as [err | [[ts n] total]];
      cbn [bind emit liftCollaborator ret app].
    { intros [= <- <-].
      repeat split; try done; cbn; try lia. by constructor. }
    destruct (queryBuckets env s auth F rest opts1 _ (tasks ++ ts)) as [tr2 out2] eqn:Hrec.
    intros [= <- <-]. rewrite queryCalls_query, parseCalls_query.
    destruct (IH _ _ _ _ _ Hrec) as (Hev & Hlen & Hnone & Hret).
    split; [| split; [| split; [| split]]].
    - constructor; [done |].
      eapply Forall_impl; [exact Hev |]. intros ev. by apply queryEventOK_mono.
    - cbn [length]. lia.
    - destruct out2 as [[[o h] t] | |]; [| done | done].
      destruct (strings_Contains F "bucket_id") eqn:HC; [done |].
      destruct (Hret _ _ _ eq_refl) as (_ & _ & _ & Hp). by apply Hp.
    - done.
    - intros opts' heap' tasks' ->.
      destruct (Hret _ _ _ eq_refl) as (Hheap' & Hptrs & Hcount & _).
      rewrite length_insert in Hptrs.
      split; [| split].
      + etrans; [| exact Hheap']. by apply sameButCount_insert.
      + constructor; [| done]. exists ptr. split; [done |]. by eapply lookup_lt_Some.
      + cbn [length]. by rewrite Hcount. }
  destruct (strings_Contains F "bucket_id") eqn:HC; cbn [negb].
  - rewrite bind_ret_l. intros Hrun.
    destruct (Hstep opts tr out ltac:(done) ltac:(done) ltac:(done) Hrun)
      as (Hev & Hlen & _ & Hnone & Hret).
    split; [done |]. split; [done |]. split; [done |].
    intros opts' heap' tasks' Hout.
    destruct (Hret _ _ _ Hout) as (? & ? & ?). repeat split; done.
  - destruct (getTaskFiltersFromFilterString env (bucketFilterString F id)
                (opts_filterTimezone opts)) as [err | parsed] eqn:Hparse;
      cbn [bind emit liftCollaborator ret app].
    + intros [= <- <-].
      split; [| split; [cbn; lia | split; done]].
      constructor; [| done]. cbn. rewrite HC. split; [done |]. split; [done |].
      exists id. split; [by apply elem_of_cons; left | done].
    + destruct (bind _ _) as [tr1 out1] eqn:Hrun. intros [= <- <-].
      rewrite queryCalls_parse, parseCalls_parse.
      destruct (Hstep (set_opts_parsedFilters parsed opts) tr1 out1
                  (sameButFilters_set _ _) ltac:(done) ltac:(done) Hrun)
        as (Hev & Hlen & Hparses & _ & Hret).
      split; [| split; [| split]].
      * constructor; [| done]. cbn. rewrite HC. split; [done |]. split; [done |].
        exists id. split; [by apply elem_of_cons; left | done].
      * done.
      * done.
      * intros opts' heap' tasks' ->.
        destruct (Hret _ _ _ eq_refl) as (? & ? & ?).
        repeat split; try done. intros _. by rewrite Hparses.
Qed.

End QueryLoop.

Lemma set_bucket_Tasks_twice v w bb :
  set_bucket_Tasks v (set_bucket_Tasks w bb) = set_bucket_Tasks v bb.
Proof. done. Qed.

Lemma set_bucket_Tasks_id bb : set_bucket_Tasks (bucket_Tasks bb) bb = bb.
Proof. by destruct bb. Qed.

(** The distribution loop, when it returns: one debug line per skipped
    task, and each bucket of the heap extended by the tasks placed at it. *)
Lemma distributeTasks_Return projectID bucketMap tasks heap tr result :
  distributeTasks projectID bucketMap tasks heap = (tr, Return result) →
  tr = debugLine projectID <$> skipped bucketMap tasks ∧
  result = imap (λ ptr bb, set_bucket_Tasks
                             (bucket_Tasks bb ++ placedAt bucketMap ptr tasks) bb) heap.
Proof.
  revert heap tr result. induction tasks as [| task rest IH]; intros heap tr result.
  { cbn. intros [= <- <-]. split; [done |].
    apply list_eq. intros i. rewrite list_lookup_imap.
    destruct (heap !! i) as [bb |]; [| done]. cbn.
    by rewrite app_nil_r, set_bucket_Tasks_id. }
  cbn [distributeTasks].
  destruct (bucketMap !! task_BucketID task) as [bucket |] eqn:Hlook.
  - destruct (bucket ≫= _) as [[ptr bb] |] eqn:Hptr; [| discriminate].
    destruct bucket as [ptr' |]; [| done]. cbn in Hptr.
    destruct (heap !! ptr') as [bb' |] eqn:Hheap; [| done].
    cbn in Hptr. injection Hptr as -> ->.
    intros Hrec. apply IH in Hrec as [-> ->]. unfold skipped, placedAt. split.
    + rewrite filter_cons_False by congruence. done.
    + apply list_eq. intros i. rewrite !list_lookup_imap.
      destruct (decide (i = ptr)) as [-> | Hne].
      * rewrite list_lookup_insert_eq by (by eapply lookup_lt_Some).
        rewrite Hheap, filter_cons_True by done. cbn.
        by rewrite <- app_assoc.
      * rewrite list_lookup_insert_ne by done.
        rewrite filter_cons_False by congruence. done.
  - rewrite bind_emit. intros [= <- Hout].
    destruct (distributeTasks projectID bucketMap rest heap) as [tr' out'] eqn:Hrec.
    cbn in Hout. subst out'. apply IH in Hrec as [-> ->]. unfold skipped, placedAt. split.
    + rewrite filter_cons_True by done. done.
    + apply imap_ext. intros i bb _.
      rewrite filter_cons_False by congruence. done.
Qed.


Lemma distributeTasks_events projectID bucketMap tasks heap :
  parseCalls (distributeTasks projectID bucketMap tasks heap).1 = [] ∧
  queryCalls (distributeTasks projectID bucketMap tasks heap).1 = [].
Proof.
  revert heap. induction tasks as [| task rest IH]; intros heap; [done |].
  cbn [distributeTasks].
  destruct (bucketMap !! task_BucketID task) as [bucket |].
  - destruct (bucket ≫= _) as [[ptr bb] |]; [apply IH | done].
  - rewrite bind_emit. cbn. apply IH.
Qed.

Lemma enrichTasks_events env s auth tasks : (enrichTasks env s auth tasks).1 = [].
Proof. unfold enrichTasks. by destruct (addMoreInfoToTasks env s _ auth). Qed.

(** ** The read pipeline as a whole *)

Section Pipeline.
Context (env : Collaborators) (s : Store) (auth : Auth).

(** [ReadAll] after its preparation and the narrowing. *)
Lemma ReadAll_from_phases seed b search page perPage tr0 tr1 buckets bucketMap opts wm :
  prepareRead env s auth b search page perPage = (tr0, Return (buckets, bucketMap, opts)) →
  narrowBucketMap (opts_parsedFilters opts) bucketMap = (tr1, Return wm) →
  Bucket_ReadAll env s auth seed b search page perPage =
    bind (queryBuckets env s auth (opts_filter opts) (mapRange seed wm) opts buckets [])
      (λ '(_, heap, fetched),
         bind (enrichTasks env s auth fetched)
           (λ tasks,
              bind (distributeTasks (bucket_ProjectID b) wm tasks heap)
                (λ result,
                   ret (result, Z.of_nat (length result), Z.of_nat (length result))))).
Proof.
  intros Hprep Hnarrow.
  pose proof (prepareRead_events env s auth b search page perPage) as E0.
  pose proof (narrowBucketMap_events (opts_parsedFilters opts) bucketMap) as E1.
  rewrite Hprep in E0. rewrite Hnarrow in E1. cbn in E0, E1. subst tr0 tr1.
  unfold Bucket_ReadAll. rewrite Hprep.
  change ([], Return (buckets, bucketMap, opts)) with (ret (buckets, bucketMap, opts)).
  rewrite bind_ret_l, Hnarrow.
  change ([], Return wm) with (ret wm).
  by rewrite bind_ret_l.
Qed.

(** The phases of a read that returns. *)
Lemma ReadAll_Return seed b search page perPage tr res :
  Bucket_ReadAll env s auth seed b search page perPage = (tr, Return res) →
  ∃ buckets bucketMap opts wm trq opts' heap fetched tasks result,
    prepareRead env s auth b search page perPage = ([], Return (buckets, bucketMap, opts)) ∧
    narrowBucketMap (opts_parsedFilters opts) bucketMap = ([], Return wm) ∧
    queryBuckets env s auth (opts_filter opts) (mapRange seed wm) opts buckets []
      = (trq, Return (opts', heap, fetched)) ∧
    enrichTasks env s auth fetched = ([], Return tasks) ∧
    distributeTasks (bucket_ProjectID b) wm tasks heap
      = (debugLine (bucket_ProjectID b) <$> skipped wm tasks, Return result) ∧
    result = imap (λ ptr bb, set_bucket_Tasks
                               (bucket_Tasks bb ++ placedAt wm ptr tasks) bb) heap ∧
    tr = trq ++ (debugLine (bucket_ProjectID b) <$> skipped wm tasks) ∧
    res = (result, Z.of_nat (length result), Z.of_nat (length result)).
Proof.
  unfold Bucket_ReadAll. intros Hread.
  apply bind_Return in Hread as (tr0 & [[buckets bucketMap] opts] & tr0' & Hprep & Hread & ->).
  apply bind_Return in Hread as (tr1 & wm & tr1' & Hnarrow & Hread & ->).
  apply bind_Return in Hread as (trq & [[opts' heap] fetched] & tr2' & Hquery & Hread & ->).
  apply bind_Return in Hread as (tr3 & tasks & tr3' & Henrich & Hread & ->).
  apply bind_Return in Hread as (trd & result & tr4' & Hdist & Hread & ->).
  injection Hread as <- <-.
  pose proof (prepareRead_events env s auth b search page perPage) as E0.
  pose proof (narrowBucketMap_events (opts_parsedFilters opts) bucketMap) as E1.
  pose proof (enrichTasks_events env s auth fetched) as E3.
  rewrite Hprep in E0. rewrite Hnarrow in E1. rewrite Henrich in E3.
  cbn in E0, E1, E3. subst tr0 tr1 tr3.
  destruct (distributeTasks_Return _ _ _ _ _ _ Hdist) as [-> Hresult].
  exists buckets, bucketMap, opts, wm, trq, opts', heap, fetched, tasks, result.
  repeat split; try done. cbn. by rewrite app_nil_r.
Qed.

(** The ids of the buckets a read returns are those it loaded, in order. *)
Lemma imap_set_Tasks_ids (f : nat → Bucket → list Task) (heap : list Bucket) :
  bucket_ID <$> imap (λ ptr bb, set_bucket_Tasks (f ptr bb) bb) heap = bucket_ID <$> heap.
Proof.
  apply list_eq. intros i. rewrite !list_lookup_fmap, list_lookup_imap.
  by destruct (heap !! i).
Qed.

Lemma sameButCount_ids (h1 h2 : list Bucket) :
  Forall2 sameButCount h1 h2 → bucket_ID <$> h1 = bucket_ID <$> h2.
Proof.
  induction 1 as [| x y l k Hxy _ IH]; [done |].
  cbn. rewrite IH. f_equal. by apply sameButCount_fields in Hxy as (? & _).
Qed.

(** C10, as the code has it.  When a read returns, the result count and
    the total both are the number of buckets of the project, narrowed or
    not; the buckets returned are all the buckets of the project in
    position order; and every task query carries the page, the page size
    and the search text of the request. *)
Theorem ReadAll_counts seed b search page perPage tr result resultCount total :
  Bucket_ReadAll env s auth seed b search page perPage
    = (tr, Return (result, resultCount, total)) →
  resultCount = countBuckets s (bucket_ProjectID b) ∧
  total = countBuckets s (bucket_ProjectID b) ∧
  bucket_ID <$> result = bucket_ID <$> findBucketsOrdered s (bucket_ProjectID b) ∧
  ∀ o, o ∈ queryCalls tr →
       opts_page o = page ∧ opts_perPage o = perPage ∧ opts_search o = search.
Proof.
  intros Hread.
  apply ReadAll_Return in Hread
    as (buckets & bucketMap & opts & wm & trq & opts' & heap & fetched & tasks & result'
        & Hprep & Hnarrow & Hquery & Henrich & Hdist & Hresult & -> & Hres).
  injection Hres as -> -> ->.
  destruct (prepareRead_pointers _ _ _ _ _ _ _ _ _ _ _ Hprep) as (Hids & _).
  destruct (queryBuckets_spec _ _ _ _ _ _ _ _ _ _ Hquery) as (Hev & _ & _ & Hret).
  destruct (Hret _ _ _ eq_refl) as (Hheap & _).
  assert (Hall : bucket_ID <$> result'
                 = bucket_ID <$> findBucketsOrdered s (bucket_ProjectID b)).
  { rewrite Hresult, imap_set_Tasks_ids, <- (sameButCount_ids _ _ Hheap). exact Hids. }
  assert (Hlen : Z.of_nat (length result') = countBuckets s (bucket_ProjectID b)).
  { rewrite <- findBucketsOrdered_length.
    by rewrite <- (length_fmap bucket_ID result'), Hall, length_fmap. }
  split; [done |]. split; [done |]. split; [done |].
  intros o Ho. rewrite queryCalls_app in Ho.
  apply elem_of_app in Ho as [Ho | Ho].
  - apply prepareRead_Return in Hprep as (_ & _ & _ & opts0 & _ & ->).
    unfold queryCalls in Ho. apply list_elem_of_omap in Ho as (ev & Hin & Hev').
    rewrite Forall_forall in Hev. specialize (Hev _ Hin).
    destruct ev as [| pid o' |]; try discriminate. injection Hev' as ->.
    destruct Hev as [Hsame _].
    apply sameButFilters_fields in Hsame as (-> & -> & -> & _). done.
  - exfalso. unfold queryCalls in Ho. apply list_elem_of_omap in Ho as (ev & Hin & Hev').
    apply list_elem_of_fmap in Hin as (t & -> & _). discriminate.
Qed.

End Pipeline.

Section Scoping.
Context (env : Collaborators) (s : Store) (auth : Auth).

(** The events of a read are those of its query loop, followed by debug
    lines only; the read returns only if the loop does. *)
Lemma ReadAll_trace seed b search page perPage tr0 tr1 buckets bucketMap opts wm tr out :
  prepareRead env s auth b search page perPage = (tr0, Return (buckets, bucketMap, opts)) →
  narrowBucketMap (opts_parsedFilters opts) bucketMap = (tr1, Return wm) →
  Bucket_ReadAll env s auth seed b search page perPage = (tr, out) →
  ∃ trq outq trd,
    queryBuckets env s auth (opts_filter opts) (mapRange seed wm) opts buckets []
      = (trq, outq) ∧
    tr = trq ++ trd ∧ parseCalls trd = [] ∧ queryCalls trd = [] ∧
    (∀ res, out = Return res → ∃ r, outq = Return r).
Proof.
  intros Hprep Hnarrow. rewrite (ReadAll_from_phases _ _ _ _ _ _ _ _ _ _ _ _ _ _ Hprep Hnarrow).
  destruct (queryBuckets env s auth _ _ opts buckets []) as [trq [[[o heap] fetched] | err | msg]];
    cbn [bind].
  2,3: intros [= <- <-]; eexists trq, _, []; rewrite app_nil_r; repeat split; done.
  pose proof (enrichTasks_events env s auth fetched) as Ee.
  destruct (enrichTasks env s auth fetched) as [tre [tasks | err | msg]];
    cbn in Ee; subst tre; cbn [bind].
  2,3: intros [= <- <-]; eexists trq, _, []; rewrite app_nil_r; repeat split; eauto; done.
  pose proof (distributeTasks_events (bucket_ProjectID b) wm tasks heap) as [Ep Eq].
  destruct (distributeTasks _ wm tasks heap) as [trd [result | err | msg]];
    cbn in Ep, Eq; cbn [bind ret app]; intros [= <- <-];
    eexists trq, _, trd; rewrite ?app_nil_r; repeat split; eauto; done.
Qed.




End Scoping.

Section Distribution.
Context (env : Collaborators) (s : Store) (auth : Auth).


End Distribution.

(** ** The example board *)

Import Fixture.

Lemma ReadAll_counts_witness :
  ∃ tr result resultCount total,
    Bucket_ReadAll env board actor [] (request 0 "bucket_id = 1") "" 1 50
      = (tr, Return (result, resultCount, total)) ∧
    resultCount = countBuckets board 1 ∧ total = countBuckets board 1.
Proof.
  eexists _, _, _, _. split; [evaluated |].
  pose proof (ReadAll_counts env board actor [] (request 0 "bucket_id = 1") "" 1 50
                _ _ _ _ ltac:(evaluated)) as (H1 & H2 & _).
  exact (conj H1 H2).
Defined.

(** The filter [bucket_id = 1] narrows the working map to one bucket; the
    read still reports both buckets of the project. *)
Lemma counts_ignore_narrowing :
  ¬ countsAfterNarrowing env board actor [] (request 0 "bucket_id = 1") "" 1 50.
Proof.
  intros H.
  eassert (P : prepareRead env board actor (request 0 "bucket_id = 1") "" 1 50
               = ([], Return (_, _, _))) by evaluated.
  narrowed P as N.
  eassert (R : Bucket_ReadAll env board actor [] (request 0 "bucket_id = 1") "" 1 50
               = (_, Return (_, _, _))) by evaluated.
  destruct (H _ _ _ _ _ _ _ _ P N R) as [Hcount _].
  vm_compute in Hcount. discriminate.
Qed.








(** Scenarios of the specification, evaluated on the example board. *)

(** Reading with the filter [priority = 3] and no bucket constraint: one
    scoped filter per bucket (here in the order the map range yields). *)
Example read_scopes_each_bucket :
  parseCalls (Bucket_ReadAll env board actor [] (request 0 "priority = 3") "" 1 50).1
  = ["(priority = 3) && bucket_id = 2"; "(priority = 3) && bucket_id = 1"].
Proof. vm_compute. reflexivity. Qed.

(** Reading with a filter on a bucket the project does not have: the
    narrowed map holds a nil bucket and the loop dereferences it. *)
Example read_unknown_bucket_panics :
  Bucket_ReadAll env board actor [] (request 0 "bucket_id = 5") "" 1 50
  = ([], Panic "invalid memory address or nil pointer dereference").
Proof. vm_compute. reflexivity. Qed.

(** Deleting the done bucket of a project: the reference is cleared and the
    task of the bucket moves to the fallback bucket. *)
Example delete_done_bucket :
  let s := set_store_projects [mkProject 1 "P" 0 2] board in
  ∃ s', Bucket_Delete s (request 2 "") actor = (s', None) ∧
        store_projects s' = [mkProject 1 "P" 0 0] ∧
        bucket_ID <$> store_buckets s' = [1] ∧
        task_BucketID <$> store_tasks s' = [1; 1; 1].
Proof. eexists. split; [vm_compute; reflexivity |]. done. Qed.

(** * Further properties *)

(** ** Looking buckets up after a write *)

Lemma getBucketByID_found s id r :
  getBucketByID s id = inr r ↔
  ∃ i, store_buckets s !! i = Some r ∧ bucket_ID r = id ∧
       ∀ j y, store_buckets s !! j = Some y → (j < i)%nat → bucket_ID y ≠ id.
Proof.
  unfold getBucketByID.
  destruct (list_find _ _) as [[i x] |] eqn:Hfind.
  - apply list_find_Some in Hfind. split.
    + intros [= <-]. exists i. done.
    + intros (k & Hk & Hid & Hfirst). f_equal.
      destruct Hfind as (Hi & Hx & Hbefore).
      destruct (Nat.lt_trichotomy i k) as [Hlt | [-> | Hgt]].
      * by destruct (Hfirst _ _ Hi Hlt).
      * congruence.
      * by destruct (Hbefore _ _ Hk Hgt).
  - split; [discriminate |]. intros (k & Hk & Hid & _).
    eapply list_find_None in Hfind. rewrite Forall_forall in Hfind.
    destruct (Hfind r); [by eapply list_elem_of_lookup_2 | done].
Qed.

Lemma getBucketByID_missing s id :
  (∀ r, r ∈ store_buckets s → bucket_ID r ≠ id) →
  getBucketByID s id = inl (ErrBucketDoesNotExist id).
Proof.
  intros Hnone. unfold getBucketByID.
  destruct (list_find _ _) as [[i x] |] eqn:Hfind; [| done].
  apply list_find_Some in Hfind as (Hi & Hx & _).
  destruct (Hnone x); [by eapply list_elem_of_lookup_2 | done].
Qed.

(** A lookup depends on the rows with the id looked up only. *)
Lemma getBucketByID_ext s1 s2 id :
  filter (λ r, bucket_ID r = id) (store_buckets s1)
  = filter (λ r, bucket_ID r = id) (store_buckets s2) →
  getBucketByID s1 id = getBucketByID s2 id.
Proof.
  assert (Hhd : ∀ l, snd <$> list_find (λ r, bucket_ID r = id) l
                     = head (filter (λ r, bucket_ID r = id) l)).
  { induction l as [| x l IH]; [done |]. cbn [list_find].
    destruct (decide (bucket_ID x = id)) as [Hx | Hx].
    - by rewrite filter_cons_True.
    - rewrite filter_cons_False by done. rewrite <- IH.
      by destruct (list_find _ l) as [[? ?] |]. }
  intros Heq. unfold getBucketByID.
  pose proof (Hhd (store_buckets s1)) as H1. pose proof (Hhd (store_buckets s2)) as H2.
  rewrite Heq in H1. rewrite <- H2 in H1.
  destruct (list_find _ (store_buckets s1)) as [[? ?] |],
           (list_find _ (store_buckets s2)) as [[? ?] |]; cbn in H1; congruence.
Qed.

Lemma insertBucket_fresh s b :
  bucket_ID b = 0 → keysIssued s →
  ∀ r, r ∈ store_buckets s → bucket_ID r ≠ bucket_ID (insertBucket s b).2.
Proof.
  intros Hzero Hkeys r Hr. unfold insertBucket.
  destruct (decide (bucket_ID b = 0)); [| done]. cbn.
  specialize (Hkeys r Hr). lia.
Qed.

(** What a successful create leaves in the table. *)
Lemma Create_rows env s b a u :
  GetUserOrLinkShareUser env s a = inr u →
  bucket_ID b = 0 → keysIssued s →
  let key := store_bucketSeq s + 1 in
  let position := calculateDefaultPosition env key (bucket_Position b) in
  Bucket_Create env s b a =
    (mkStore
       (store_buckets s ++
        [mkBucket key (bucket_Title b) (bucket_ProjectID b) [] (bucket_Limit b) 0
           (if Qeq_bool position 0 then bucket_Position b else position)
           (store_now s) (store_now s) None (user_ID u) emptyTaskCollection])
       (store_tasks s) (store_projects s) key (store_now s),
     mkBucket key (bucket_Title b) (bucket_ProjectID b) (bucket_Tasks b) (bucket_Limit b)
       (bucket_Count b) position (store_now s) (store_now s) (Some u) (user_ID u)
       (bucket_TaskCollection b),
     None).
Proof.
  intros Huser Hzero Hkeys key position.
  unfold Bucket_Create. rewrite Huser.
  pose proof (insertBucket_fresh s (set_bucket_CreatedBy (Some u) (user_ID u) b)
                Hzero Hkeys) as Hfresh.
  unfold insertBucket in *. cbn [set_bucket_CreatedBy bucket_ID] in *.
  destruct (decide (bucket_ID b = 0)); [| done].
  cbn [snd set_bucket_times set_bucket_ID bucket_ID] in Hfresh.
  cbn. rewrite Z.max_r by lia. f_equal. f_equal.
  unfold set_store_buckets. cbn. f_equal.
  rewrite fmap_app. f_equal.
  - transitivity ((λ r, r) <$> store_buckets s); [| apply list_fmap_id].
    apply list_fmap_ext. intros i r Hr. unfold updateBucketNonZero. cbn.
    destruct (decide _) as [Heq |]; [| done].
    destruct (Hfresh r); [by eapply list_elem_of_lookup_2 | done].
  - cbn. unfold updateBucketNonZero. cbn.
    destruct (decide (store_bucketSeq s + 1 = store_bucketSeq s + 1)); [| done].
    f_equal. f_equal.
    + by destruct (decide (bucket_Title b = "")).
    + by destruct (decide (bucket_ProjectID b = 0)).
    + by destruct (decide (bucket_Limit b = 0)).
    + by destruct (decide (user_ID u = 0)).
Qed.

Lemma keysIssued_board : keysIssued Fixture.board.
Proof.
  intros r Hr. cbn in Hr.
  repeat (apply elem_of_cons in Hr as [-> | Hr]; [cbn; lia |]).
  by apply elem_of_nil in Hr.
Qed.

(** X1. A create with no key in the bean, on a table whose keys were all
    issued by the counter, stores one new row under the next key: looking
    that key up yields the title, project and limit of the request, the id
    of the acting user as creator whatever the request carried, and the
    current time as creation and update stamps; the stored position is the
    default position, or the requested one when the default is zero; every
    other key looks up as before, and the counter still covers all keys. *)
Theorem Create_then_lookup (env : Collaborators) (s : Store) (b : Bucket) (a : Auth)
    (u : User) :
  GetUserOrLinkShareUser env s a = inr u →
  bucket_ID b = 0 →
  keysIssued s →
  ∃ s' b' r,
    Bucket_Create env s b a = (s', b', None) ∧
    bucket_ID b' = store_bucketSeq s + 1 ∧
    bucket_CreatedBy b' = Some u ∧
    bucket_Position b'
      = calculateDefaultPosition env (store_bucketSeq s + 1) (bucket_Position b) ∧
    getBucketByID s' (bucket_ID b') = inr r ∧
    bucket_ID r = bucket_ID b' ∧
    bucket_Title r = bucket_Title b ∧
    bucket_ProjectID r = bucket_ProjectID b ∧
    bucket_Limit r = bucket_Limit b ∧
    bucket_CreatedByID r = user_ID u ∧
    bucket_Created r = store_now s ∧
    bucket_Updated r = store_now s ∧
    bucket_Position r
      = (if Qeq_bool (bucket_Position b') 0 then bucket_Position b
         else bucket_Position b') ∧
    (∀ id, id ≠ bucket_ID b' → getBucketByID s' id = getBucketByID s id) ∧
    keysIssued s'.
Proof.
  intros Huser Hzero Hkeys.
  pose proof (Create_rows env s b a u Huser Hzero Hkeys) as Hcreate. cbn zeta in Hcreate.
  eexists _, _, _. split; [exact Hcreate |].
  cbn [bucket_ID bucket_CreatedBy bucket_Position].
  split; [done |]. split; [done |]. split; [done |]. split.
  { apply getBucketByID_found. exists (length (store_buckets s)).
    cbn [store_buckets]. split; [| split].
    - by rewrite lookup_app_r, Nat.sub_diag.
    - done.
    - intros j y Hy Hj. rewrite lookup_app_l in Hy by done.
      specialize (Hkeys y ltac:(by eapply list_elem_of_lookup_2)). lia. }
  cbn. repeat (split; [done |]). split.
  - intros id Hid. apply getBucketByID_ext. cbn [store_buckets].
    rewrite filter_app, filter_cons_False, filter_nil, app_nil_r by (cbn; congruence).
    done.
  - intros r Hr. cbn [store_buckets store_bucketSeq] in *.
    apply elem_of_app in Hr as [Hr | Hr].
    + specialize (Hkeys r Hr). lia.
    + apply list_elem_of_singleton in Hr as ->. cbn. lia.
Qed.

Lemma Create_then_lookup_witness :
  ∃ s' b' r,
    Bucket_Create Fixture.env Fixture.board (Fixture.row 0 1 "Done" 0) Fixture.actor
      = (s', b', None) ∧
    bucket_ID b' = 3 ∧
    getBucketByID s' 3 = inr r ∧
    bucket_Title r = "Done" ∧ bucket_CreatedByID r = 7.
Proof.
  destruct (Create_then_lookup Fixture.env Fixture.board (Fixture.row 0 1 "Done" 0)
              Fixture.actor (mkUser 7 "") eq_refl eq_refl keysIssued_board)
    as (s' & b' & r & Hc & Hid & _ & _ & Hr & _ & Ht & _ & _ & Hu & _).
  exists s', b', r. rewrite Hid in Hr. done.
Defined.

(** X2. Under the same conditions a create keeps every existing row in
    place, leaves the task and project tables alone, and raises the bucket
    count of the project of the request by one and of no other project. *)
Theorem Create_counts (env : Collaborators) (s : Store) (b : Bucket) (a : Auth) (u : User) :
  GetUserOrLinkShareUser env s a = inr u →
  bucket_ID b = 0 →
  keysIssued s →
  ∃ s' b' r,
    Bucket_Create env s b a = (s', b', None) ∧
    store_buckets s' = store_buckets s ++ [r] ∧
    store_tasks s' = store_tasks s ∧
    store_projects s' = store_projects s ∧
    countBuckets s' (bucket_ProjectID b) = countBuckets s (bucket_ProjectID b) + 1 ∧
    ∀ projectID, projectID ≠ bucket_ProjectID b →
                 countBuckets s' projectID = countBuckets s projectID.
Proof.
  intros Huser Hzero Hkeys.
  pose proof (Create_rows env s b a u Huser Hzero Hkeys) as Hcreate. cbn zeta in Hcreate.
  eexists _, _, _. split; [exact Hcreate |].
  cbn [store_buckets store_tasks store_projects].
  split; [done |]. split; [done |]. split; [done |].
  unfold countBuckets, whereProjectID. cbn [store_buckets]. split.
  - rewrite filter_app, filter_cons_True, filter_nil, length_app by done. cbn. lia.
  - intros projectID Hne.
    rewrite filter_app, filter_cons_False, filter_nil, app_nil_r by (cbn; congruence).
    done.
Qed.

Lemma Create_counts_witness :
  ∃ s' b',
    Bucket_Create Fixture.env Fixture.board (Fixture.row 0 1 "Done" 0) Fixture.actor
      = (s', b', None) ∧
    countBuckets s' 1 = countBuckets Fixture.board 1 + 1.
Proof.
  destruct (Create_counts Fixture.env Fixture.board (Fixture.row 0 1 "Done" 0)
              Fixture.actor (mkUser 7 "") eq_refl eq_refl keysIssued_board)
    as (s' & b' & r & Hc & _ & _ & _ & Hcount & _).
  exists s', b'. done.
Defined.

(** ** Deleting and updating buckets *)

Lemma Delete_error_unchanged s b a err :
  (Bucket_Delete s b a).2 = Some err → (Bucket_Delete s b a).1 = s.
Proof.
  unfold Bucket_Delete. destruct (decide _); [done |].
  destruct (GetProjectSimpleByID s (bucket_ProjectID b)) as [e | p] eqn:Hp; [done |].
  destruct (decide (countBuckets s (bucket_ProjectID b) <= 1)) as [| Hgt]; [done |].
  destruct (Delete_steps s b a p ltac:(lia) Hp) as (fallback & _ & Heq).
  unfold Bucket_Delete in Heq. rewrite Hp in Heq.
  destruct (decide _); [done |]. rewrite Heq. discriminate.
Qed.

(** X3. [Delete] removes a bucket, but no tasks: whatever it returns, the
    task table keeps its length and order, every task keeps its id, title
    and project, and a task that was not in the bucket of the request is
    left exactly as it was. *)
Theorem Delete_keeps_tasks (s : Store) (b : Bucket) (a : Auth) (i : nat) (t : Task) :
  store_tasks s !! i = Some t →
  length (store_tasks (Bucket_Delete s b a).1) = length (store_tasks s) ∧
  ∃ t', store_tasks (Bucket_Delete s b a).1 !! i = Some t' ∧
        task_ID t' = task_ID t ∧
        task_Title t' = task_Title t ∧
        task_ProjectID t' = task_ProjectID t ∧
        (task_BucketID t ≠ bucket_ID b → t' = t).
Proof.
  intros Ht.
  destruct (Bucket_Delete s b a) as [s' [err |]] eqn:Hdel.
  - pose proof (Delete_error_unchanged s b a err) as Hsame.
    rewrite Hdel in Hsame. cbn in *. rewrite (Hsame eq_refl).
    split; [done |]. exists t. done.
  - apply Delete_reassigns in Hdel as (fallback & Htasks & _). cbn.
    rewrite Htasks, length_fmap, list_lookup_fmap, Ht. split; [done |].
    exists (moveTask (bucket_ID b) fallback t). split; [done |].
    unfold moveTask. destruct (decide _); cbn; done.
Qed.

Lemma Delete_keeps_tasks_witness :
  ∃ t', store_tasks (Bucket_Delete Fixture.board (Fixture.request 2 "") Fixture.actor).1
          !! 2%nat = Some t' ∧ task_ID t' = 12.
Proof.
  destruct (Delete_keeps_tasks Fixture.board (Fixture.request 2 "") Fixture.actor 2
              (mkTask 12 "c" 1 2) eq_refl) as (_ & t' & Ht' & Hid & _).
  exists t'. done.
Defined.

(** X4. After a successful delete the bucket can no longer be looked up,
    every bucket with another id looks up as before, and the table holds
    exactly the rows it held under other ids. *)
Theorem Delete_then_lookup (s s' : Store) (b : Bucket) (a : Auth) :
  Bucket_Delete s b a = (s', None) →
  getBucketByID s' (bucket_ID b) = inl (ErrBucketDoesNotExist (bucket_ID b)) ∧
  (∀ id, id ≠ bucket_ID b → getBucketByID s' id = getBucketByID s id) ∧
  (∀ r, r ∈ store_buckets s' ↔ r ∈ store_buckets s ∧ bucket_ID r ≠ bucket_ID b).
Proof.
  intros Hdel. apply Delete_reassigns in Hdel as (fallback & _ & Hrows & _).
  split; [| split].
  - apply getBucketByID_missing. intros r Hr. rewrite Hrows in Hr.
    by apply list_elem_of_filter in Hr as [? _].
  - intros id Hid. apply getBucketByID_ext. rewrite Hrows.
    rewrite list_filter_filter. apply list_filter_iff. intros r. split.
    + by intros [? _].
    + intros Hr. split; [done | congruence].
  - intros r. rewrite Hrows, list_elem_of_filter. tauto.
Qed.

Lemma Delete_then_lookup_witness :
  ∃ s', Bucket_Delete Fixture.board (Fixture.request 2 "") Fixture.actor = (s', None) ∧
        getBucketByID s' 2 = inl (ErrBucketDoesNotExist 2).
Proof.
  eexists. split; [evaluated |].
  eapply (proj1 (Delete_then_lookup Fixture.board _ (Fixture.request 2 "") Fixture.actor
                   ltac:(evaluated))).
Defined.

Lemma GetProjectSimpleByID_after_update s p p' a :
  GetProjectSimpleByID s (project_ID p') = inr p →
  GetProjectSimpleByID (Project_Update s p' a).1 (project_ID p') = inr p'.
Proof.
  unfold GetProjectSimpleByID, Project_Update. cbn [fst set_store_projects store_projects].
  induction (store_projects s) as [| q l IH]; [done |].
  cbn [list_find fmap list_fmap].
  destruct (decide (project_ID q = project_ID p')) as [Hq | Hq].
  - intros _. destruct (decide (project_ID p' = project_ID p')); done.
  - destruct (decide (project_ID q = project_ID p')); [done |].
    intros Hfind.
    destruct (list_find _ l) as [[i x] |] eqn:Hl; [| done].
    cbn in Hfind. specialize (IH Hfind).
    destruct (list_find _ (_ <$> l)) as [[j y] |]; cbn in *; congruence.
Qed.

Lemma GetProjectSimpleByID_projects s1 s2 projectID :
  store_projects s1 = store_projects s2 →
  GetProjectSimpleByID s1 projectID = GetProjectSimpleByID s2 projectID.
Proof. unfold GetProjectSimpleByID. by intros ->. Qed.

(** X5. After a successful delete of a bucket with a non-zero id the
    project row no longer names that bucket as its default or as its done
    bucket; a reference that pointed at another bucket is kept, as are the
    id and the title of the project. *)
Theorem Delete_clears_references (s s' : Store) (b : Bucket) (a : Auth) :
  Bucket_Delete s b a = (s', None) →
  bucket_ID b ≠ 0 →
  ∃ p p',
    GetProjectSimpleByID s (bucket_ProjectID b) = inr p ∧
    GetProjectSimpleByID s' (bucket_ProjectID b) = inr p' ∧
    project_DefaultBucketID p' ≠ bucket_ID b ∧
    project_DoneBucketID p' ≠ bucket_ID b ∧
    (project_DefaultBucketID p ≠ bucket_ID b →
     project_DefaultBucketID p' = project_DefaultBucketID p) ∧
    (project_DoneBucketID p ≠ bucket_ID b →
     project_DoneBucketID p' = project_DoneBucketID p) ∧
    project_ID p' = project_ID p ∧ project_Title p' = project_Title p.
Proof.
  intros Hdel Hnz.
  destruct (decide (countBuckets s (bucket_ProjectID b) <= 1)) as [Hle | Hgt].
  { unfold Bucket_Delete in Hdel. destruct (decide _); [congruence | lia]. }
  destruct (GetProjectSimpleByID s (bucket_ProjectID b)) as [err | p] eqn:Hproject.
  { unfold Bucket_Delete in Hdel. rewrite Hproject in Hdel.
    destruct (decide _); congruence. }
  destruct (Delete_steps s b a p ltac:(lia) Hproject) as (fallback & _ & Heq).
  rewrite Heq in Hdel. injection Hdel as <-.
  pose proof (GetProjectSimpleByID_id _ _ _ Hproject) as Hpid.
  destruct (clearBucketReferences_fields (bucket_ID b) p) as (Hid & Hdef & Hdone).
  exists p, (clearBucketReferences (bucket_ID b) p).1.
  split; [done |]. split.
  { rewrite (GetProjectSimpleByID_projects _
               (if (clearBucketReferences (bucket_ID b) p).2
                then (Project_Update s (clearBucketReferences (bucket_ID b) p).1 a).1
                else s)) by done.
    destruct (clearBucketReferences (bucket_ID b) p) as [p' upd] eqn:Hclear.
    cbn [fst snd] in *. destruct upd.
    - rewrite <- Hpid, <- Hid. apply (GetProjectSimpleByID_after_update s p p' a).
      by rewrite Hid, Hpid.
    - rewrite Hproject. f_equal.
      unfold clearBucketReferences in Hclear.
      destruct (decide (bucket_ID b = project_DefaultBucketID p)); [by destruct (decide _) |].
      destruct (decide (bucket_ID b = project_DoneBucketID p)); congruence. }
  rewrite Hdef, Hdone, Hid.
  assert (Htitle : project_Title (clearBucketReferences (bucket_ID b) p).1
                   = project_Title p).
  { unfold clearBucketReferences.
    destruct (decide (bucket_ID b = project_DefaultBucketID p));
      cbn [project_DoneBucketID set_project_DefaultBucketID];
      destruct (decide (bucket_ID b = project_DoneBucketID p)); done. }
  split; [| split; [| split; [| split; [| done]]]].
  - destruct (decide (bucket_ID b = project_DefaultBucketID p)); lia.
  - destruct (decide (bucket_ID b = project_DoneBucketID p)); lia.
  - intros Hne. destruct (decide (bucket_ID b = project_DefaultBucketID p)); lia.
  - intros Hne. destruct (decide (bucket_ID b = project_DoneBucketID p)); lia.
Qed.

Lemma Delete_clears_references_witness :
  ∃ p', GetProjectSimpleByID
          (Bucket_Delete (set_store_projects [mkProject 1 "P" 1 2] Fixture.board)
             (Fixture.request 2 "") Fixture.actor).1 1 = inr p' ∧
        project_DoneBucketID p' ≠ 2 ∧ project_DefaultBucketID p' = 1.
Proof.
  edestruct (Delete_clears_references
               (set_store_projects [mkProject 1 "P" 1 2] Fixture.board) _
               (Fixture.request 2 "") Fixture.actor ltac:(evaluated) ltac:(done))
    as (p & p' & Hp & Hp' & _ & Hdone & Hdef & _).
  exists p'. split; [exact Hp' |]. split; [exact Hdone |].
  injection Hp as <-. apply Hdef. done.
Defined.

Lemma filter_all {A} (P : A → Prop) `{∀ x, Decision (P x)} (l : list A) :
  Forall P l → filter P l = l.
Proof.
  induction 1 as [| x l Hx _ IH]; [done |].
  by rewrite filter_cons_True, IH.
Qed.

(** X6. Creating a bucket and deleting it again gives back the bucket, task
    and project tables as they were (only the key counter has advanced),
    provided the project exists, already has a bucket, and neither the
    project nor any task refers to a key the counter has not issued. *)
Theorem Create_then_Delete (env : Collaborators) (s : Store) (b : Bucket) (a : Auth)
    (u : User) (p : Project) :
  GetUserOrLinkShareUser env s a = inr u →
  bucket_ID b = 0 →
  keysIssued s →
  GetProjectSimpleByID s (bucket_ProjectID b) = inr p →
  project_DefaultBucketID p <= store_bucketSeq s →
  project_DoneBucketID p <= store_bucketSeq s →
  (∀ t, t ∈ store_tasks s → task_BucketID t <= store_bucketSeq s) →
  1 <= countBuckets s (bucket_ProjectID b) →
  ∃ s' b',
    Bucket_Create env s b a = (s', b', None) ∧
    Bucket_Delete s' b' a =
      (mkStore (store_buckets s) (store_tasks s) (store_projects s)
         (store_bucketSeq s + 1) (store_now s), None).
Proof.
  intros Huser Hzero Hkeys Hproject Hdef Hdone Htasks Hcount.
  pose proof (Create_rows env s b a u Huser Hzero Hkeys) as Hcreate. cbn zeta in Hcreate.
  eexists _, _. split; [exact Hcreate |].
  match goal with |- Bucket_Delete ?s1 ?b1 a = _ => set (s' := s1); set (b' := b1) end.
  assert (Hp' : GetProjectSimpleByID s' (bucket_ProjectID b') = inr p) by exact Hproject.
  assert (Hcount' : 1 < countBuckets s' (bucket_ProjectID b')).
  { unfold countBuckets, whereProjectID, s', b'. cbn [store_buckets bucket_ProjectID].
    rewrite filter_app, filter_cons_True, length_app by done.
    unfold countBuckets, whereProjectID in Hcount. cbn. lia. }
  destruct (Delete_steps s' b' a p Hcount' Hp') as (fallback & _ & ->).
  assert (Hclear : clearBucketReferences (bucket_ID b') p = (p, false)).
  { unfold clearBucketReferences, b'. cbn [bucket_ID].
    destruct (decide (_ = project_DefaultBucketID p)); [lia |].
    destruct (decide (_ = project_DoneBucketID p)); [lia | done]. }
  rewrite Hclear. cbn [fst snd]. f_equal.
  unfold deleteBucketRows, updateTasksBucket, set_store_buckets, set_store_tasks, s', b'.
  cbn [store_buckets store_tasks store_projects store_bucketSeq store_now bucket_ID].
  f_equal.
  - rewrite filter_app, filter_cons_False, filter_nil, app_nil_r by (cbn; lia).
    apply filter_all. rewrite Forall_forall. intros r Hr.
    specialize (Hkeys r Hr). lia.
  - transitivity ((λ t, t) <$> store_tasks s); [| apply list_fmap_id].
    apply list_fmap_ext. intros i t Ht. unfold moveTask.
    destruct (decide _) as [Heq |]; [| done].
    specialize (Htasks t ltac:(by eapply list_elem_of_lookup_2)). lia.
Qed.

Lemma Create_then_Delete_witness :
  ∃ s' b',
    Bucket_Create Fixture.env Fixture.board (Fixture.row 0 1 "Done" 0) Fixture.actor
      = (s', b', None) ∧
    store_buckets (Bucket_Delete s' b' Fixture.actor).1 = store_buckets Fixture.board.
Proof.
  destruct (Create_then_Delete Fixture.env Fixture.board (Fixture.row 0 1 "Done" 0)
              Fixture.actor (mkUser 7 "") (mkProject 1 "P" 0 0)
              eq_refl eq_refl keysIssued_board eq_refl ltac:(cbn; lia) ltac:(cbn; lia)
              ltac:(intros t Ht; cbn in Ht;
                    repeat (apply elem_of_cons in Ht as [-> | Ht]; [cbn; lia |]);
                    by apply elem_of_nil in Ht)
              ltac:(vm_compute; discriminate))
    as (s' & b' & Hc & Hd).
  exists s', b'. split; [exact Hc |]. by rewrite Hd.
Defined.

(** X7. An update of a bucket id that no row carries changes nothing and
    reports no error. *)
Theorem Update_missing_is_noop (s : Store) (b : Bucket) (a : Auth) :
  (∀ r, r ∈ store_buckets s → bucket_ID r ≠ bucket_ID b) →
  Bucket_Update s b a = (s, None) ∧
  getBucketByID (Bucket_Update s b a).1 (bucket_ID b)
    = inl (ErrBucketDoesNotExist (bucket_ID b)).
Proof.
  intros Hnone.
  assert (Hsame : Bucket_Update s b a = (s, None)).
  { unfold Bucket_Update, set_store_buckets. f_equal.
    destruct s as [rows tasks projects seq now]. cbn in *. f_equal.
    transitivity ((λ r, r) <$> rows); [| apply list_fmap_id].
    apply list_fmap_ext. intros i r Hr. unfold updateBucketCols.
    destruct (decide _) as [Heq |]; [| done].
    destruct (Hnone r); [by eapply list_elem_of_lookup_2 | done]. }
  split; [done |]. rewrite Hsame. by apply getBucketByID_missing.
Qed.

Lemma Update_missing_is_noop_witness :
  Bucket_Update Fixture.board (Fixture.row 9 1 "Nowhere" 5) Fixture.actor
  = (Fixture.board, None).
Proof.
  apply (proj1 (Update_missing_is_noop Fixture.board (Fixture.row 9 1 "Nowhere" 5)
                  Fixture.actor
                  ltac:(intros r Hr; cbn in Hr;
                        repeat (apply elem_of_cons in Hr as [-> | Hr]; [cbn; lia |]);
                        by apply elem_of_nil in Hr))).
Defined.



(** ** Reading a board: authorization, options and what is returned *)

Lemma bind_Forall {A B} (P : event → Prop) (m : M A) (k : A → M B) :
  Forall P m.1 →
  (∀ a, m.2 = Return a → Forall P (k a).1) →
  Forall P (bind m k).1.
Proof.
  destruct m as [tr [a | err | msg]]; cbn; intros Htr Hk; try done.
  specialize (Hk a eq_refl). destruct (k a) as [tr' r]. cbn in *.
  by apply Forall_app.
Qed.

Lemma bind_Return_iff {A B} (m : M A) (k : A → M B) tr1 a :
  m = (tr1, Return a) → bind m k = (tr1 ++ (k a).1, (k a).2).
Proof. intros ->. cbn. by destruct (k a). Qed.

Section ReadProperties.
Context (env : Collaborators) (s : Store) (auth : Auth).

Lemma findBucketsOrdered_project projectID :
  Forall (λ bb, bucket_ProjectID bb = projectID) (findBucketsOrdered s projectID).
Proof.
  rewrite Forall_forall. intros bb Hbb. unfold findBucketsOrdered in Hbb.
  apply list_elem_of_fmap in Hbb as (r & -> & Hr).
  apply orderedRows_elem in Hr as [_ Hr]. done.
Qed.

(** Every task query of the loop is for the project of the buckets on the
    heap. *)
Lemma queryBuckets_project projectID F entries opts heap tasks :
  Forall (λ bb, bucket_ProjectID bb = projectID) heap →
  Forall (λ ev, match ev with EvQuery p _ => p = projectID | _ => True end)
    (queryBuckets env s auth F entries opts heap tasks).1.
Proof.
  revert opts heap tasks.
  induction entries as [| [id bucket] rest IH]; intros opts heap tasks Hheap; [done |].
  cbn [queryBuckets]. apply bind_Forall.
  { unfold scopeOpts. destruct (strings_Contains F "bucket_id"); cbn [negb]; [done |].
    rewrite bind_emit. cbn [fst]. constructor; [done |].
    destruct (getTaskFiltersFromFilterString env _ _); cbn; constructor. }
  intros opts1 _. apply bind_Forall.
  - unfold queryBucket. destruct (bucket ≫= _) as [[ptr bb] |] eqn:Hptr; [| done].
    destruct bucket as [ptr' |]; [| done]. cbn in Hptr.
    destruct (heap !! ptr') as [bb' |] eqn:Hbb; [| done].
    cbn in Hptr. injection Hptr as -> ->.
    rewrite bind_emit. cbn [fst]. constructor.
    + rewrite Forall_forall in Hheap. apply Hheap.
      eapply list_elem_of_lookup_2. exact Hbb.
    + destruct (getRawTasksForProjects env s _ auth opts1) as [| [[? ?] ?]];
        cbn; constructor.
  - intros [heap' ts] Hret. apply IH.
    unfold queryBucket in Hret.
    destruct (bucket ≫= _) as [[ptr bb] |] eqn:Hptr; [| done].
    destruct bucket as [ptr' |]; [| done]. cbn in Hptr.
    destruct (heap !! ptr') as [bb' |] eqn:Hbb; [| done].
    cbn in Hptr. injection Hptr as -> ->.
    rewrite bind_emit in Hret. cbn [snd] in Hret.
    destruct (getRawTasksForProjects env s _ auth opts1) as [| [[ts' n] total]];
      [done |].
    cbn in Hret. injection Hret as <- <-.
    apply Forall_insert; [done |]. cbn.
    rewrite Forall_forall in Hheap. apply Hheap.
    eapply list_elem_of_lookup_2. exact Hbb.
Qed.

(** X9. A read does nothing before it is authorized: it parses no filter,
    queries no task, does not panic and does not return unless the project
    exists and the permission check answered yes; a refused read is the
    forbidden error, with no call made. *)
Theorem ReadAll_authorization_first seed b search page perPage :
  (∀ project,
     GetProjectSimpleByID s (bucket_ProjectID b) = inr project →
     CanRead env s project auth = inr false →
     Bucket_ReadAll env s auth seed b search page perPage = ([], Fail ErrGenericForbidden)) ∧
  (∀ tr out,
     Bucket_ReadAll env s auth seed b search page perPage = (tr, out) →
     tr ≠ [] ∨ (∃ res, out = Return res) ∨ (∃ msg, out = Panic msg) →
     ∃ project,
       GetProjectSimpleByID s (bucket_ProjectID b) = inr project ∧
       CanRead env s project auth = inr true).
Proof.
  unfold Bucket_ReadAll, prepareRead. split.
  - intros project -> ->. done.
  - intros tr out.
    destruct (GetProjectSimpleByID s (bucket_ProjectID b)) as [err | project].
    { cbn. intros [= <- <-] [? | [[? ?] | [? ?]]]; done. }
    destruct (CanRead env s project auth) as [msg | [|]] eqn:Hcan.
    + cbn. intros [= <- <-] [? | [[? ?] | [? ?]]]; done.
    + intros _ _. by exists project.
    + cbn. intros [= <- <-] [? | [[? ?] | [? ?]]]; done.
Qed.

(** X10. A first bucket filter whose value is not an int64 (a list of ids,
    a string) makes the type assertion of the narrowing loop panic, before
    any parser call or task query. *)
Theorem ReadAll_bucket_filter_not_int64 seed b search page perPage buckets bucketMap opts
    f repr :
  prepareRead env s auth b search page perPage = ([], Return (buckets, bucketMap, opts)) →
  firstBucketFilter (opts_parsedFilters opts) = Some f →
  tf_value f = VOther repr →
  Bucket_ReadAll env s auth seed b search page perPage
    = ([], Panic "interface conversion: interface {} is not int64").
Proof.
  intros Hprep Hfirst Hvalue. unfold Bucket_ReadAll.
  rewrite Hprep. change ([], Return (buckets, bucketMap, opts)) with (ret (buckets, bucketMap, opts)).
  rewrite bind_ret_l, narrowBucketMap_first, Hfirst, Hvalue. done.
Qed.

Lemma sameButFilters_includeNulls o1 o2 :
  sameButFilters o1 o2 → opts_filterIncludeNulls o1 = opts_filterIncludeNulls o2.
Proof. unfold sameButFilters, set_opts_parsedFilters. by intros [=]. Qed.

(** X11. Every task query of a read is for the project of the request, is
    sorted by the kanban position in ascending order whatever sort the
    options of the collection carried, and keeps the filter text, the time
    zone and the null handling of those options. *)
Theorem ReadAll_query_options seed b search page perPage tr out projectID o :
  Bucket_ReadAll env s auth seed b search page perPage = (tr, out) →
  EvQuery projectID o ∈ tr →
  projectID = bucket_ProjectID b ∧
  opts_sortby o = [mkSortParam taskPropertyKanbanPosition orderAscending] ∧
  ∃ opts0,
    getTaskFilterOptsFromCollection env (bucket_TaskCollection b) = inr opts0 ∧
    opts_filter o = opts_filter opts0 ∧
    opts_filterTimezone o = opts_filterTimezone opts0 ∧
    opts_filterIncludeNulls o = opts_filterIncludeNulls opts0.
Proof.
  intros Hread Hin.
  destruct (prepareRead env s auth b search page perPage)
    as [tr0 [[[buckets bucketMap] opts] | err | msg]] eqn:Hprep.
  2,3: (unfold Bucket_ReadAll in Hread; rewrite Hprep in Hread; cbn in Hread;
        injection Hread as <- <-;
        pose proof (prepareRead_events env s auth b search page perPage) as E;
        rewrite Hprep in E; cbn in E; subst tr0; by apply elem_of_nil in Hin).
  destruct (narrowBucketMap (opts_parsedFilters opts) bucketMap)
    as [tr1 [wm | err | msg]] eqn:Hnarrow.
  2,3: (unfold Bucket_ReadAll in Hread; rewrite Hprep in Hread; cbn [bind] in Hread;
        rewrite Hnarrow in Hread; cbn in Hread; injection Hread as <- <-;
        pose proof (prepareRead_events env s auth b search page perPage) as E;
        pose proof (narrowBucketMap_events (opts_parsedFilters opts) bucketMap) as E';
        rewrite Hprep in E; rewrite Hnarrow in E'; cbn in E, E'; subst tr0 tr1;
        by apply elem_of_nil in Hin).
  destruct (ReadAll_trace _ _ _ _ _ _ _ _ _ _ _ _ _ _ _ _ Hprep Hnarrow Hread)
    as (trq & outq & trd & Hquery & -> & _ & Hq & _).
  assert (Hinq : EvQuery projectID o ∈ trq).
  { apply elem_of_app in Hin as [Hin | Hin]; [done |].
    assert (Ho : o ∈ queryCalls trd).
    { unfold queryCalls. apply list_elem_of_omap. by exists (EvQuery projectID o). }
    rewrite Hq in Ho. by apply elem_of_nil in Ho. }
  pose proof (prepareRead_Return _ _ _ _ _ _ _ _ _ _ _ Hprep)
    as (_ & _ & [users Hbuckets] & opts0 & Hopts0 & Hopts).
  split; [| split].
  - assert (Hheap : Forall (λ bb, bucket_ProjectID bb = bucket_ProjectID b) buckets).
    { rewrite Hbuckets. unfold withCreators. apply Forall_fmap.
      eapply Forall_impl; [apply findBucketsOrdered_project |]. done. }
    pose proof (queryBuckets_project (bucket_ProjectID b) (opts_filter opts)
                  (mapRange seed wm) opts buckets [] Hheap) as Hall.
    rewrite Hquery in Hall. cbn in Hall. rewrite Forall_forall in Hall.
    exact (Hall _ Hinq).
  - destruct (queryBuckets_spec _ _ _ _ _ _ _ _ _ _ Hquery) as (Hev & _).
    rewrite Forall_forall in Hev. destruct (Hev _ Hinq) as [Hsame _].
    apply sameButFilters_fields in Hsame as (_ & _ & _ & -> & _). by rewrite Hopts.
  - exists opts0. split; [done |].
    destruct (queryBuckets_spec _ _ _ _ _ _ _ _ _ _ Hquery) as (Hev & _).
    rewrite Forall_forall in Hev. destruct (Hev _ Hinq) as [Hsame _].
    pose proof (sameButFilters_includeNulls _ _ Hsame) as ->.
    apply sameButFilters_fields in Hsame as (_ & _ & _ & _ & -> & ->).
    by rewrite Hopts.
Qed.

End ReadProperties.

Lemma ReadAll_authorization_first_witness :
  ∃ project,
    GetProjectSimpleByID Fixture.board 1 = inr project ∧
    CanRead Fixture.env Fixture.board project Fixture.actor = inr true.
Proof.
  eapply (proj2 (ReadAll_authorization_first Fixture.env Fixture.board Fixture.actor []
                   (Fixture.request 0 "") "" 1 50) _ _ ltac:(evaluated)).
  right. left. eexists. reflexivity.
Defined.

Lemma ReadAll_bucket_filter_not_int64_witness :
  Bucket_ReadAll Fixture.env Fixture.board Fixture.actor []
    (Fixture.request 0 "bucket_id in 1,2") "" 1 50
  = ([], Panic "interface conversion: interface {} is not int64").
Proof.
  eapply (ReadAll_bucket_filter_not_int64 Fixture.env Fixture.board Fixture.actor []
            (Fixture.request 0 "bucket_id in 1,2") "" 1 50 _ _ _
            (mkTaskFilter "bucket_id" "in" (VOther "1,2")) "1,2"
            ltac:(evaluated) eq_refl eq_refl).
Defined.

Section ReadResults.
Context (env : Collaborators) (s : Store) (auth : Auth).

(** One round of the query loop that goes on to return. *)
Lemma queryBuckets_cons_Return F id bucket rest opts heap tasks tr res :
  queryBuckets env s auth F ((id, bucket) :: rest) opts heap tasks = (tr, Return res) →
  ∃ trp opts1 ptr bb ts n total tr2,
    scopeOpts env F id opts = (trp, Return opts1) ∧
    bucket = Some ptr ∧ heap !! ptr = Some bb ∧
    getRawTasksForProjects env s [mkProject (bucket_ProjectID bb) "" 0 0] auth opts1
      = inr (ts, n, total) ∧
    queryBuckets env s auth F rest opts1 (<[ptr := set_bucket_Count total bb]> heap)
      (tasks ++ ts) = (tr2, Return res) ∧
    tr = trp ++ EvQuery (bucket_ProjectID bb) opts1 :: tr2.
Proof.
  cbn [queryBuckets]. intros Hrun.
  apply bind_Return in Hrun as (trp & opts1 & tr' & Hscope & Hrun & ->).
  apply bind_Return in Hrun as (trb & [heap1 ts] & tr2 & Hbucket & Hrec & ->).
  unfold queryBucket in Hbucket.
  destruct (bucket ≫= _) as [[ptr bb] |] eqn:Hptr; [| discriminate].
  destruct bucket as [ptr' |]; [| done]. cbn in Hptr.
  destruct (heap !! ptr') as [bb' |] eqn:Hbb; [| done].
  cbn in Hptr. injection Hptr as -> ->.
  rewrite bind_emit in Hbucket.
  destruct (getRawTasksForProjects env s _ auth opts1) as [| [[ts' n] total]] eqn:Hq;
    [done |].
  cbn in Hbucket. injection Hbucket as <- <- <-.
  exists trp, opts1, ptr, bb, ts', n, total, tr2. done.
Qed.

Lemma scopeOpts_Return F id opts trp opts1 :
  scopeOpts env F id opts = (trp, Return opts1) →
  sameButFilters opts1 opts ∧ scopedFor env F id opts opts1.
Proof.
  unfold scopeOpts, scopedFor.
  destruct (strings_Contains F "bucket_id"); cbn [negb].
  - by intros [= <- <-].
  - rewrite bind_emit.
    destruct (getTaskFiltersFromFilterString env _ _) as [| parsed] eqn:Hp; [done |].
    cbn. intros [= <- <-]. done.
Qed.

Lemma scopedFor_mono F id opts1 opts o :
  sameButFilters opts1 opts →
  scopedFor env F id opts opts1 →
  ∀ id', scopedFor env F id' opts1 o → scopedFor env F id' opts o.
Proof.
  unfold scopedFor. intros Hsame H1 id'.
  destruct (strings_Contains F "bucket_id"); [congruence |].
  intros [Ho Hp]. split; [by etrans |].
  apply sameButFilters_fields in Hsame as (_ & _ & _ & _ & _ & <-). done.
Qed.

(** A cell of the heap that no entry points at is left as it was. *)
Lemma queryBuckets_untouched F entries opts heap tasks tr opts' heap' tasks' i :
  queryBuckets env s auth F entries opts heap tasks = (tr, Return (opts', heap', tasks')) →
  Some i ∉ entries.*2 →
  heap' !! i = heap !! i.
Proof.
  revert opts heap tasks tr.
  induction entries as [| [id bucket] rest IH]; intros opts heap tasks tr Hrun Hnot.
  { cbn in Hrun. by injection Hrun as <- <- <- <-. }
  apply queryBuckets_cons_Return in Hrun
    as (trp & opts1 & ptr & bb & ts & n & total & tr2 & _ & -> & Hbb & _ & Hrec & _).
  cbn in Hnot. apply not_elem_of_cons in Hnot as [Hne Hnot].
  rewrite (IH _ _ _ _ Hrec Hnot). apply list_lookup_insert_ne. congruence.
Qed.

(** The count of a bucket the loop visits is the total of the query issued
    for it. *)
Lemma queryBuckets_counts F entries opts heap tasks tr opts' heap' tasks' :
  queryBuckets env s auth F entries opts heap tasks = (tr, Return (opts', heap', tasks')) →
  NoDup entries.*2 →
  ∀ id i, (id, Some i) ∈ entries →
    ∃ hb bb o ts n,
      heap !! i = Some hb ∧ heap' !! i = Some bb ∧ sameButCount hb bb ∧
      EvQuery (bucket_ProjectID hb) o ∈ tr ∧
      getRawTasksForProjects env s [mkProject (bucket_ProjectID hb) "" 0 0] auth o
        = inr (ts, n, bucket_Count bb) ∧
      scopedFor env F id opts o.
Proof.
  revert opts heap tasks tr.
  induction entries as [| [id0 bucket] rest IH]; intros opts heap tasks tr Hrun Hnodup id i Hin.
  { by apply elem_of_nil in Hin. }
  apply queryBuckets_cons_Return in Hrun
    as (trp & opts1 & ptr & bb0 & ts & n & total & tr2 & Hscope & -> & Hbb0 & Hq & Hrec & ->).
  apply scopeOpts_Return in Hscope as [Hsame Hscoped].
  cbn in Hnodup. apply NoDup_cons in Hnodup as [Hfresh Hnodup].
  apply elem_of_cons in Hin as [[= -> ->] | Hin].
  - exists bb0, (set_bucket_Count total bb0), opts1, ts, n.
    split; [done |]. split.
    { rewrite (queryBuckets_untouched _ _ _ _ _ _ _ _ _ _ Hrec Hfresh).
      apply list_lookup_insert_eq. by eapply lookup_lt_Some. }
    split; [done |]. split; [| done].
    apply elem_of_app. right. apply list_elem_of_here.
  - destruct (IH _ _ _ _ Hrec Hnodup _ _ Hin)
      as (hb & bb & o & ts' & n' & Hhb & Hbb & Hsb & Hev & Hq' & Hsc).
    assert (Hne : i ≠ ptr).
    { intros ->. apply Hfresh. apply list_elem_of_fmap. by exists (id, Some ptr). }
    rewrite list_lookup_insert_ne in Hhb by done.
    exists hb, bb, o, ts', n'. repeat (split; [done |]). split; [| split; [done |]].
    + apply elem_of_app. right. by apply list_elem_of_further.
    + by eapply scopedFor_mono.
Qed.

Lemma prepareRead_users b search page perPage tr buckets bucketMap opts :
  prepareRead env s auth b search page perPage = (tr, Return (buckets, bucketMap, opts)) →
  ∃ users,
    getUsersOrLinkSharesFromIDs env s
      (bucket_CreatedByID <$> findBucketsOrdered s (bucket_ProjectID b)) = inr users ∧
    buckets = withCreators users (findBucketsOrdered s (bucket_ProjectID b)).
Proof.
  unfold prepareRead.
  destruct (GetProjectSimpleByID s (bucket_ProjectID b)) as [err | project]; [discriminate |].
  intros Hprep.
  apply bind_Return in Hprep as (tr1 & can & tr2 & Hcan & Hprep & ->).
  destruct can; cbn [negb] in Hprep; [| discriminate].
  apply bind_Return in Hprep as (tr3 & users & tr4 & Husers & Hprep & ->).
  apply liftCollaborator_Return in Husers as [Husers ->].
  apply bind_Return in Hprep as (tr5 & opts0 & tr6 & Hopts & Hprep & ->).
  injection Hprep as <- <- <- <-. eauto.
Qed.

Lemma StronglySorted_fmap_inv {A B} (f : A → B) (R1 : relation A) (R2 : relation B)
    (l : list A) :
  (∀ x y, R2 (f x) (f y) → R1 x y) →
  StronglySorted R2 (f <$> l) → StronglySorted R1 l.
Proof.
  intros HR. induction l as [| x l IH]; cbn; [constructor |].
  intros Hs. apply StronglySorted_inv in Hs as [Hs Hall].
  constructor; [by apply IH |].
  rewrite Forall_fmap in Hall. eapply Forall_impl; [exact Hall |]. intros y. apply HR.
Qed.

Lemma bucketRow_sameButCount b1 b2 : sameButCount b1 b2 → bucketRow b1 = bucketRow b2.
Proof. unfold sameButCount, set_bucket_Count, bucketRow. intros [=]. congruence. Qed.

(** X12. The buckets a read returns are the stored rows of the project,
    column for column, in ascending order of position; each carries as
    creator the user the batch lookup returned for its creator id, or none
    when the lookup has no such user. *)
Theorem ReadAll_returns_rows seed b search page perPage tr result resultCount total :
  Bucket_ReadAll env s auth seed b search page perPage
    = (tr, Return (result, resultCount, total)) →
  bucketRow <$> result = findBucketsOrdered s (bucket_ProjectID b) ∧
  StronglySorted positionLe result ∧
  Forall (λ bb, bucket_ProjectID bb = bucket_ProjectID b) result ∧
  ∃ users,
    getUsersOrLinkSharesFromIDs env s
      (bucket_CreatedByID <$> findBucketsOrdered s (bucket_ProjectID b)) = inr users ∧
    ∀ bb, bb ∈ result → bucket_CreatedBy bb = users !! bucket_CreatedByID bb.
Proof.
  intros Hread.
  apply ReadAll_Return in Hread
    as (buckets & bucketMap & opts & wm & trq & opts' & heap & fetched & tasks & result'
        & Hprep & Hnarrow & Hquery & Henrich & Hdist & Hresult & -> & Hres).
  injection Hres as -> -> ->.
  destruct (prepareRead_users _ _ _ _ _ _ _ _ Hprep) as (users & Husers & Hbuckets).
  destruct (queryBuckets_spec _ _ _ _ _ _ _ _ _ _ Hquery) as (_ & _ & _ & Hret).
  destruct (Hret _ _ _ eq_refl) as (Hheap & _).
  assert (Hat : ∀ i bb, result' !! i = Some bb →
                  ∃ r, findBucketsOrdered s (bucket_ProjectID b) !! i = Some r ∧
                       bucketRow bb = r ∧
                       bucket_CreatedBy bb = users !! bucket_CreatedByID bb).
  { intros i bb Hbb. rewrite Hresult, list_lookup_imap in Hbb.
    destruct (heap !! i) as [hb |] eqn:Hhb; [| done].
    cbn in Hbb. injection Hbb as <-.
    destruct (Forall2_lookup_r _ _ _ _ _ Hheap Hhb) as (pb & Hpb & Hsame).
    rewrite Hbuckets in Hpb. unfold withCreators in Hpb.
    rewrite list_lookup_fmap in Hpb.
    destruct (findBucketsOrdered s (bucket_ProjectID b) !! i) as [r |] eqn:Hr; [| done].
    cbn in Hpb. injection Hpb as <-. exists r. split; [done |].
    assert (Hrow : bucketRow r = r).
    { apply list_elem_of_lookup_2 in Hr. unfold findBucketsOrdered in Hr.
      apply list_elem_of_fmap in Hr as (r0 & -> & _). done. }
    split.
    - transitivity (bucketRow hb); [done |].
      rewrite <- (bucketRow_sameButCount _ _ Hsame). exact Hrow.
    - unfold sameButCount, set_bucket_Count in Hsame. injection Hsame as _ _ _ _ _ _ _ _ Hby Hid.
      cbn in *. by rewrite <- Hby, <- Hid. }
  assert (Hrows : bucketRow <$> result' = findBucketsOrdered s (bucket_ProjectID b)).
  { apply list_eq. intros i. rewrite list_lookup_fmap.
    destruct (result' !! i) as [bb |] eqn:Hbb.
    - destruct (Hat _ _ Hbb) as (r & -> & <- & _). done.
    - symmetry. apply lookup_ge_None. apply lookup_ge_None in Hbb.
      rewrite Hresult, length_imap in Hbb.
      rewrite <- (Forall2_length _ _ _ Hheap), Hbuckets in Hbb.
      unfold withCreators in Hbb. by rewrite length_fmap in Hbb. }
  split; [done |]. split; [| split].
  - apply (StronglySorted_fmap_inv bucketRow positionLe positionLe); [done |].
    rewrite Hrows. unfold findBucketsOrdered.
    apply (StronglySorted_fmap bucketRow positionLe positionLe); [done |].
    apply StronglySorted_merge_sort; apply _.
  - rewrite Forall_forall. intros bb Hbb.
    apply list_elem_of_lookup in Hbb as [i Hbb].
    destruct (Hat _ _ Hbb) as (r & Hr & <- & _).
    pose proof (findBucketsOrdered_project s (bucket_ProjectID b)) as Hall.
    rewrite Forall_forall in Hall.
    apply (Hall _ (list_elem_of_lookup_2 _ _ _ Hr)).
  - exists users. split; [done |]. intros bb Hbb.
    apply list_elem_of_lookup in Hbb as [i Hbb].
    by destruct (Hat _ _ Hbb) as (r & _ & _ & ?).
Qed.

End ReadResults.

Section ReadCounts.
Context (env : Collaborators) (s : Store) (auth : Auth).

Lemma prepareRead_parsedFilters b search page perPage tr buckets bucketMap opts opts0 :
  prepareRead env s auth b search page perPage = (tr, Return (buckets, bucketMap, opts)) →
  getTaskFilterOptsFromCollection env (bucket_TaskCollection b) = inr opts0 →
  opts = set_opts_paging [mkSortParam taskPropertyKanbanPosition orderAscending]
           page perPage search opts0.
Proof.
  intros Hprep Hopts.
  apply prepareRead_Return in Hprep as (_ & _ & _ & opts0' & Hopts' & ->).
  congruence.
Qed.

Lemma prepareRead_fresh b search page perPage tr buckets bucketMap opts :
  prepareRead env s auth b search page perPage = (tr, Return (buckets, bucketMap, opts)) →
  Forall (λ bb, bucket_Count bb = 0 ∧ bucket_Tasks bb = []) buckets.
Proof.
  intros Hprep.
  apply prepareRead_Return in Hprep as (_ & _ & [users ->] & _).
  unfold withCreators, findBucketsOrdered.
  rewrite <- list_fmap_compose. rewrite Forall_fmap. by apply Forall_true.
Qed.

(** X13. When the parsed filters of a read name a bucket, every returned
    bucket other than that one comes back with a count of 0 and with no
    tasks, whatever the project holds in it. *)
Theorem ReadAll_narrowed_others_empty seed b search page perPage tr result n total
    opts0 f v :
  Bucket_ReadAll env s auth seed b search page perPage = (tr, Return (result, n, total)) →
  getTaskFilterOptsFromCollection env (bucket_TaskCollection b) = inr opts0 →
  firstBucketFilter (opts_parsedFilters opts0) = Some f →
  tf_value f = VInt64 v →
  ∀ bb, bb ∈ result → bucket_ID bb ≠ v →
        bucket_Count bb = 0 ∧ bucket_Tasks bb = [].
Proof.
  intros Hread Hopts Hfirst Hv bb Hbb Hne.
  apply ReadAll_Return in Hread
    as (buckets & bucketMap & opts & wm & trq & opts' & heap & fetched & tasks & result'
        & Hprep & Hnarrow & Hquery & Henrich & Hdist & Hresult & -> & Hres).
  injection Hres as -> _ _.
  pose proof (prepareRead_parsedFilters _ _ _ _ _ _ _ _ _ Hprep Hopts) as ->.
  pose proof (prepareRead_fresh _ _ _ _ _ _ _ _ Hprep) as Hfresh.
  destruct (prepareRead_pointers _ _ _ _ _ _ _ _ _ _ _ Hprep) as (_ & _ & _ & Hptr).
  pose proof (narrowBucketMap_pointers _ _ _ _ buckets Hnarrow Hptr) as Hwm.
  rewrite narrowBucketMap_first in Hnarrow. cbn [opts_parsedFilters set_opts_paging] in Hnarrow.
  rewrite Hfirst, Hv in Hnarrow. injection Hnarrow as <-.
  rewrite mapRange_singleton in Hquery.
  apply list_elem_of_lookup in Hbb as [i Hbb].
  rewrite Hresult, list_lookup_imap in Hbb.
  destruct (heap !! i) as [hb |] eqn:Hhb; [| done].
  cbn in Hbb. injection Hbb as <-.
  destruct (queryBuckets_spec _ _ _ _ _ _ _ _ _ _ Hquery) as (_ & _ & _ & Hret).
  destruct (Hret _ _ _ eq_refl) as (Hheap & _).
  destruct (Forall2_lookup_r _ _ _ _ _ Hheap Hhb) as (pb & Hpb & Hsame).
  assert (Hnot : ¬ ({[v := default None (bucketMap !! v)]} : gmap Z (option nat))
                     !! v = Some (Some i)).
  { intros Hlook. destruct (Hwm _ _ Hlook) as (pb' & Hpb' & Hid).
    rewrite Hpb in Hpb'. injection Hpb' as <-.
    apply sameButCount_fields in Hsame. apply Hne. cbn. by rewrite <- (proj1 Hsame). }
  assert (Huntouched : heap !! i = buckets !! i).
  { eapply queryBuckets_untouched; [exact Hquery |].
    cbn. intros Hin. apply list_elem_of_singleton in Hin.
    apply Hnot. rewrite lookup_singleton_eq. by rewrite <- Hin. }
  rewrite Hhb, Hpb in Huntouched. injection Huntouched as ->.
  rewrite Forall_forall in Hfresh.
  destruct (Hfresh _ (list_elem_of_lookup_2 _ _ _ Hpb)) as [Hcount Htasks].
  split; [exact Hcount |].
  cbn. rewrite Htasks. cbn. unfold placedAt.
  generalize tasks. intros ts.
  induction ts as [| t ts IH]; [done |].
  rewrite filter_cons_False; [exact IH |].
  intros Hlook. apply lookup_singleton_Some in Hlook as [Heq Hdef].
  apply Hnot. by rewrite lookup_singleton_eq, Hdef.
Qed.

(** X14. After a read, the count of every bucket in the working set is the
    total that the task query issued for that bucket reported: the query of
    the request options as they are when the filter text mentions
    bucket_id, and otherwise the query whose parsed filters are the parse of
    the filter text scoped to that bucket. *)
Theorem ReadAll_count_is_query_total seed b search page perPage tr result n total
    buckets bucketMap opts wm id i :
  Bucket_ReadAll env s auth seed b search page perPage = (tr, Return (result, n, total)) →
  prepareRead env s auth b search page perPage = ([], Return (buckets, bucketMap, opts)) →
  narrowBucketMap (opts_parsedFilters opts) bucketMap = ([], Return wm) →
  wm !! id = Some (Some i) →
  ∃ bb o ts m,
    result !! i = Some bb ∧ bucket_ID bb = id ∧
    EvQuery (bucket_ProjectID b) o ∈ tr ∧
    getRawTasksForProjects env s [mkProject (bucket_ProjectID b) "" 0 0] auth o
      = inr (ts, m, bucket_Count bb) ∧
    scopedFor env (opts_filter opts) id opts o.
Proof.
  intros Hread Hprep Hnarrow Hlook.
  apply ReadAll_Return in Hread
    as (buckets' & bucketMap' & opts1 & wm' & trq & opts' & heap & fetched & tasks & result'
        & Hprep' & Hnarrow' & Hquery & Henrich & Hdist & Hresult & -> & Hres).
  injection Hres as -> _ _.
  rewrite Hprep in Hprep'. injection Hprep' as <- <- <-.
  rewrite Hnarrow in Hnarrow'. injection Hnarrow' as <-.
  destruct (prepareRead_pointers _ _ _ _ _ _ _ _ _ _ _ Hprep) as (_ & _ & _ & Hptr).
  pose proof (narrowBucketMap_pointers _ _ _ _ buckets Hnarrow Hptr) as Hwm.
  destruct (queryBuckets_spec _ _ _ _ _ _ _ _ _ _ Hquery) as (_ & _ & _ & Hret).
  destruct (Hret _ _ _ eq_refl) as (_ & Hsome & _).
  assert (Hnodup : NoDup (mapRange seed wm).*2).
  { apply NoDup_fmap_2_strong.
    - intros [id1 p1] [id2 p2] H1 H2 Heq. cbn in Heq. subst p2.
      rewrite Forall_forall in Hsome.
      destruct (Hsome _ H1) as (j & Hj & _). cbn in Hj. subst p1.
      apply mapRange_elem in H1, H2.
      destruct (Hwm _ _ H1) as (b1 & Hb1 & <-).
      destruct (Hwm _ _ H2) as (b2 & Hb2 & <-).
      congruence.
    - rewrite mapRange_Permutation. apply NoDup_map_to_list. }
  destruct (queryBuckets_counts env s auth _ _ _ _ _ _ _ _ _ Hquery Hnodup id i)
    as (hb & bb & o & ts & m & Hhb & Hbb & Hsame & Hev & Hq & Hsc).
  { by apply mapRange_elem. }
  destruct (Hwm _ _ Hlook) as (pb & Hpb & Hid).
  rewrite Hhb in Hpb. injection Hpb as ->.
  assert (Hproj : bucket_ProjectID pb = bucket_ProjectID b).
  { apply prepareRead_Return in Hprep as (_ & _ & [users ->] & _).
    unfold withCreators in Hhb. rewrite list_lookup_fmap in Hhb.
    destruct (findBucketsOrdered s (bucket_ProjectID b) !! i) as [r |] eqn:Hr; [| done].
    cbn in Hhb. injection Hhb as <-. cbn.
    pose proof (findBucketsOrdered_project s (bucket_ProjectID b)) as Hall.
    rewrite Forall_forall in Hall.
    apply (Hall _ (list_elem_of_lookup_2 _ _ _ Hr)). }
  rewrite Hproj in Hev, Hq.
  exists (set_bucket_Tasks (bucket_Tasks bb ++ placedAt wm i tasks) bb), o, ts, m.
  split. { by rewrite Hresult, list_lookup_imap, Hbb. }
  split. { cbn. apply sameButCount_fields in Hsame. by rewrite <- (proj1 Hsame). }
  split. { apply elem_of_app. by left. }
  done.
Qed.

End ReadCounts.

Lemma ReadAll_query_options_witness :
  ∃ tr out o,
    Bucket_ReadAll Fixture.env Fixture.board Fixture.actor []
      (Fixture.request 0 "") "" 1 50 = (tr, out) ∧
    EvQuery 1 o ∈ tr ∧
    opts_sortby o = [mkSortParam taskPropertyKanbanPosition orderAscending].
Proof.
  eassert (R : Bucket_ReadAll Fixture.env Fixture.board Fixture.actor []
                 (Fixture.request 0 "") "" 1 50 = (_, _)) by evaluated.
  match type of R with
  | _ = (?tr, ?out) =>
      eassert (Hin : EvQuery 1 _ ∈ tr)
        by (apply list_elem_of_further, list_elem_of_here);
      eexists tr, out, _; split; [exact R |]; split; [exact Hin |];
      exact (proj1 (proj2 (ReadAll_query_options Fixture.env Fixture.board Fixture.actor
                             [] (Fixture.request 0 "") "" 1 50 _ _ _ _ R Hin)))
  end.
Defined.

Lemma ReadAll_returns_rows_witness :
  ∃ tr result,
    Bucket_ReadAll Fixture.env Fixture.board Fixture.actor []
      (Fixture.request 0 "") "" 1 50 = (tr, Return (result, 2, 2)) ∧
    bucketRow <$> result = findBucketsOrdered Fixture.board 1.
Proof.
  eassert (R : Bucket_ReadAll Fixture.env Fixture.board Fixture.actor []
                 (Fixture.request 0 "") "" 1 50 = (_, Return (_, 2, 2))) by evaluated.
  eexists _, _. split; [exact R |].
  exact (proj1 (ReadAll_returns_rows Fixture.env Fixture.board Fixture.actor
                  [] (Fixture.request 0 "") "" 1 50 _ _ _ _ R)).
Defined.

Lemma ReadAll_narrowed_others_empty_witness :
  ∃ tr result bb,
    Bucket_ReadAll Fixture.env Fixture.board Fixture.actor []
      (Fixture.request 0 "bucket_id = 1") "" 1 50 = (tr, Return (result, 2, 2)) ∧
    result !! 1%nat = Some bb ∧ bucket_ID bb = 2 ∧
    bucket_Count bb = 0 ∧ bucket_Tasks bb = [].
Proof.
  eassert (R : Bucket_ReadAll Fixture.env Fixture.board Fixture.actor []
                 (Fixture.request 0 "bucket_id = 1") "" 1 50 = (_, Return (_, 2, 2)))
    by evaluated.
  match type of R with
  | _ = (?tr, Return (?result, _, _)) =>
      eassert (Hbb : result !! 1%nat = Some _) by reflexivity;
      match type of Hbb with
      | _ = Some ?bb =>
          exists tr, result, bb; split; [exact R |]; split; [exact Hbb |];
          split; [reflexivity |];
          refine (ReadAll_narrowed_others_empty Fixture.env Fixture.board Fixture.actor
                   [] (Fixture.request 0 "bucket_id = 1") "" 1 50 _ _ _ _ _
                   (mkTaskFilter "bucket_id" "=" (VInt64 1)) 1
                   R ltac:(evaluated) ltac:(evaluated) eq_refl bb
                   (list_elem_of_lookup_2 _ _ _ Hbb) _);
          vm_compute; discriminate
      end
  end.
Defined.

Lemma ReadAll_count_is_query_total_witness :
  ∃ tr result bb o ts m,
    Bucket_ReadAll Fixture.env Fixture.board Fixture.actor []
      (Fixture.request 0 "") "" 1 50 = (tr, Return (result, 2, 2)) ∧
    result !! 0%nat = Some bb ∧ bucket_ID bb = 1 ∧
    EvQuery 1 o ∈ tr ∧
    Fixture.query Fixture.board [mkProject 1 "" 0 0] Fixture.actor o
      = inr (ts, m, bucket_Count bb).
Proof.
  eassert (R : Bucket_ReadAll Fixture.env Fixture.board Fixture.actor []
                 (Fixture.request 0 "") "" 1 50 = (_, Return (_, 2, 2))) by evaluated.
  pose (bm := bucketMapFrom 0 (findBucketsOrdered Fixture.board 1) ∅).
  eassert (P : prepareRead Fixture.env Fixture.board Fixture.actor
                 (Fixture.request 0 "") "" 1 50 = ([], Return (_, bm, _))) by evaluated.
  match type of P with
  | _ = (_, Return (_, _, ?opts)) =>
      assert (N : narrowBucketMap (opts_parsedFilters opts) bm = ([], Return bm))
        by evaluated
  end.
  assert (L : bm !! 1 = Some (Some 0%nat)) by evaluated.
  destruct (ReadAll_count_is_query_total Fixture.env Fixture.board Fixture.actor
              [] (Fixture.request 0 "") "" 1 50 _ _ _ _ _ _ _ _ 1 0%nat R P N L)
    as (bb & o & ts & m & Hbb & Hid & Hev & Hq & _).
  eexists _, _, bb, o, ts, m. split; [exact R |]. done.
Defined.

(** ** The list view *)

Section DragAndDrop.
Context (baseline increment decrement : Q).

Lemma at_index_insert_ne (tasks : list ListView.ITask) (i j : Z) t :
  0 <= i → i ≠ j →
  ListView.at_index (<[Z.to_nat i := t]> tasks) j = ListView.at_index tasks j.
Proof.
  intros Hi Hne. unfold ListView.at_index.
  destruct (decide (j < 0)); [done |].
  apply list_lookup_insert_ne. lia.
Qed.

(** X15. The position computed for a dropped task depends on its two
    neighbours only: whatever task sits at the drop index, the result is the
    same. *)
Theorem droppedPosition_ignores_dragged (tasks : list ListView.ITask) (newIndex : Z)
    (t : ListView.ITask) :
  0 <= newIndex →
  ListView.droppedPosition baseline increment decrement
    (<[Z.to_nat newIndex := t]> tasks) newIndex
  = ListView.droppedPosition baseline increment decrement tasks newIndex.
Proof.
  intros Hi. unfold ListView.droppedPosition.
  rewrite !at_index_insert_ne by lia. done.
Qed.

(** X16. Saving a drop keeps the length of the list and every task at
    another index; when the task store answers with a task of the id it was
    sent, the ids of the list are unchanged and in the same order. *)
Theorem saveTaskPosition_frame (update : ListView.ITask → ListView.ITask)
    (tasks tasks' : list ListView.ITask) (newIndex : Z) :
  ListView.saveTaskPosition baseline increment decrement update tasks newIndex
    = Some tasks' →
  length tasks' = length tasks ∧
  (∀ j, j ≠ Z.to_nat newIndex → tasks' !! j = tasks !! j) ∧
  ((∀ t, ListView.id (update t) = ListView.id t) →
   ListView.id <$> tasks' = ListView.id <$> tasks).
Proof.
  unfold ListView.saveTaskPosition, ListView.at_index.
  destruct (decide (newIndex < 0)); [done |].
  destruct (tasks !! Z.to_nat newIndex) as [task |] eqn:Htask; [| done].
  intros [= <-]. split; [by rewrite length_insert |].
  split; [by intros j Hj; apply list_lookup_insert_ne |].
  intros Hid. rewrite list_fmap_insert, Hid. cbn.
  apply list_insert_id. by rewrite list_lookup_fmap, Htask.
Qed.

End DragAndDrop.

Lemma droppedPosition_ignores_dragged_witness :
  (ListView.droppedPosition 0 65536 65536
     (<[Z.to_nat 1 := ListView.mkITask 9 100]>
        [ListView.mkITask 1 1; ListView.mkITask 3 7; ListView.mkITask 2 2]) 1
   = ListView.droppedPosition 0 65536 65536
       [ListView.mkITask 1 1; ListView.mkITask 3 7; ListView.mkITask 2 2] 1).
Proof.
  apply (droppedPosition_ignores_dragged 0 65536 65536
           [ListView.mkITask 1 1; ListView.mkITask 3 7; ListView.mkITask 2 2] 1
           (ListView.mkITask 9 100)).
  lia.
Defined.

Lemma saveTaskPosition_frame_witness :
  ∃ tasks',
    ListView.saveTaskPosition 0 65536 65536 (λ t, t)
      [ListView.mkITask 1 1; ListView.mkITask 3 7; ListView.mkITask 2 2] 1 = Some tasks' ∧
    length tasks' = 3%nat.
Proof.
  eexists. split; [reflexivity |].
  exact (proj1 (saveTaskPosition_frame 0 65536 65536 (λ t, t)
                  [ListView.mkITask 1 1; ListView.mkITask 3 7; ListView.mkITask 2 2]
                  _ 1 eq_refl)).
Defined.

(** [updateTasks] keeps the ids of the list. *)
Lemma updateTasks_ids tasks updatedTask :
  ListView.id <$> TaskList.updateTasks tasks updatedTask = ListView.id <$> tasks.
Proof.
  induction tasks as [| t rest IH]; [done |]. cbn.
  destruct (decide _) as [Heq |]; cbn; congruence.
Qed.

(** X17. [updateTasks] replaces the first task that has the id of the
    updated task and nothing else; a list without such a task is left as it
    is; in both cases the ids of the list and their order are unchanged. *)
Theorem updateTasks_first_match tasks updatedTask :
  ListView.id <$> TaskList.updateTasks tasks updatedTask = ListView.id <$> tasks ∧
  match list_find (λ t, ListView.id t = ListView.id updatedTask) tasks with
  | Some (i, _) => TaskList.updateTasks tasks updatedTask = <[i := updatedTask]> tasks
  | None => TaskList.updateTasks tasks updatedTask = tasks
  end.
Proof.
  split; [apply updateTasks_ids |].
  induction tasks as [| t rest IH]; [done |].
  cbn [TaskList.updateTasks list_find].
  destruct (decide (ListView.id t = ListView.id updatedTask)); [done |].
  destruct (list_find _ rest) as [[i t'] |]; cbn; by rewrite IH.
Qed.

Lemma keepTask_mono (ids ids' : gset Z) t :
  ids' ⊆ ids → TaskList.keepTask ids t = true → TaskList.keepTask ids' t = true.
Proof.
  unfold TaskList.keepTask. intros Hsub.
  destruct (TaskList.parenttask t) as [parents |]; [| done].
  rewrite !existsb_exists. intros (pt & Hin & Hpt). exists pt. split; [done |].
  apply bool_decide_eq_true in Hpt. apply bool_decide_eq_true. set_solver.
Qed.

(** X18. The subtask filter of the list view: with a saved filter (negative
    project id) every loaded task is shown; otherwise a loaded task is shown
    exactly when it has no parent relation or one of its parents is not
    among the loaded tasks, so a task with an empty parent list is hidden.
    The shown tasks keep their order, and filtering them again changes
    nothing. *)
Theorem watchAllTasks_spec (projectId : Z) (allTasks : list TaskList.ITask) :
  let tasks := TaskList.watchAllTasks projectId allTasks in
  (projectId < 0 → tasks = allTasks) ∧
  (0 <= projectId →
   ∀ t, t ∈ tasks ↔
        t ∈ allTasks ∧
        (TaskList.parenttask t = None ∨
         ∃ parents pt, TaskList.parenttask t = Some parents ∧ pt ∈ parents ∧
                       pt ∉ TaskList.id <$> allTasks)) ∧
  tasks `sublist_of` allTasks ∧
  TaskList.watchAllTasks projectId tasks = tasks.
Proof.
  unfold TaskList.watchAllTasks. cbn zeta.
  destruct (decide (projectId < 0)) as [Hneg | Hpos].
  { split; [done |]. split; [lia |]. split; [done |].
    by destruct (decide (projectId < 0)). }
  split; [lia |]. split; [| split].
  - intros _ t. rewrite list_elem_of_filter. unfold TaskList.keepTask.
    split.
    + intros [Hkeep Hin]. split; [done |].
      destruct (TaskList.parenttask t) as [parents |]; [right | by left].
      apply Is_true_true, existsb_exists in Hkeep as (pt & Hpt & Hmiss).
      apply bool_decide_eq_true in Hmiss. rewrite elem_of_list_to_set in Hmiss.
      apply list_elem_of_In in Hpt. eauto.
    + intros [Hin [Hnone | (parents & pt & Hsome & Hpt & Hmiss)]]; split; try done.
      * by rewrite Hnone.
      * rewrite Hsome. apply Is_true_true, existsb_exists. exists pt.
        split; [by apply list_elem_of_In |].
        apply bool_decide_eq_true. by rewrite elem_of_list_to_set.
  - apply sublist_filter.
  - set (ids := list_to_set (TaskList.id <$> allTasks) : gset Z).
    apply filter_all. rewrite Forall_forall. intros t Ht.
    apply list_elem_of_filter in Ht as [Hkeep _].
    apply Is_true_true. apply Is_true_true in Hkeep.
    eapply keepTask_mono; [| exact Hkeep].
    intros x. rewrite elem_of_list_to_set, list_elem_of_fmap.
    intros (y & -> & Hy). apply elem_of_list_to_set, list_elem_of_fmap.
    exists y. split; [done |].
    by apply list_elem_of_filter in Hy as [_ ?].
Qed.

(** ** The Trello migration *)

Section TrelloConversion.
Context (srv : Trello.Services) (token : string).

Lemma convertAttachments_spec card attachments acc cover acc' cover' :
  Trello.convertAttachments srv token card attachments acc cover = inr (acc', cover') →
  ∃ new,
    acc' = acc ++ new ∧
    (λ a, Trello.file_Name (Trello.taskAttachment_File a)) <$> new
      = Trello.attachment_Name
          <$> filter (λ a, Trello.attachment_IsUpload a = true) attachments ∧
    (cover' = cover ∧ Forall (λ a, Trello.taskAttachment_ID a = 0) new ∨
     cover' = 42 ∧ Forall (λ a, Trello.taskAttachment_ID a = 0 ∨
                                Trello.taskAttachment_ID a = 42) new ∧
     ∃ a, a ∈ new ∧ Trello.taskAttachment_ID a = 42).
Proof.
  revert acc cover.
  induction attachments as [| a rest IH]; intros acc cover; cbn [Trello.convertAttachments].
  { intros [= <- <-]. exists []. rewrite app_nil_r. split; [done |]. split; [done |].
    left. by split. }
  destruct (Trello.attachment_IsUpload a) eqn:Hup; cbn [negb].
  2: { intros Hrun. rewrite filter_cons_False by (by rewrite Hup). by apply IH. }
  rewrite filter_cons_True by done.
  destruct (Trello.DownloadFileWithHeaders srv _ _) as [err | buf]; [done |].
  destruct (decide _) as [Hcover | Hcover]; intros Hrun;
    destruct (IH _ _ Hrun) as (new & -> & Hnames & Hids);
    eexists (_ :: new); (split; [by rewrite <- app_assoc |]);
    (split; [cbn; by rewrite Hnames |]).
  - right. split; [by destruct Hids as [[-> _] | [-> _]] |]. split.
    + constructor; [by right |].
      destruct Hids as [[_ Hall] | (_ & Hall & _)]; [| done].
      eapply Forall_impl; [exact Hall |]. by left.
    + eexists. split; [apply list_elem_of_here | done].
  - destruct Hids as [[-> Hall] | (-> & Hall & a' & Hin & Hid)].
    + left. split; [done |]. by constructor.
    + right. split; [done |]. split; [constructor; [by left | done] |].
      exists a'. split; [by apply list_elem_of_further | done].
Qed.

Lemma convertCard_Return bucketID card task :
  Trello.convertCard srv token bucketID card = inr task →
  ∃ html uploads cover0 attachments cover,
    Trello.goldmark_Convert srv (Trello.card_Desc card) = inr html ∧
    Trello.convertAttachments srv token card (Trello.card_Attachments card) [] 0
      = inr (uploads, cover0) ∧
    Trello.convertManualCover srv card uploads cover0 = inr (attachments, cover) ∧
    task = Trello.mkTask (Trello.card_Name card) bucketID
             (fold_left Trello.appendChecklist (Trello.card_Checklists card) html)
             (default 0 (Trello.card_Due card))
             (Trello.convertLabel <$> Trello.card_Labels card) attachments cover.
Proof.
  unfold Trello.convertCard, Trello.convertMarkdownToHTML.
  destruct (Trello.goldmark_Convert srv _) as [err | html]; [done |].
  destruct (Trello.convertAttachments _ _ _ _ _ _) as [err | [uploads cover0]]; [done |].
  destruct (Trello.convertManualCover _ _ _ _) as [err | [attachments cover]] eqn:Hm; [done |].
  intros [= <-]. by exists html, uploads, cover0, attachments, cover.
Qed.

(** X19. The attachments of a converted card are its uploaded attachments in
    their order (the others are never attached), followed by the last scaled
    cover when the cover was set by hand.  The cover id of the task is 0, 42
    or 43, it is 43 whenever a hand-set cover was attached, and when it is
    not 0 an attachment of the task carries it. *)
Theorem convertCard_attachments bucketID card task :
  Trello.convertCard srv token bucketID card = inr task →
  let uploads := filter (λ a, Trello.attachment_IsUpload a = true)
                   (Trello.card_Attachments card) in
  let manual := if Trello.card_ManualCoverAttachment card
                then option_list (last (Trello.card_Cover_Scaled card)) else [] in
  (λ a, Trello.file_Name (Trello.taskAttachment_File a)) <$> Trello.task_Attachments task
    = (Trello.attachment_Name <$> uploads)
      ++ ((λ cover, Trello.scaled_ID cover +:+ ".jpg") <$> manual) ∧
  Trello.task_CoverImageAttachmentID task ∈ [0; 42; 43] ∧
  (manual ≠ [] → Trello.task_CoverImageAttachmentID task = 43) ∧
  (Trello.task_CoverImageAttachmentID task ≠ 0 →
   ∃ a, a ∈ Trello.task_Attachments task ∧
        Trello.taskAttachment_ID a = Trello.task_CoverImageAttachmentID task).
Proof.
  intros Hrun.
  apply convertCard_Return in Hrun
    as (html & uploads' & cover0 & attachments & cover & _ & Hatt & Hman & ->).
  apply convertAttachments_spec in Hatt as (new & -> & Hnames & Hids).
  cbn [app Trello.task_Attachments Trello.task_CoverImageAttachmentID] in *.
  assert (Hcover0 : (cover0 = 0 ∨ cover0 = 42) ∧
            (cover0 ≠ 0 → ∃ a, a ∈ new ∧ Trello.taskAttachment_ID a = cover0)).
  { destruct Hids as [[-> _] | (-> & _ & a & Hin & Hid)].
    - split; [by left | done].
    - split; [by right | eauto]. }
  destruct Hcover0 as [Hc0 Hwit].
  assert (Hmem : cover0 ∈ [0; 42; 43]).
  { destruct Hc0 as [-> | ->]; [apply list_elem_of_here |].
    apply list_elem_of_further, list_elem_of_here. }
  unfold Trello.convertManualCover in Hman.
  destruct (Trello.card_ManualCoverAttachment card);
    [destruct (last (Trello.card_Cover_Scaled card)) as [scaled |] |].
  - destruct (Trello.DownloadFile srv _) as [err | buf]; [done |].
    injection Hman as <- <-. cbn.
    split; [by rewrite fmap_app, Hnames |].
    split; [do 2 apply list_elem_of_further; apply list_elem_of_here |]. split; [done |].
    intros _. eexists. split; [apply elem_of_app; right; apply list_elem_of_here | done].
  - injection Hman as <- <-. cbn. rewrite app_nil_r.
    split; [done |]. split; [done |]. split; [done |]. done.
  - injection Hman as <- <-. cbn. rewrite app_nil_r.
    split; [done |]. split; [done |]. split; [done |]. done.
Qed.

Lemma trelloColorMap_values color hex :
  Trello.trelloColorMap !! color = Some hex → hex = "" ∨ Trello.isHexColor hex = true.
Proof.
  intros Hlook. apply elem_of_map_to_list in Hlook.
  assert (Hall : forallb (λ kv : string * string,
                            bool_decide (kv.2 = "") || Trello.isHexColor kv.2)
                   (map_to_list Trello.trelloColorMap) = true) by (vm_compute; reflexivity).
  rewrite forallb_forall in Hall.
  specialize (Hall _ (proj1 (list_elem_of_In _ _) Hlook)). cbn in Hall.
  apply orb_true_iff in Hall as [Hempty | Hhex]; [left | by right].
  by apply bool_decide_eq_true in Hempty.
Qed.

(** X20. Every label of a converted card keeps its name, in order, and gets
    a colour that is either empty or six hexadecimal digits; a Trello colour
    that is not a key of the table gets the empty colour of the entry
    transparent. *)
Theorem convertCard_labels bucketID card task :
  Trello.convertCard srv token bucketID card = inr task →
  Trello.modelsLabel_Title <$> Trello.task_Labels task
    = Trello.label_Name <$> Trello.card_Labels card ∧
  Forall (λ l, Trello.modelsLabel_HexColor l = "" ∨
               Trello.isHexColor (Trello.modelsLabel_HexColor l) = true)
    (Trello.task_Labels task) ∧
  Forall2 (λ label l, Trello.trelloColorMap !! Trello.label_Color label = None →
                      Trello.modelsLabel_HexColor l = "")
    (Trello.card_Labels card) (Trello.task_Labels task).
Proof.
  intros Hrun.
  apply convertCard_Return in Hrun as (html & uploads & cover0 & atts & cover & _ & _ & _ & ->).
  cbn [Trello.task_Labels]. split; [| split].
  - rewrite <- list_fmap_compose. by apply list_fmap_ext.
  - rewrite Forall_fmap. apply Forall_forall. intros label _.
    unfold compose, Trello.convertLabel. cbn [Trello.modelsLabel_HexColor].
    destruct (Trello.trelloColorMap !! Trello.label_Color label) as [hex |] eqn:Hhex.
    + by eapply trelloColorMap_values.
    + by left.
  - apply Forall2_fmap_r, Forall_Forall2_diag, Forall_forall. intros label _ Hnone.
    unfold Trello.convertLabel. by rewrite Hnone.
Qed.

Lemma convertCards_spec bucketID cards tasks tasks' :
  Trello.convertCards srv token bucketID cards tasks = inr tasks' →
  ∃ new, tasks' = tasks ++ new ∧
         Forall2 (λ card task, Trello.convertCard srv token bucketID card = inr task)
           cards new.
Proof.
  revert tasks. induction cards as [| card rest IH]; intros tasks; cbn.
  { intros [= <-]. exists []. by rewrite app_nil_r. }
  destruct (Trello.convertCard srv token bucketID card) as [err | task] eqn:Hcard; [done |].
  intros Hrun. destruct (IH _ Hrun) as (new & -> & Hall).
  exists (task :: new). split; [by rewrite <- app_assoc |]. by constructor.
Qed.

Lemma convertLists_spec lists project bucketID project' bucketID' :
  Trello.convertLists srv token lists project bucketID = inr (project', bucketID') →
  bucketID' = bucketID + Z.of_nat (length lists) ∧
  Trello.pwtb_Project project' = Trello.pwtb_Project project ∧
  Trello.pwtb_BackgroundInformation project' = Trello.pwtb_BackgroundInformation project ∧
  ∃ buckets tss,
    Trello.pwtb_Buckets project' = Trello.pwtb_Buckets project ++ buckets ∧
    Trello.pwtb_Tasks project' = Trello.pwtb_Tasks project ++ concat tss ∧
    bucket_ID <$> buckets = seqZ bucketID (Z.of_nat (length lists)) ∧
    Forall2 (λ l bucket,
               bucket = mkBucket (bucket_ID bucket) (Trello.list_Name l) 0 [] 0 0 0 0 0
                          None 0 emptyTaskCollection) lists buckets ∧
    Forall2 (λ lb ts,
               Forall2 (λ card task,
                          Trello.convertCard srv token (bucket_ID lb.2) card = inr task)
                 (Trello.list_Cards lb.1) ts)
      (zip lists buckets) tss.
Proof.
  revert project bucketID.
  induction lists as [| l rest IH]; intros project bucketID; cbn [Trello.convertLists].
  { intros [= <- <-]. split; [cbn; lia |]. split; [done |]. split; [done |].
    exists [], []. rewrite !app_nil_r. repeat split; constructor. }
  destruct (Trello.convertCards _ _ _ _ _) as [err | tasks] eqn:Hcards; [done |].
  intros Hrun.
  apply convertCards_spec in Hcards as (new & -> & Hnew).
  destruct (IH _ _ Hrun) as (-> & Hp & Hbg & buckets & tss & Hb & Ht & Hids & Hshape & Htasks).
  cbn in Hp, Hbg, Hb, Ht.
  split; [cbn [length]; lia |]. split; [done |]. split; [done |].
  eexists (_ :: buckets), (new :: tss).
  split; [by rewrite Hb, <- app_assoc |].
  split; [by rewrite Ht, <- app_assoc |].
  split. { cbn [length]. rewrite seqZ_cons by lia. cbn. f_equal.
           rewrite Hids. f_equal; lia. }
  split; [by constructor |].
  cbn. by constructor.
Qed.

Lemma convertBoard_Return index board bucketID project bucketID' :
  Trello.convertBoard srv token index board bucketID = inr (project, bucketID') →
  Trello.convertLists srv token (Trello.board_Lists board)
    (Trello.mkProjectWithTasksAndBuckets
       (Trello.mkProject (Z.of_nat index + 2) 1 (Trello.board_Name board)
          (Trello.board_Desc board) (Trello.board_Closed board))
       (Trello.pwtb_BackgroundInformation project) [] []) bucketID
    = inr (project, bucketID') ∧
  (if decide (Trello.board_Prefs_BackgroundImage board ≠ "")
   then ∃ buf, Trello.DownloadFile srv (Trello.board_Prefs_BackgroundImage board) = inr buf ∧
               Trello.pwtb_BackgroundInformation project = Some buf
   else Trello.pwtb_BackgroundInformation project = None).
Proof.
  unfold Trello.convertBoard, Trello.pseudoParentID.
  replace (Z.of_nat (index + 1) + 1) with (Z.of_nat index + 2) by lia.
  destruct (decide _) as [Hbg | Hbg].
  - destruct (Trello.DownloadFile srv _) as [err | buf]; [done |].
    intros Hrun. destruct (convertLists_spec _ _ _ _ _ Hrun) as (_ & _ & -> & _).
    split; [done |]. by exists buf.
  - intros Hrun. destruct (convertLists_spec _ _ _ _ _ Hrun) as (_ & _ & -> & _). done.
Qed.

(** How many lists the boards hold. *)
Lemma convertBoards_spec index boards full bucketID result :
  Trello.convertBoards srv token index boards full bucketID = inr result →
  ∃ projects,
    result = full ++ projects ∧
    length projects = length boards ∧
    ∀ k board, boards !! k = Some board →
      ∃ project,
        projects !! k = Some project ∧
        Trello.convertBoard srv token (index + k) board
          (bucketID + Z.of_nat (length (take k boards ≫= Trello.board_Lists)))
        = inr (project,
               bucketID + Z.of_nat (length (take (S k) boards ≫= Trello.board_Lists))).
Proof.
  revert index full bucketID.
  induction boards as [| board rest IH]; intros index full bucketID; cbn [Trello.convertBoards].
  { intros [= <-]. exists []. rewrite app_nil_r. by repeat split. }
  destruct (Trello.convertBoard srv token index board bucketID)
    as [err | [project bucketID1]] eqn:Hboard; [done |].
  intros Hrun. destruct (IH _ _ _ Hrun) as (projects & -> & Hlen & Hat).
  exists (project :: projects). split; [by rewrite <- app_assoc |].
  split; [cbn; lia |].
  pose proof (convertBoard_Return _ _ _ _ _ Hboard) as [Hlists _].
  apply convertLists_spec in Hlists as (Hnext & _).
  intros [| k] board' Hk.
  - injection Hk as <-. exists project. split; [done |].
    cbn. rewrite app_nil_r, Nat.add_0_r, Z.add_0_r. by rewrite Hboard, Hnext.
  - cbn in Hk. destruct (Hat _ _ Hk) as (project' & Hp & Hconv).
    exists project'. split; [done |].
    replace (index + S k)%nat with (S index + k)%nat by lia.
    cbn [take bind mbind list_bind]. rewrite !length_app.
    rewrite !Nat2Z.inj_add, !Z.add_assoc, <- Hnext. exact Hconv.
Qed.

(** X21. A successful conversion returns the pseudo project "Imported from
    Trello" with id 1, without tasks and buckets, followed by one project
    per board in the order of the boards: the project of the board at index
    k has id k + 2, parent 1, and the name, description and archived flag of
    the board. *)
Theorem convertTrelloDataToVikunja_projects trelloData result :
  Trello.convertTrelloDataToVikunja srv token trelloData = inr result →
  ∃ projects,
    result = Trello.mkProjectWithTasksAndBuckets
               (Trello.mkProject 1 0 "Imported from Trello" "" false) None [] []
             :: projects ∧
    Trello.pwtb_Project <$> projects
      = imap (λ k board,
                Trello.mkProject (Z.of_nat k + 2) 1 (Trello.board_Name board)
                  (Trello.board_Desc board) (Trello.board_Closed board)) trelloData.
Proof.
  unfold Trello.convertTrelloDataToVikunja. intros Hrun.
  apply convertBoards_spec in Hrun as (projects & -> & Hlen & Hat).
  exists projects. split; [done |].
  apply list_eq. intros k. rewrite list_lookup_fmap, list_lookup_imap.
  destruct (trelloData !! k) as [board |] eqn:Hboard.
  - destruct (Hat _ _ Hboard) as (project & -> & Hconv). cbn.
    apply convertBoard_Return in Hconv as [Hlists _].
    apply convertLists_spec in Hlists as (_ & -> & _). done.
  - apply lookup_ge_None in Hboard. rewrite <- Hlen in Hboard.
    apply lookup_ge_None in Hboard. by rewrite Hboard.
Qed.

(** X22. The buckets of a successful conversion, read project by project,
    carry the ids 1, 2, 3, ... without a gap: the ids are unique across the
    boards, and there are as many as the boards have lists. *)
Theorem convertTrelloDataToVikunja_bucket_ids trelloData result :
  Trello.convertTrelloDataToVikunja srv token trelloData = inr result →
  bucket_ID <$> (result ≫= Trello.pwtb_Buckets)
    = seqZ 1 (Z.of_nat (length (trelloData ≫= Trello.board_Lists))).
Proof.
  unfold Trello.convertTrelloDataToVikunja.
  assert (Hgen : ∀ boards index full bucketID result',
            Trello.convertBoards srv token index boards full bucketID = inr result' →
            bucket_ID <$> (result' ≫= Trello.pwtb_Buckets)
            = (bucket_ID <$> (full ≫= Trello.pwtb_Buckets))
              ++ seqZ bucketID (Z.of_nat (length (boards ≫= Trello.board_Lists)))).
  { induction boards as [| board rest IH]; intros index full bucketID result';
      cbn [Trello.convertBoards].
    { intros [= <-]. cbn. by rewrite app_nil_r. }
    destruct (Trello.convertBoard srv token index board bucketID)
      as [err | [project bucketID1]] eqn:Hboard; [done |].
    intros Hrun. rewrite (IH _ _ _ _ Hrun).
    apply convertBoard_Return in Hboard as [Hlists _].
    apply convertLists_spec in Hlists
      as (-> & _ & _ & buckets & tss & Hb & _ & Hids & _).
    cbn in Hb. rewrite bind_app, fmap_app. cbn [bind mbind list_bind].
    rewrite app_nil_r, Hb, Hids, <- app_assoc. f_equal.
    rewrite length_app, Nat2Z.inj_add.
    rewrite (seqZ_app bucketID) by lia. done. }
  intros Hrun. by rewrite (Hgen _ _ _ _ _ Hrun).
Qed.

(** X23. In the project of each board the buckets are the lists of the board
    in their order, under the names of the lists, and the tasks are the
    cards list by list in their order: every task carries the name of its
    card and the id of the bucket made from the list of the card. *)
Theorem convertTrelloDataToVikunja_tasks trelloData result k board :
  Trello.convertTrelloDataToVikunja srv token trelloData = inr result →
  trelloData !! k = Some board →
  ∃ project,
    result !! S k = Some project ∧
    bucket_Title <$> Trello.pwtb_Buckets project
      = Trello.list_Name <$> Trello.board_Lists board ∧
    (λ task, (Trello.task_Title task, Trello.task_BucketID task))
      <$> Trello.pwtb_Tasks project
    = concat (zip_with (λ l bucket,
                          (λ card, (Trello.card_Name card, bucket_ID bucket))
                            <$> Trello.list_Cards l)
                (Trello.board_Lists board) (Trello.pwtb_Buckets project)).
Proof.
  unfold Trello.convertTrelloDataToVikunja. intros Hrun Hboard.
  apply convertBoards_spec in Hrun as (projects & -> & _ & Hat).
  destruct (Hat _ _ Hboard) as (project & Hp & Hconv).
  exists project. split; [done |].
  apply convertBoard_Return in Hconv as [Hlists _].
  apply convertLists_spec in Hlists
    as (_ & _ & _ & buckets & tss & Hb & Ht & _ & Hshape & Htasks).
  cbn in Hb, Ht. rewrite Hb, Ht. clear Hb Ht Hp Hat.
  split.
  - clear Htasks. induction Hshape as [| l bucket ls bs Hl _ IH]; [done |].
    cbn. f_equal; [by rewrite Hl | exact IH].
  - revert tss Htasks.
    induction Hshape as [| l bucket ls bs Hl _ IH]; intros tss Htasks.
    { apply Forall2_nil_inv_l in Htasks as ->. done. }
    cbn in Htasks. apply Forall2_cons_inv_l in Htasks as (ts & tss' & Hts & Htss & ->).
    cbn. rewrite fmap_app, (IH _ Htss). f_equal.
    cbn in Hts. clear -Hts.
    induction Hts as [| card task cards ts Hcard _ IH]; [done |].
    cbn. rewrite IH. f_equal.
    apply convertCard_Return in Hcard as (? & ? & ? & ? & ? & _ & _ & _ & ->). done.
Qed.

Lemma succeeds_inr {A} (a : A) : Trello.succeeds (inr a).
Proof. by exists a. Qed.

Lemma succeeds_inl {A} (err : string) : ¬ Trello.succeeds (inl err : string + A).
Proof. by intros [a [=]]. Qed.

Lemma convertAttachments_succeeds card attachments acc cover :
  Trello.succeeds (Trello.convertAttachments srv token card attachments acc cover) ↔
  ∀ attachment, attachment ∈ attachments →
    Trello.attachment_IsUpload attachment = true →
    Trello.succeeds (Trello.DownloadFileWithHeaders srv (Trello.attachment_URL attachment)
                       [("Authorization", [Trello.oauthHeader srv token])]).
Proof.
  revert acc cover.
  induction attachments as [| a rest IH]; intros acc cover; cbn [Trello.convertAttachments].
  { split; [| intros _; apply succeeds_inr]. intros _ a Ha. by apply elem_of_nil in Ha. }
  destruct (Trello.attachment_IsUpload a) eqn:Hup; cbn [negb].
  2: { rewrite IH. split.
       - intros Hall a' Ha'. apply elem_of_cons in Ha' as [-> | Ha']; [congruence | eauto].
       - intros Hall a' Ha'. apply Hall. by apply list_elem_of_further. }
  destruct (Trello.DownloadFileWithHeaders srv (Trello.attachment_URL a) _)
    as [err | buf] eqn:Hdl.
  { split; [by intros ?%succeeds_inl |]. intros Hall. exfalso.
    specialize (Hall a (list_elem_of_here _ _) Hup). rewrite Hdl in Hall.
    by apply succeeds_inl in Hall. }
  assert (Hrest : (∀ attachment, attachment ∈ a :: rest →
                     Trello.attachment_IsUpload attachment = true →
                     Trello.succeeds
                       (Trello.DownloadFileWithHeaders srv
                          (Trello.attachment_URL attachment)
                          [("Authorization", [Trello.oauthHeader srv token])])) ↔
                  (∀ attachment, attachment ∈ rest →
                     Trello.attachment_IsUpload attachment = true →
                     Trello.succeeds
                       (Trello.DownloadFileWithHeaders srv
                          (Trello.attachment_URL attachment)
                          [("Authorization", [Trello.oauthHeader srv token])]))).
  { split.
    - intros Hall a' Ha'. apply Hall. by apply list_elem_of_further.
    - intros Hall a' Ha'. apply elem_of_cons in Ha' as [-> | Ha']; [| eauto].
      intros _. rewrite Hdl. apply succeeds_inr. }
  rewrite Hrest. destruct (decide _); apply IH.
Qed.

Lemma convertManualCover_succeeds card attachments cover0 :
  Trello.succeeds (Trello.convertManualCover srv card attachments cover0) ↔
  (Trello.card_ManualCoverAttachment card = true →
   ∀ cover, last (Trello.card_Cover_Scaled card) = Some cover →
            Trello.succeeds (Trello.DownloadFile srv (Trello.scaled_URL cover))).
Proof.
  unfold Trello.convertManualCover.
  destruct (Trello.card_ManualCoverAttachment card).
  2: { split; [done | intros _; apply succeeds_inr]. }
  destruct (last (Trello.card_Cover_Scaled card)) as [scaled |].
  2: { split; [done | intros _; apply succeeds_inr]. }
  destruct (Trello.DownloadFile srv (Trello.scaled_URL scaled)) as [err | buf] eqn:Hdl.
  - split; [by intros ?%succeeds_inl |]. intros Hall.
    specialize (Hall eq_refl _ eq_refl). rewrite Hdl in Hall.
    by apply succeeds_inl in Hall.
  - split; [| intros _; apply succeeds_inr].
    intros _ _ cover [= <-]. rewrite Hdl. apply succeeds_inr.
Qed.

Lemma convertCard_succeeds bucketID card :
  Trello.succeeds (Trello.convertCard srv token bucketID card) ↔
  Trello.cardCallsSucceed srv token card.
Proof.
  unfold Trello.cardCallsSucceed.
  rewrite <- (convertAttachments_succeeds card (Trello.card_Attachments card) [] 0).
  unfold Trello.convertCard, Trello.convertMarkdownToHTML.
  destruct (Trello.goldmark_Convert srv _) as [err | html].
  { split; [by intros ?%succeeds_inl | by intros [?%succeeds_inl _]]. }
  destruct (Trello.convertAttachments _ _ _ _ _ _) as [err | [uploads cover0]].
  { split; [by intros ?%succeeds_inl | by intros (_ & ?%succeeds_inl & _)]. }
  rewrite <- (convertManualCover_succeeds card uploads cover0).
  destruct (Trello.convertManualCover _ _ _ _) as [err | [attachments cover]].
  - split; [by intros ?%succeeds_inl | by intros (_ & _ & ?%succeeds_inl)].
  - split; [| intros _; apply succeeds_inr].
    intros _. repeat split; apply succeeds_inr.
Qed.

Lemma convertCards_succeeds bucketID cards tasks :
  Trello.succeeds (Trello.convertCards srv token bucketID cards tasks) ↔
  ∀ card, card ∈ cards → Trello.cardCallsSucceed srv token card.
Proof.
  revert tasks. induction cards as [| card rest IH]; intros tasks; cbn [Trello.convertCards].
  { split; [| intros _; apply succeeds_inr]. intros _ c Hc. by apply elem_of_nil in Hc. }
  pose proof (convertCard_succeeds bucketID card) as Hcard.
  destruct (Trello.convertCard srv token bucketID card) as [err | task].
  - split; [by intros ?%succeeds_inl |]. intros Hall. exfalso.
    eapply (succeeds_inl (A := Trello.Task)). apply Hcard, Hall, list_elem_of_here.
  - rewrite IH. split.
    + intros Hall c Hc. apply elem_of_cons in Hc as [-> | Hc]; [| eauto].
      apply Hcard, succeeds_inr.
    + intros Hall c Hc. apply Hall. by apply list_elem_of_further.
Qed.

Lemma convertLists_succeeds lists project bucketID :
  Trello.succeeds (Trello.convertLists srv token lists project bucketID) ↔
  ∀ l card, l ∈ lists → card ∈ Trello.list_Cards l → Trello.cardCallsSucceed srv token card.
Proof.
  revert project bucketID.
  induction lists as [| l rest IH]; intros project bucketID; cbn [Trello.convertLists].
  { split; [| intros _; apply succeeds_inr]. intros _ l c Hl. by apply elem_of_nil in Hl. }
  pose proof (convertCards_succeeds bucketID (Trello.list_Cards l)
                (Trello.pwtb_Tasks project)) as Hcards.
  destruct (Trello.convertCards _ _ _ _ _) as [err | tasks].
  - split; [by intros ?%succeeds_inl |]. intros Hall. exfalso.
    eapply (succeeds_inl (A := list Trello.Task)). apply Hcards.
    intros c Hc. eapply Hall; [apply list_elem_of_here | done].
  - rewrite IH. split.
    + intros Hall l' c Hl'. apply elem_of_cons in Hl' as [-> | Hl']; [| by eauto].
      apply Hcards, succeeds_inr.
    + intros Hall l' c Hl'. apply Hall. by apply list_elem_of_further.
Qed.

Lemma convertBoard_succeeds index board bucketID :
  Trello.succeeds (Trello.convertBoard srv token index board bucketID) ↔
  Trello.boardCallsSucceed srv token board.
Proof.
  unfold Trello.convertBoard, Trello.boardCallsSucceed.
  destruct (decide _) as [Hbg | Hbg].
  - destruct (Trello.DownloadFile srv _) as [err | buf].
    + split; [by intros ?%succeeds_inl |]. intros [Hdl _].
      by apply succeeds_inl in Hdl.
    + rewrite convertLists_succeeds. split; [| by intros [_ ?]].
      intros Hall. split; [intros _; apply succeeds_inr | done].
  - rewrite convertLists_succeeds. split; [| by intros [_ ?]].
    intros Hall. split; [done | done].
Qed.

(** X24. The conversion succeeds exactly when every call it makes outside
    succeeds: the download of each non-empty board background, the Markdown
    conversion of each card description, the download of each uploaded
    attachment, and the download of the last scaled cover of each card whose
    cover was set by hand.  Nothing else makes it fail, and attachments that
    are not uploads are never downloaded. *)
Theorem convertTrelloDataToVikunja_succeeds trelloData :
  Trello.succeeds (Trello.convertTrelloDataToVikunja srv token trelloData) ↔
  ∀ board, board ∈ trelloData → Trello.boardCallsSucceed srv token board.
Proof.
  unfold Trello.convertTrelloDataToVikunja.
  generalize [Trello.mkProjectWithTasksAndBuckets
                (Trello.mkProject Trello.pseudoParentID 0 "Imported from Trello" "" false)
                None [] []] as full.
  generalize 1 as bucketID. generalize 0%nat as index.
  induction trelloData as [| board rest IH]; intros index bucketID full;
    cbn [Trello.convertBoards].
  { split; [| intros _; apply succeeds_inr]. intros _ b Hb. by apply elem_of_nil in Hb. }
  pose proof (convertBoard_succeeds index board bucketID) as Hboard.
  destruct (Trello.convertBoard srv token index board bucketID) as [err | [project next]].
  - split; [by intros ?%succeeds_inl |]. intros Hall. exfalso.
    eapply (succeeds_inl (A := Trello.ProjectWithTasksAndBuckets * Z)).
    apply Hboard, Hall, list_elem_of_here.
  - rewrite IH. split.
    + intros Hall b Hb. apply elem_of_cons in Hb as [-> | Hb]; [| eauto].
      apply Hboard, succeeds_inr.
    + intros Hall b Hb. apply Hall. by apply list_elem_of_further.
Qed.

End TrelloConversion.

Lemma convertCard_attachments_witness :
  ∃ task,
    Trello.convertCard TrelloFixture.services "token" 1 TrelloFixture.cardPlan = inr task ∧
    (λ a, Trello.file_Name (Trello.taskAttachment_File a)) <$> Trello.task_Attachments task
      = ["sketch.png"] ∧
    Trello.task_CoverImageAttachmentID task ∈ [0; 42; 43].
Proof.
  eassert (R : Trello.convertCard TrelloFixture.services "token" 1 TrelloFixture.cardPlan
               = inr _) by evaluated.
  eexists. split; [exact R |].
  destruct (convertCard_attachments TrelloFixture.services "token" 1
              TrelloFixture.cardPlan _ R) as (Hnames & Hcover & _).
  split; [exact Hnames | exact Hcover].
Defined.

Lemma convertCard_labels_witness :
  ∃ task,
    Trello.convertCard TrelloFixture.services "token" 1 TrelloFixture.cardPlan = inr task ∧
    Trello.modelsLabel_Title <$> Trello.task_Labels task = ["urgent"; "soft"].
Proof.
  eassert (R : Trello.convertCard TrelloFixture.services "token" 1 TrelloFixture.cardPlan
               = inr _) by evaluated.
  eexists. split; [exact R |].
  exact (proj1 (convertCard_labels TrelloFixture.services "token" 1
                  TrelloFixture.cardPlan _ R)).
Defined.

Lemma convertTrelloDataToVikunja_projects_witness :
  ∃ result projects,
    Trello.convertTrelloDataToVikunja TrelloFixture.services "token" TrelloFixture.boards
      = inr result ∧
    result = Trello.mkProjectWithTasksAndBuckets
               (Trello.mkProject 1 0 "Imported from Trello" "" false) None [] []
             :: projects ∧
    Trello.pwtb_Project <$> projects
      = [Trello.mkProject 2 1 "Work" "the work board" false;
         Trello.mkProject 3 1 "Home" "" true].
Proof.
  eassert (R : Trello.convertTrelloDataToVikunja TrelloFixture.services "token"
                 TrelloFixture.boards = inr _) by evaluated.
  destruct (convertTrelloDataToVikunja_projects TrelloFixture.services "token"
              TrelloFixture.boards _ R) as (projects & Hresult & Hprojects).
  eexists _, projects. split; [exact R |]. split; [exact Hresult | exact Hprojects].
Defined.

Lemma convertTrelloDataToVikunja_bucket_ids_witness :
  ∃ result,
    Trello.convertTrelloDataToVikunja TrelloFixture.services "token" TrelloFixture.boards
      = inr result ∧
    bucket_ID <$> (result ≫= Trello.pwtb_Buckets) = [1; 2; 3].
Proof.
  eassert (R : Trello.convertTrelloDataToVikunja TrelloFixture.services "token"
                 TrelloFixture.boards = inr _) by evaluated.
  eexists. split; [exact R |].
  exact (convertTrelloDataToVikunja_bucket_ids TrelloFixture.services "token"
           TrelloFixture.boards _ R).
Defined.

Lemma convertTrelloDataToVikunja_tasks_witness :
  ∃ result project,
    Trello.convertTrelloDataToVikunja TrelloFixture.services "token" TrelloFixture.boards
      = inr result ∧
    result !! 2%nat = Some project ∧
    bucket_Title <$> Trello.pwtb_Buckets project = ["Ideas"].
Proof.
  eassert (R : Trello.convertTrelloDataToVikunja TrelloFixture.services "token"
                 TrelloFixture.boards = inr _) by evaluated.
  destruct (convertTrelloDataToVikunja_tasks TrelloFixture.services "token"
              TrelloFixture.boards _ 1%nat _ R eq_refl) as (project & Hp & Hb & _).
  eexists _, project. split; [exact R |]. split; [exact Hp | exact Hb].
Defined.

(** The fixture converted: three buckets numbered across the two boards, the
    unknown colour "pink_light" falling back to the empty colour, and the
    cover ids 42 and 43. *)
Example trello_conversion_scenario :
  ∃ result,
    Trello.convertTrelloDataToVikunja TrelloFixture.services "token" TrelloFixture.boards
      = inr result ∧
    (result ≫= Trello.pwtb_Tasks)
      ≫= (λ task, Trello.modelsLabel_HexColor <$> Trello.task_Labels task)
      = ["f87168"; ""] ∧
    (λ task, (Trello.task_Title task, Trello.task_BucketID task,
              Trello.task_CoverImageAttachmentID task))
      <$> (result ≫= Trello.pwtb_Tasks)
      = [("Plan", 1, 42); ("Ship", 2, 43); ("Idea", 3, 0)].
Proof. eexists. split; [evaluated |]. split; reflexivity. Qed.

Section TrelloFetching.
Context (client : Trello.Client).

Lemma listMapFrom_other i lists m id :
  id ∉ Trello.list_ID <$> lists → Trello.listMapFrom i lists m !! id = m !! id.
Proof.
  revert i m. induction lists as [| l rest IH]; intros i m Hnot; [done |].
  cbn in Hnot. apply not_elem_of_cons in Hnot as [Hne Hnot].
  cbn [Trello.listMapFrom]. rewrite IH by done. by apply lookup_insert_ne.
Qed.

Lemma listMapFrom_NoDup i lists m j l :
  NoDup (Trello.list_ID <$> lists) →
  lists !! j = Some l →
  Trello.listMapFrom i lists m !! Trello.list_ID l = Some (i + j)%nat.
Proof.
  revert i m j. induction lists as [| l0 rest IH]; intros i m j Hnodup Hj; [done |].
  cbn in Hnodup. apply NoDup_cons in Hnodup as [Hfresh Hnodup].
  cbn [Trello.listMapFrom]. destruct j as [| j].
  - injection Hj as <-. rewrite listMapFrom_other by done.
    by rewrite lookup_insert_eq, Nat.add_0_r.
  - cbn in Hj. rewrite (IH _ _ _ Hnodup Hj). f_equal. lia.
Qed.

(** With distinct list ids, the map sends an id to the index of the list
    that has it. *)
Lemma listMapFrom_index lists i l id :
  NoDup (Trello.list_ID <$> lists) →
  lists !! i = Some l →
  Trello.listMapFrom 0 lists ∅ !! id = Some i ↔ id = Trello.list_ID l.
Proof.
  intros Hnodup Hi. split.
  - intros Hlook.
    destruct (decide (id ∈ Trello.list_ID <$> lists)) as [Hin | Hnot].
    + apply list_elem_of_fmap in Hin as (l' & -> & Hl').
      apply list_elem_of_lookup in Hl' as [j Hj].
      rewrite (listMapFrom_NoDup 0 _ _ _ _ Hnodup Hj) in Hlook.
      injection Hlook as <-. cbn in Hi. congruence.
    + by rewrite listMapFrom_other in Hlook.
  - intros ->. by rewrite (listMapFrom_NoDup 0 _ _ _ _ Hnodup Hi).
Qed.

Lemma distributeCards_spec cards listMap lists lists' :
  Trello.distributeCards client cards listMap lists = inr lists' →
  length lists' = length lists ∧
  ∀ i l, lists !! i = Some l →
    ∃ l' added,
      lists' !! i = Some l' ∧
      Trello.list_ID l' = Trello.list_ID l ∧
      Trello.list_Name l' = Trello.list_Name l ∧
      Trello.list_Cards l' = Trello.list_Cards l ++ added ∧
      Forall2 (λ card card', Trello.completeCard client card = inr card')
        (filter (λ card, listMap !! Trello.card_IDList card = Some i) cards) added.
Proof.
  revert lists. induction cards as [| card rest IH]; intros lists; cbn [Trello.distributeCards].
  { intros [= <-]. split; [done |]. intros i l Hl. exists l, [].
    rewrite app_nil_r. repeat split; [done | constructor]. }
  destruct (listMap !! Trello.card_IDList card) as [ptr |] eqn:Hptr.
  2: { intros Hrun. destruct (IH _ Hrun) as [Hlen Hat]. split; [done |].
       intros i l Hl. rewrite filter_cons_False by (by rewrite Hptr). by apply Hat. }
  destruct (Trello.completeCard client card) as [err | card'] eqn:Hcard; [done |].
  intros Hrun. destruct (IH _ Hrun) as [Hlen Hat].
  rewrite length_alter in Hlen. split; [done |].
  intros i l Hl. destruct (decide (ptr = i)) as [-> | Hne].
  - destruct (Hat i (Trello.set_list_Cards (Trello.list_Cards l ++ [card']) l))
      as (l' & added & Hl' & Hid & Hname & Hcards & Hadded).
    { by rewrite list_lookup_alter_eq, Hl. }
    cbn in Hid, Hname, Hcards.
    exists l', (card' :: added). rewrite filter_cons_True by done.
    repeat split; try done.
    + by rewrite Hcards, <- app_assoc.
    + by constructor.
  - rewrite filter_cons_False by (rewrite Hptr; congruence).
    apply Hat. by rewrite list_lookup_alter_ne.
Qed.

Lemma getBoard_spec board board' :
  Trello.getBoard client board = inr board' →
  ∃ lists cards,
    Trello.GetLists client board = inr lists ∧
    Trello.GetCards client (Trello.set_board_Lists lists board) = inr cards ∧
    board' = Trello.set_board_Lists (Trello.board_Lists board') board ∧
    Forall2 (λ l l', Trello.list_ID l' = Trello.list_ID l ∧
                     Trello.list_Name l' = Trello.list_Name l)
      lists (Trello.board_Lists board') ∧
    (NoDup (Trello.list_ID <$> lists) →
     Forall2 (λ l l',
                ∃ added,
                  Trello.list_Cards l' = Trello.list_Cards l ++ added ∧
                  Forall2 (λ card card', Trello.completeCard client card = inr card')
                    (filter (λ card, Trello.card_IDList card = Trello.list_ID l) cards)
                    added)
       lists (Trello.board_Lists board')).
Proof.
  unfold Trello.getBoard.
  destruct (Trello.GetLists client board) as [err | lists]; [done |].
  cbv zeta.
  destruct (Trello.GetCards client _) as [err | cards] eqn:Hfetch; [done |].
  change (Trello.board_Lists (Trello.set_board_Lists lists board)) with lists.
  destruct (Trello.distributeCards client cards _ lists) as [err | lists'] eqn:Hdist; [done |].
  intros [= <-]. exists lists, cards. split; [done |]. split; [done |].
  split; [done |].
  apply distributeCards_spec in Hdist as [Hlen Hat]. cbn.
  split.
  - apply Forall2_same_length_lookup_2; [done |].
    intros i l l' Hl Hl'. destruct (Hat _ _ Hl) as (l'' & added & Hl'' & Hid & Hname & _).
    by simplify_eq.
  - intros Hnodup. apply Forall2_same_length_lookup_2; [done |].
    intros i l l' Hl Hl'.
    destruct (Hat _ _ Hl) as (l'' & added & Hl'' & _ & _ & Hcards & Hadded).
    simplify_eq. exists added. split; [done |].
    rewrite (list_filter_iff _ (λ card, Trello.listMapFrom 0 lists ∅
                                          !! Trello.card_IDList card = Some i)); [done |].
    intros card. symmetry. by apply listMapFrom_index.
Qed.

(** X25. The boards that are fetched keep the lists the client returned for
    them, under the same ids and names and in the same order.  When the ids
    of the lists of a board are distinct, each list receives exactly the
    cards of the board that name it, in the order the client returned them
    and completed with their attachments and checklists, after the cards it
    already had; a card that names no list of the board is left out. *)
Theorem getTrelloData_cards trelloData :
  Trello.getTrelloData client = inr trelloData →
  ∃ boards,
    Trello.GetMyBoards client = inr boards ∧
    Forall2 (λ board board',
               ∃ lists cards,
                 Trello.GetLists client board = inr lists ∧
                 Trello.GetCards client (Trello.set_board_Lists lists board) = inr cards ∧
                 board' = Trello.set_board_Lists (Trello.board_Lists board') board ∧
                 Forall2 (λ l l', Trello.list_ID l' = Trello.list_ID l ∧
                                  Trello.list_Name l' = Trello.list_Name l)
                   lists (Trello.board_Lists board') ∧
                 (NoDup (Trello.list_ID <$> lists) →
                  Forall2 (λ l l',
                             ∃ added,
                               Trello.list_Cards l' = Trello.list_Cards l ++ added ∧
                               Forall2 (λ card card',
                                          Trello.completeCard client card = inr card')
                                 (filter (λ card, Trello.card_IDList card
                                                  = Trello.list_ID l) cards)
                                 added)
                    lists (Trello.board_Lists board')))
      boards trelloData.
Proof.
  unfold Trello.getTrelloData.
  destruct (Trello.GetMyBoards client) as [err | boards]; [done |].
  intros Hrun. exists boards. split; [done |].
  revert trelloData Hrun.
  induction boards as [| board rest IH]; intros trelloData; cbn [Trello.getBoards].
  { intros [= <-]. constructor. }
  destruct (Trello.getBoard client board) as [err | board'] eqn:Hboard; [done |].
  destruct (Trello.getBoards client rest) as [err | rest'] eqn:Hrest; [done |].
  intros [= <-]. constructor; [by apply getBoard_spec | by apply IH].
Qed.

End TrelloFetching.

Lemma getTrelloData_cards_witness :
  ∃ trelloData boards,
    Trello.getTrelloData TrelloFixture.client = inr trelloData ∧
    Trello.GetMyBoards TrelloFixture.client = inr boards ∧
    length boards = length trelloData.
Proof.
  eassert (R : Trello.getTrelloData TrelloFixture.client = inr _) by evaluated.
  destruct (getTrelloData_cards TrelloFixture.client _ R) as (boards & Hboards & Hall).
  eexists _, boards. split; [exact R |]. split; [exact Hboards |].
  exact (Forall2_length _ _ _ Hall).
Defined.

(** Fetching the account of the fixture gives its two boards: the card of
    the unknown list is gone and the other cards sit in their lists. *)
Example trello_fetch_scenario :
  Trello.getTrelloData TrelloFixture.client = inr TrelloFixture.boards.
Proof. evaluated. Qed.
